(** * LSM-tree cache engine (server/lsm-tree.js): model and verified properties

    The engine consists of three JavaScript classes, [MemTable], [SSTable]
    and [LSMTree].  They are embedded here as Rocq functions in a small
    state-and-exception monad, method by method and statement by statement.
    Everything the code obtains from its environment is explicit in a
    [World]:

    - [Date.now()] reads a clock that may advance before every read;
    - [Math.random()] draws from a supply;
    - every [fs] call that can reject consults a fault supply, so that the
      behaviour under I/O failure can be stated and proved; a call that
      rejects leaves the disk as it was;
    - the data directory holds the WAL file and the segment files, kept as
      the data that [JSON.stringify] serialises.

    The routes of server/index.js that call the engine are embedded too
    ([Api]).

    JavaScript [null] is [None]; a JavaScript [Map] is an association list
    in insertion order; a ttl is an integer number of milliseconds.  The
    calls of one engine run one after the other, and the recovery that
    the constructor starts has run to its end before the first of them. *)

From Stdlib Require Import ZArith NArith List String Bool Lia Sorted Permutation.
Import ListNotations.
Open Scope Z_scope.

Set Implicit Arguments.

(** ** Values *)

Definition Key := string.

(** Payloads are opaque to the engine: it only ever tests a value against
    [null]. *)
Definition Payload := string.

(** [{ value, expiresAt, timestamp }] *)
Record Entry := mkEntry {
  value : option Payload;
  expiresAt : option Z;
  timestamp : Z
}.

(** JavaScript truthiness of a number-or-null: [null] and [0] are falsy. *)
Definition truthy (x : option Z) : bool :=
  match x with
  | None => false
  | Some n => negb (n =? 0)
  end.

(** The third argument of [LSMTree.put]: left out ([undefined], which selects
    the default parameter value), [null], or a number of milliseconds. *)
Inductive TtlArg :=
| TtlOmitted
| TtlNull
| TtlNum (ms : Z).

(** ** JavaScript [Map] with string keys *)

Module JsMap.
Section WithValue.
Variable V : Type.

Definition t := list (Key * V).

Definition empty : t := [].

Fixpoint get (k : Key) (m : t) : option V :=
  match m with
  | [] => None
  | (k', v) :: m' => if String.eqb k k' then Some v else get k m'
  end.

(** [set] keeps the position of a key that is already present and appends
    a new key at the end. *)
Fixpoint set (k : Key) (v : V) (m : t) : t :=
  match m with
  | [] => [(k, v)]
  | (k', v') :: m' =>
      if String.eqb k k' then (k', v) :: m' else (k', v') :: set k v m'
  end.

Fixpoint delete (k : Key) (m : t) : t :=
  match m with
  | [] => []
  | (k', v') :: m' =>
      if String.eqb k k' then delete k m' else (k', v') :: delete k m'
  end.

Definition size (m : t) : nat := List.length m.

Definition entries (m : t) : list (Key * V) := m.

Definition values (m : t) : list V := map snd m.

(** [new Map(iterable)]: the pairs are [set] one after the other. *)
Definition of_pairs (l : list (Key * V)) : t :=
  fold_left (fun m kv => set (fst kv) (snd kv) m) l empty.

(** [new Map(m)] for [m] itself a [Map]: a fresh map with the same entries
    in the same order (see [of_pairs_copy] below). *)
Definition copy (m : t) : t := m.

(** The keys of a [Map] are pairwise distinct. *)
Definition wf (m : t) : Prop := NoDup (map fst m).
End WithValue.
End JsMap.

Arguments JsMap.empty {V}.

(** ** The environment *)

(** [Date.now() + Math.random().toString(36).substr(2, 9)]: the clock reading
    followed by the random suffix. *)
Record SegId := mkSegId {
  id_time : Z;
  id_rand : N
}.

(** [path.join(dataDir, `sstable_${id}.json`)] *)
Inductive Path :=
| SSTablePath (id : SegId).

Definition SegId_eqb (a b : SegId) : bool :=
  (id_time a =? id_time b) && (id_rand a =? id_rand b)%N.

Definition Path_eqb (p q : Path) : bool :=
  match p, q with
  | SSTablePath a, SSTablePath b => SegId_eqb a b
  end.

(** Contents of [wal.json] *)
Record WalFile := mkWalFile {
  wal_timestamp : Z;
  wal_memTable : list (Key * Entry)
}.

(** Contents of an [sstable_*.json] file *)
Record SegFile := mkSegFile {
  file_id : SegId;
  file_createdAt : Z;
  file_entries : list (Key * Entry)
}.

Record World := mkWorld {
  clock : Z;                      (* the last reading of [Date.now()] *)
  ticks : list N;                 (* by how much the clock advances before each coming reading *)
  rands : list N;                 (* coming results of [Math.random()] *)
  walFaults : list bool;          (* does the n-th coming write of the WAL reject? *)
  segFaults : list bool;          (* does the n-th coming write of a segment file reject? *)
  unlinkFaults : list bool;       (* does the n-th coming [unlink] reject? *)
  walFile : option WalFile;       (* [wal.json], when it exists *)
  segFiles : list (Path * SegFile) (* the segment files of the data directory *)
}.

(** When a supply is used up, the clock stands still, [Math.random()]
    yields [0] and calls succeed. *)
Definition next_fault (l : list bool) : bool := hd false l.

(** ** Monad: state, and exceptions that keep the state reached *)

Inductive Err :=
| IoError.

Inductive Res (A : Type) :=
| Ok (a : A)
| Throw (e : Err).

Arguments Ok {A} a.
Arguments Throw {A} e.

Definition M (S A : Type) := S -> Res A * S.

Definition ret {S A} (a : A) : M S A := fun s => (Ok a, s).

Definition bind {S A B} (m : M S A) (k : A -> M S B) : M S B :=
  fun s =>
    match m s with
    | (Ok a, s') => k a s'
    | (Throw e, s') => (Throw e, s')
    end.

Definition throw {S A} (e : Err) : M S A := fun s => (Throw e, s).

(** [try { m } catch (error) { h error }] *)
Definition try_catch {S A} (m : M S A) (h : Err -> M S A) : M S A :=
  fun s =>
    match m s with
    | (Ok a, s') => (Ok a, s')
    | (Throw e, s') => h e s'
    end.

Declare Scope js_scope.
Delimit Scope js_scope with js.
Notation "x <- m ;; k" := (bind m (fun x => k))
  (at level 61, m at next level, right associativity) : js_scope.
Notation "m ;; k" := (bind m (fun _ => k))
  (at level 61, right associativity) : js_scope.
Open Scope js_scope.

(** Code that only touches the environment. *)
Definition IO (A : Type) := M World A.

(** A method of an object of class [T]: it may update [this] and the
    environment. *)
Definition Meth (T A : Type) := M (T * World) A.

Definition io {T A} (m : IO A) : Meth T A :=
  fun s =>
    let (r, w) := m (snd s) in (r, (fst s, w)).

Definition this {T} : Meth T T := fun s => (Ok (fst s), s).

Definition set_this {T} (x : T) : Meth T unit := fun s => (Ok tt, (x, snd s)).

(** Calls a method on another object [x]; yields the method's result and
    the object as the call leaves it.  When the call throws, nothing refers
    to [x] any more. *)
Definition call_on {T U A} (x : U) (m : Meth U A) : Meth T (A * U) :=
  fun s =>
    match m (x, snd s) with
    | (Ok a, (x', w)) => (Ok (a, x'), (fst s, w))
    | (Throw e, (_, w)) => (Throw e, (fst s, w))
    end.

(** ** Environment primitives *)

(** What the coming reading of the clock will be. *)
Definition next_now (w : World) : Z := clock w + Z.of_N (hd 0%N (ticks w)).

Definition Date_now : IO Z :=
  fun w =>
    (Ok (next_now w),
     mkWorld (next_now w) (tl (ticks w)) (rands w) (walFaults w) (segFaults w)
             (unlinkFaults w) (walFile w) (segFiles w)).

Definition Math_random : IO N :=
  fun w =>
    (Ok (hd 0%N (rands w)),
     mkWorld (clock w) (ticks w) (tl (rands w)) (walFaults w) (segFaults w)
             (unlinkFaults w) (walFile w) (segFiles w)).

Fixpoint remove_file (p : Path) (fs : list (Path * SegFile)) : list (Path * SegFile) :=
  match fs with
  | [] => []
  | (q, c) :: fs' =>
      if Path_eqb p q then remove_file p fs' else (q, c) :: remove_file p fs'
  end.

Definition file_exists (p : Path) (fs : list (Path * SegFile)) : bool :=
  existsb (fun qc => Path_eqb p (fst qc)) fs.

Fixpoint read_file (p : Path) (fs : list (Path * SegFile)) : option SegFile :=
  match fs with
  | [] => None
  | (q, c) :: fs' => if Path_eqb p q then Some c else read_file p fs'
  end.

(** [fs.promises.writeFile(this.walPath, JSON.stringify(walData))]; a write
    that rejects leaves the file as it was. *)
Definition write_wal (d : WalFile) : IO unit :=
  fun w =>
    let w' f := mkWorld (clock w) (ticks w) (rands w) (tl (walFaults w))
                        (segFaults w) (unlinkFaults w) f (segFiles w) in
    if next_fault (walFaults w)
    then (Throw IoError, w' (walFile w))
    else (Ok tt, w' (Some d)).

(** [fs.promises.writeFile(this.filePath, JSON.stringify(data))] *)
Definition write_segment (p : Path) (d : SegFile) : IO unit :=
  fun w =>
    let w' fs := mkWorld (clock w) (ticks w) (rands w) (walFaults w)
                         (tl (segFaults w)) (unlinkFaults w) (walFile w) fs in
    if next_fault (segFaults w)
    then (Throw IoError, w' (segFiles w))
    else (Ok tt, w' ((p, d) :: remove_file p (segFiles w))).

(** [fs.existsSync(path)] *)
Definition existsSync (p : Path) : IO bool :=
  fun w => (Ok (file_exists p (segFiles w)), w).

(** [fs.promises.unlink(path)] *)
Definition unlink (p : Path) : IO unit :=
  fun w =>
    let w' fs := mkWorld (clock w) (ticks w) (rands w) (walFaults w)
                         (segFaults w) (tl (unlinkFaults w)) (walFile w) fs in
    if next_fault (unlinkFaults w)
    then (Throw IoError, w' (segFiles w))
    else (Ok tt, w' (remove_file p (segFiles w))).

(** [entry.expiresAt && Date.now() > entry.expiresAt]: the clock is read
    only when [expiresAt] is truthy. *)
Definition is_expired (e : Entry) : IO bool :=
  match expiresAt e with
  | Some x => if truthy (Some x)
              then (now <- Date_now ;; ret (now >? x))
              else ret false
  | None => ret false
  end.

(** [!entry.expiresAt || Date.now() <= entry.expiresAt] *)
Definition is_live (e : Entry) : IO bool :=
  match expiresAt e with
  | Some x => if truthy (Some x)
              then (now <- Date_now ;; ret (now <=? x))
              else ret true
  | None => ret true
  end.

(** ** The rest of the environment

    Recovery and shutdown also read files and keep [metadata.json].  A
    [Host] adds to the [World] what they need. *)

(** Contents of [metadata.json] *)
Record MetaFile := mkMetaFile {
  meta_defaultTTL : Z;
  meta_lastUpdated : Z
}.

Record Host := mkHost {
  host_world : World;
  readFaults : list bool;      (* does the n-th coming read of a file or of the directory
                                  reject, or yield text that [JSON.parse] rejects? *)
  metaFaults : list bool;      (* does the n-th coming write of [metadata.json] reject? *)
  metaFile : option MetaFile   (* [metadata.json], when it exists *)
}.

(** Code over the [World] run on a [Host]. *)
Definition in_world {A} (m : IO A) : M Host A :=
  fun h =>
    let (r, w) := m (host_world h) in
    (r, mkHost w (readFaults h) (metaFaults h) (metaFile h)).

(** A method over the [World] run on a [Host]. *)
Definition on_world {T A} (m : Meth T A) : M (T * Host) A :=
  fun s =>
    let (r, s') := m (fst s, host_world (snd s)) in
    (r, (fst s', mkHost (snd s') (readFaults (snd s)) (metaFaults (snd s))
                        (metaFile (snd s)))).

(** Code that only touches the environment, run inside a method. *)
Definition host_io {T A} (m : M Host A) : M (T * Host) A :=
  fun s =>
    let (r, h) := m (snd s) in (r, (fst s, h)).

Definition host_this {T} : M (T * Host) T := fun s => (Ok (fst s), s).

Definition host_set_this {T} (x : T) : M (T * Host) unit :=
  fun s => (Ok tt, (x, snd s)).

(** [JSON.parse(await fs.promises.readFile(path, "utf8"))]: the read
    rejects when the file is missing or unreadable, the parse throws when
    the text is malformed. *)
Definition read_json {A} (content : World -> option A) : M Host A :=
  fun h =>
    let h' := mkHost (host_world h) (tl (readFaults h)) (metaFaults h) (metaFile h) in
    if next_fault (readFaults h) then (Throw IoError, h')
    else match content (host_world h) with
         | Some c => (Ok c, h')
         | None => (Throw IoError, h')
         end.

(** [JSON.parse(await fs.promises.readFile(this.metadataPath, "utf8"))] *)
Definition read_metadata : M Host MetaFile :=
  fun h =>
    let h' := mkHost (host_world h) (tl (readFaults h)) (metaFaults h) (metaFile h) in
    if next_fault (readFaults h) then (Throw IoError, h')
    else match metaFile h with
         | Some c => (Ok c, h')
         | None => (Throw IoError, h')
         end.

(** [fs.promises.readdir(this.dataDir)], filtered to the names that start
    with [sstable_] and end with [.json].  The order in which [readdir]
    lists the files is the file system's; the model lists them in the order
    in which it keeps them, and nothing proved about recovery depends on
    that order. *)
Definition readdir_sstables : M Host (list Path) :=
  fun h =>
    let h' := mkHost (host_world h) (tl (readFaults h)) (metaFaults h) (metaFile h) in
    if next_fault (readFaults h) then (Throw IoError, h')
    else (Ok (map fst (segFiles (host_world h))), h').

(** [fs.promises.writeFile(this.metadataPath, JSON.stringify(metadata))] *)
Definition write_metadata (d : MetaFile) : M Host unit :=
  fun h =>
    if next_fault (metaFaults h)
    then (Throw IoError,
          mkHost (host_world h) (readFaults h) (tl (metaFaults h)) (metaFile h))
    else (Ok tt,
          mkHost (host_world h) (readFaults h) (tl (metaFaults h)) (Some d)).

(** ** class MemTable *)

Module MemTable.

Record t := mk {
  data : JsMap.t Entry;
  maxSize : Z
}.

(** [constructor(maxSize = 1000)] *)
Definition new (maxSize : Z) : t := mk JsMap.empty maxSize.

(** Numbers are integers here.  [Date.now() + ttl] is an addition of
    doubles, which is the addition of integers as long as the operands and
    the sum are safe integers (below [2 ^ 53] in absolute value); a
    statement that depends on the sum says so. *)
Definition put (key : Key) (value : option Payload) (ttl : option Z)
  : Meth t bool :=
  expiresAt <- match ttl with
               | Some n => if truthy (Some n)
                           then (now <- io Date_now ;; ret (Some (now + n)))
                           else ret None
               | None => ret None
               end ;;
  timestamp <- io Date_now ;;
  self <- this ;;
  let data' := JsMap.set key (mkEntry value expiresAt timestamp) (data self) in
  set_this (mk data' (maxSize self)) ;;
  ret (Z.of_nat (JsMap.size data') >=? maxSize self).

Definition get (key : Key) : Meth t (option Entry) :=
  self <- this ;;
  match JsMap.get key (data self) with
  | None => ret None
  | Some entry =>
      expired <- io (is_expired entry) ;;
      if expired
      then set_this (mk (JsMap.delete key (data self)) (maxSize self)) ;;
           ret None
      else ret (Some entry)
  end.

Definition delete (key : Key) : Meth t bool :=
  self <- this ;;
  set_this (mk (JsMap.delete key (data self)) (maxSize self)) ;;
  ret (match JsMap.get key (data self) with Some _ => true | None => false end).

(** The loop of [getAllEntries] over the entries of [this.data]. *)
Fixpoint getAllEntries_loop (es : list (Key * Entry)) (entries : list (Key * Entry))
  : Meth t (list (Key * Entry)) :=
  match es with
  | [] => ret entries
  | (key, entry) :: es' =>
      live <- io (is_live entry) ;;
      if live
      then getAllEntries_loop es' (entries ++ [(key, entry)])
      else self <- this ;;
           set_this (mk (JsMap.delete key (data self)) (maxSize self)) ;;
           getAllEntries_loop es' entries
  end.

Definition getAllEntries : Meth t (list (Key * Entry)) :=
  self <- this ;;
  getAllEntries_loop (JsMap.entries (data self)) [].

Definition size (self : t) : nat := JsMap.size (data self).

Definition clear : Meth t unit :=
  self <- this ;;
  set_this (mk JsMap.empty (maxSize self)).

Definition toJSON (self : t) : list (Key * Entry) := JsMap.entries (data self).

Definition fromJSON (d : list (Key * Entry)) : Meth t unit :=
  self <- this ;;
  set_this (mk (JsMap.of_pairs d) (maxSize self)).

End MemTable.

(** ** class SSTable *)

Module SSTable.

Record t := mk {
  data : JsMap.t Entry;
  createdAt : Z;
  filePath : option Path;
  id : SegId
}.

(** [constructor(data, filePath = null)], called with a [Map] *)
Definition new (d : JsMap.t Entry) (filePath : option Path) : IO t :=
  createdAt <- Date_now ;;
  now <- Date_now ;;
  rnd <- Math_random ;;
  ret (mk (JsMap.copy d) createdAt filePath (mkSegId now rnd)).

Definition get (key : Key) (self : t) : IO (option Entry) :=
  match JsMap.get key (data self) with
  | None => ret None
  | Some entry =>
      expired <- is_expired entry ;;
      if expired then ret None else ret (Some entry)
  end.

Fixpoint getAllEntries_loop (es : list (Key * Entry)) (entries : list (Key * Entry))
  : IO (list (Key * Entry)) :=
  match es with
  | [] => ret entries
  | (key, entry) :: es' =>
      live <- is_live entry ;;
      if live
      then getAllEntries_loop es' (entries ++ [(key, entry)])
      else getAllEntries_loop es' entries
  end.

Definition getAllEntries (self : t) : IO (list (Key * Entry)) :=
  getAllEntries_loop (JsMap.entries (data self)) [].

Definition size (self : t) : nat := JsMap.size (data self).

Definition saveToDisk : Meth t Path :=
  self <- this ;;
  let path := match filePath self with
              | Some p => p
              | None => SSTablePath (id self)
              end in
  set_this (mk (data self) (createdAt self) (Some path) (id self)) ;;
  io (write_segment path
        (mkSegFile (id self) (createdAt self) (JsMap.entries (data self)))) ;;
  ret path.

Definition deleteFromDisk (self : t) : IO unit :=
  match filePath self with
  | None => ret tt
  | Some p =>
      present <- existsSync p ;;
      if present then unlink p else ret tt
  end.

(** [constructor(data, filePath)], called with an array of pairs *)
Definition new_of_entries (d : list (Key * Entry)) (filePath : option Path) : IO t :=
  createdAt <- Date_now ;;
  now <- Date_now ;;
  rnd <- Math_random ;;
  ret (mk (JsMap.of_pairs d) createdAt filePath (mkSegId now rnd)).

(** [static async loadFromDisk(filePath)] *)
Definition loadFromDisk (filePath : Path) : M Host (option t) :=
  try_catch
    (data <- read_json (fun w => read_file filePath (segFiles w)) ;;
     ssTable <- in_world (new_of_entries (file_entries data) (Some filePath)) ;;
     ret (Some (mk (SSTable.data ssTable) (file_createdAt data)
                   (SSTable.filePath ssTable) (file_id data))))
    (fun error => ret None).

End SSTable.

(** ** class LSMTree *)

Module LSMTree.

Record t := mk {
  memTable : MemTable.t;
  ssTables : list SSTable.t;
  maxSSTables : Z;
  defaultTTL : Z
}.

(** [constructor(memTableMaxSize = 1000, maxSSTables = 10, dataDir)] on an
    empty data directory. *)
Definition new (memTableMaxSize maxSSTables : Z) : t :=
  mk (MemTable.new memTableMaxSize) [] maxSSTables 60000.

(** A call [this.memTable.m(...)]. *)
Definition on_memTable {A} (m : Meth MemTable.t A) : Meth t A :=
  fun s =>
    let self := fst s in
    let (r, s') := m (memTable self, snd s) in
    (r, (mk (fst s') (ssTables self) (maxSSTables self) (defaultTTL self), snd s')).

Definition set_ssTables (l : list SSTable.t) : Meth t unit :=
  self <- this ;;
  set_this (mk (memTable self) l (maxSSTables self) (defaultTTL self)).

Definition saveWAL : Meth t unit :=
  try_catch
    (timestamp <- io Date_now ;;
     self <- this ;;
     io (write_wal (mkWalFile timestamp (MemTable.toJSON (memTable self)))))
    (fun error => ret tt).

(** The inner loop of [compact] over the entries of one segment. *)
Fixpoint compact_entries (es : list (Key * Entry)) (mergedData : JsMap.t Entry)
  : IO (JsMap.t Entry) :=
  match es with
  | [] => ret mergedData
  | (key, entry) :: es' =>
      keep <- match value entry with
              | None => ret false
              | Some _ => is_live entry
              end ;;
      compact_entries es' (if keep then JsMap.set key entry mergedData else mergedData)
  end.

(** The outer loop of [compact] over the segments, oldest first. *)
Fixpoint compact_merge (l : list SSTable.t) (mergedData : JsMap.t Entry)
  : IO (JsMap.t Entry) :=
  match l with
  | [] => ret mergedData
  | ssTable :: l' =>
      mergedData' <- compact_entries (JsMap.entries (SSTable.data ssTable)) mergedData ;;
      compact_merge l' mergedData'
  end.

(** [for (const ssTable of this.ssTables) await ssTable.deleteFromDisk()] *)
Fixpoint compact_delete (l : list SSTable.t) : IO unit :=
  match l with
  | [] => ret tt
  | ssTable :: l' => SSTable.deleteFromDisk ssTable ;; compact_delete l'
  end.

Definition compact : Meth t unit :=
  self <- this ;;
  if (Z.of_nat (List.length (ssTables self)) <=? 1) then ret tt
  else
    mergedData <- io (compact_merge (ssTables self) JsMap.empty) ;;
    io (compact_delete (ssTables self)) ;;
    compactedSSTable <- io (SSTable.new mergedData None) ;;
    saved <- call_on compactedSSTable SSTable.saveToDisk ;;
    set_ssTables [snd saved].

Definition flush : Meth t unit :=
  self <- this ;;
  if (MemTable.size (memTable self) =? 0)%nat then ret tt
  else
    ssTable <- io (SSTable.new (MemTable.data (memTable self)) None) ;;
    saved <- call_on ssTable SSTable.saveToDisk ;;
    set_ssTables (ssTables self ++ [snd saved]) ;;
    on_memTable MemTable.clear ;;
    saveWAL ;;
    self <- this ;;
    if (Z.of_nat (List.length (ssTables self)) >? maxSSTables self)
    then compact
    else ret tt.

Definition put (key : Key) (value : option Payload) (ttl : TtlArg) : Meth t unit :=
  self <- this ;;
  let ttl := match ttl with
             | TtlOmitted => Some (defaultTTL self)
             | TtlNull => None
             | TtlNum ms => Some ms
             end in
  shouldFlush <- on_memTable (MemTable.put key value ttl) ;;
  saveWAL ;;
  if (shouldFlush : bool) then flush else ret tt.

(** The loop of [get] over the segments, newest first; [l] is the list of
    segments still to visit, in reverse. *)
Fixpoint get_loop (key : Key) (l : list SSTable.t) : IO (option Entry) :=
  match l with
  | [] => ret None
  | ssTable :: l' =>
      entry <- SSTable.get key ssTable ;;
      match entry with
      | Some e => ret (Some e)
      | None => get_loop key l'
      end
  end.

Definition get (key : Key) : Meth t (option Entry) :=
  entry <- on_memTable (MemTable.get key) ;;
  match entry with
  | Some e => ret (Some e)
  | None =>
      self <- this ;;
      io (get_loop key (rev (ssTables self)))
  end.

Definition delete (key : Key) : Meth t unit :=
  on_memTable (MemTable.put key None None) ;;
  saveWAL.

(** First loop of [getAllEntries]: the live entries of the segments,
    oldest segment first. *)
Fixpoint getAllEntries_segments (l : list SSTable.t)
    (allEntries : JsMap.t (Key * Entry)) : IO (JsMap.t (Key * Entry)) :=
  match l with
  | [] => ret allEntries
  | ssTable :: l' =>
      es <- SSTable.getAllEntries ssTable ;;
      getAllEntries_segments l'
        (fold_left (fun m entry => JsMap.set (fst entry) entry m) es allEntries)
  end.

(** Second loop of [getAllEntries]: the entries of the MemTable. *)
Definition getAllEntries_memTable (es : list (Key * Entry))
    (allEntries : JsMap.t (Key * Entry)) : JsMap.t (Key * Entry) :=
  fold_left
    (fun m entry =>
       match value (snd entry) with
       | Some _ => JsMap.set (fst entry) entry m
       | None => JsMap.delete (fst entry) m
       end)
    es allEntries.

Definition getAllEntries : Meth t (list (Key * Entry)) :=
  self <- this ;;
  allEntries <- io (getAllEntries_segments (ssTables self) JsMap.empty) ;;
  es <- on_memTable MemTable.getAllEntries ;;
  ret (JsMap.values (getAllEntries_memTable es allEntries)).

(** [this.ssTables.sort((a, b) => a.createdAt - b.createdAt)]: ascending in
    [createdAt]; the sort is stable, as insertion before the first segment
    that is not older is. *)
Fixpoint sort_insert (x : SSTable.t) (l : list SSTable.t) : list SSTable.t :=
  match l with
  | [] => [x]
  | y :: l' =>
      if SSTable.createdAt x <=? SSTable.createdAt y
      then x :: y :: l'
      else y :: sort_insert x l'
  end.

Definition sort_by_createdAt (l : list SSTable.t) : list SSTable.t :=
  fold_right sort_insert [] l.

(** The loop of [loadFromDisk] over the segment files. *)
Fixpoint loadFromDisk_loop (files : list Path) : M (t * Host) unit :=
  match files with
  | [] => ret tt
  | filePath :: files' =>
      ssTable <- host_io (SSTable.loadFromDisk filePath) ;;
      match ssTable with
      | Some seg =>
          self <- host_this ;;
          host_set_this (mk (memTable self) (ssTables self ++ [seg])
                            (maxSSTables self) (defaultTTL self))
      | None => ret tt
      end ;;
      loadFromDisk_loop files'
  end.

Definition loadFromDisk : M (t * Host) unit :=
  try_catch
    (self <- host_this ;;
     host <- host_io (fun h => (Ok h, h)) ;;
     match metaFile host with
     | Some _ =>
         metadata <- host_io read_metadata ;;
         host_set_this
           (mk (memTable self) (ssTables self) (maxSSTables self)
               (if truthy (Some (meta_defaultTTL metadata))
                then meta_defaultTTL metadata
                else defaultTTL self))
     | None => ret tt
     end ;;
     match walFile (host_world host) with
     | Some _ =>
         walData <- host_io (read_json walFile) ;;
         on_world (on_memTable (MemTable.fromJSON (wal_memTable walData)))
     | None => ret tt
     end ;;
     sstableFiles <- host_io readdir_sstables ;;
     loadFromDisk_loop sstableFiles ;;
     self <- host_this ;;
     host_set_this (mk (memTable self) (sort_by_createdAt (ssTables self))
                       (maxSSTables self) (defaultTTL self)))
    (fun error => ret tt).

(** [new LSMTree(memTableMaxSize, maxSSTables, dataDir)] on an existing data
    directory, with the recovery that the constructor starts run to its
    end. *)
Definition constructor (memTableMaxSize maxSSTables : Z) : M Host t :=
  fun h =>
    let (_, s) := loadFromDisk (new memTableMaxSize maxSSTables, h) in
    (Ok (fst s), snd s).

Definition saveMetadata : M (t * Host) unit :=
  try_catch
    (self <- host_this ;;
     lastUpdated <- host_io (in_world Date_now) ;;
     host_io (write_metadata (mkMetaFile (defaultTTL self) lastUpdated)))
    (fun error => ret tt).

Definition shutdown : M (t * Host) unit :=
  on_world flush ;;
  saveMetadata.

End LSMTree.

(** ** The HTTP routes (server/index.js)

    Each route handler, as a function from the parsed request to the
    response it sends, run on the one engine [cache] of the server. *)

Module Api.

(** [req.body.value]: absent, [null], or a payload. *)
Inductive JsValue :=
| JsUndefined
| JsNull
| JsPayload (p : Payload).

Inductive Body :=
| Entries (data : list (Key * Entry))    (* [{ success: true, data: entries }] *)
| EntryOf (key : Key) (entry : Entry)    (* [{ success: true, data: { key, ...entry } }] *)
| Message (message : string)             (* [{ success: true, message }] *)
| Failure (error : string)               (* [{ success: false, error }] with a fixed text *)
| FailureOf (error : Err).               (* [{ success: false, error: error.message }] *)

Record Response := mkResponse {
  status : Z;
  body : Body
}.

(** The value handed to [cache.put]; only called on a value that is not
    [undefined]. *)
Definition put_value (value : JsValue) : option Payload :=
  match value with
  | JsPayload p => Some p
  | JsNull | JsUndefined => None
  end.

(** [value === undefined] *)
Definition is_undefined (value : JsValue) : bool :=
  match value with
  | JsUndefined => true
  | JsNull | JsPayload _ => false
  end.

(** [!key] for a key that is a string, or no string and falsy ([None]). *)
Definition key_missing (key : option Key) : bool :=
  match key with
  | None => true
  | Some k => String.eqb k EmptyString
  end.

(** [req.body.key] as the JSON body delivers it, as far as the model of the
    engine reaches: a string, or one of the values that are no string and
    for which [!key] holds.  Every other value -- [true], a number other
    than [0], an array, an object -- passes the test of the route and is
    handed to [cache.put] as a key that is no string; the engine is
    modelled for string keys, so such a request is outside the model. *)
Inductive BodyKey :=
| KeyAbsent               (* no [key] in the body: [undefined] *)
| KeyNull                 (* [null] *)
| KeyFalse                (* [false] *)
| KeyZero                 (* [0] *)
| KeyString (k : Key).

(** [!key] *)
Definition not_key (key : BodyKey) : bool :=
  match key with
  | KeyAbsent | KeyNull | KeyFalse | KeyZero => true
  | KeyString k => String.eqb k EmptyString
  end.

(** The key as [post_cache] takes it. *)
Definition body_key (key : BodyKey) : option Key :=
  match key with
  | KeyString k => Some k
  | KeyAbsent | KeyNull | KeyFalse | KeyZero => None
  end.

(** [app.get("/api/cache", ...)] *)
Definition get_cache : Meth LSMTree.t Response :=
  try_catch
    (entries <- LSMTree.getAllEntries ;;
     ret (mkResponse 200 (Entries entries)))
    (fun error => ret (mkResponse 500 (FailureOf error))).

(** [app.get("/api/cache/:key", ...)] *)
Definition get_cache_key (key : Key) : Meth LSMTree.t Response :=
  try_catch
    (entry <- LSMTree.get key ;;
     match entry with
     | None => ret (mkResponse 404 (Failure "Key not found"))
     | Some e => ret (mkResponse 200 (EntryOf key e))
     end)
    (fun error => ret (mkResponse 500 (FailureOf error))).

(** [app.post("/api/cache", ...)] *)
Definition post_cache (key : option Key) (value : JsValue) (ttl : TtlArg)
  : Meth LSMTree.t Response :=
  try_catch
    (match key with
     | Some k =>
         if key_missing key || is_undefined value
         then ret (mkResponse 400 (Failure "Key and value are required"))
         else LSMTree.put k (put_value value) ttl ;;
              ret (mkResponse 200 (Message "Entry created/updated successfully"))
     | None => ret (mkResponse 400 (Failure "Key and value are required"))
     end)
    (fun error => ret (mkResponse 500 (FailureOf error))).

(** [app.put("/api/cache/:key", ...)] *)
Definition put_cache_key (key : Key) (value : JsValue) (ttl : TtlArg)
  : Meth LSMTree.t Response :=
  try_catch
    (if is_undefined value
     then ret (mkResponse 400 (Failure "Value is required"))
     else LSMTree.put key (put_value value) ttl ;;
          ret (mkResponse 200 (Message "Entry updated successfully")))
    (fun error => ret (mkResponse 500 (FailureOf error))).

(** [app.delete("/api/cache/:key", ...)] *)
Definition delete_cache_key (key : Key) : Meth LSMTree.t Response :=
  try_catch
    (LSMTree.delete key ;;
     ret (mkResponse 200 (Message "Entry deleted successfully")))
    (fun error => ret (mkResponse 500 (FailureOf error))).

End Api.

(** ** Running the engine *)

(** An engine together with its environment. *)
Definition Sys := (LSMTree.t * World)%type.

Definition tree (s : Sys) : LSMTree.t := fst s.
Definition world (s : Sys) : World := snd s.

(** A quiet world at time [now]: nothing on disk, no fault to come. *)
Definition calm (now : Z) (ticks : list N) : World :=
  mkWorld now ticks [] [] [] [] None [].

(** The same engine and disk at a later moment: the clock has moved on and
    the coming ticks and faults are arbitrary. *)
Definition later (w : World) (now : Z) (ticks : list N) (rands : list N)
    (wf sf uf : list bool) : World :=
  mkWorld now ticks rands wf sf uf (walFile w) (segFiles w).

(** Runs two calls one after the other, whatever the first one returns. *)
Definition and_then {S A B} (m : M S A) (k : M S B) : M S B :=
  fun s => k (snd (m s)).

(** ** Predicates used in the statements *)

(** [e] carries an expiry that has passed at time [now] (the test of the
    source, without the clock reading). *)
Definition expired_at (now : Z) (e : Entry) : bool :=
  match expiresAt e with
  | Some x => truthy (Some x) && (now >? x)
  | None => false
  end.

Definition is_tombstone (e : Entry) : bool :=
  match value e with
  | None => true
  | Some _ => false
  end.

(** No call of the supply rejects. *)
Definition no_fault (l : list bool) : Prop := Forall (fun b => b = false) l.

(** What [MemTable.put key] is about to return: is the table at capacity
    once [key] is in it? *)
Definition reports_full (key : Key) (mt : MemTable.t) : bool :=
  let n := match JsMap.get key (MemTable.data mt) with
           | Some _ => JsMap.size (MemTable.data mt)
           | None => S (JsMap.size (MemTable.data mt))
           end in
  Z.of_nat n >=? MemTable.maxSize mt.

(** The WAL on disk, when there is one, lists the entries of the MemTable. *)
Definition wal_matches (s : Sys) : Prop :=
  match walFile (world s) with
  | None => True
  | Some f => wal_memTable f = MemTable.toJSON (LSMTree.memTable (tree s))
  end.

(** The WAL is on disk and lists the entries of the MemTable. *)
Definition wal_current (s : Sys) : Prop :=
  exists f, walFile (world s) = Some f
            /\ wal_memTable f = MemTable.toJSON (LSMTree.memTable (tree s)).

(** Between [w] and [w'] only time has passed: the disk and the coming
    faults are the same and the clock has not gone back. *)
Record time_passes (w w' : World) : Prop := mkTimePasses {
  tp_clock : clock w <= clock w';
  tp_walFaults : walFaults w' = walFaults w;
  tp_segFaults : segFaults w' = segFaults w;
  tp_unlinkFaults : unlinkFaults w' = unlinkFaults w;
  tp_walFile : walFile w' = walFile w;
  tp_segFiles : segFiles w' = segFiles w
}.


(** The entry that [MemTable.put] stores. *)
Definition stored_entry (v : option Payload) (ttl : option Z) (w : World) : Entry :=
  if truthy ttl
  then mkEntry v (option_map (fun n => next_now w + n) ttl)
               (next_now (snd (Date_now w)))
  else mkEntry v None (next_now w).

(** What compaction retains: entries that are no tombstone and have not
    expired at time [t0]. *)
Definition retained (t0 : Z) (ke : Key * Entry) : Prop :=
  value (snd ke) <> None /\ expired_at t0 (snd ke) = false.

(** The segment as [saveToDisk] leaves it, and the file it writes. *)
Definition saved (seg : SSTable.t) : SSTable.t :=
  SSTable.mk (SSTable.data seg) (SSTable.createdAt seg)
             (Some (SSTablePath (SSTable.id seg))) (SSTable.id seg).

Definition file_of (seg : SSTable.t) : SegFile :=
  mkSegFile (SSTable.id seg) (SSTable.createdAt seg) (JsMap.entries (SSTable.data seg)).

(** The engine once [flush] has appended the segment and cleared the
    MemTable. *)
Definition flushed (t : LSMTree.t) (seg : SSTable.t) : LSMTree.t :=
  LSMTree.mk (MemTable.mk JsMap.empty (MemTable.maxSize (LSMTree.memTable t)))
             (LSMTree.ssTables t ++ [saved seg])
             (LSMTree.maxSSTables t) (LSMTree.defaultTTL t).

(** The engine once [key] is bound to [e] in the MemTable. *)
Definition inserted (key : Key) (e : Entry) (t : LSMTree.t) : LSMTree.t :=
  LSMTree.mk (MemTable.mk (JsMap.set key e (MemTable.data (LSMTree.memTable t)))
                          (MemTable.maxSize (LSMTree.memTable t)))
             (LSMTree.ssTables t) (LSMTree.maxSSTables t) (LSMTree.defaultTTL t).

(** The ttl that [LSMTree.put] hands to [MemTable.put]. *)
Definition resolve_ttl (ttl : TtlArg) (t : LSMTree.t) : option Z :=
  match ttl with
  | TtlOmitted => Some (LSMTree.defaultTTL t)
  | TtlNull => None
  | TtlNum ms => Some ms
  end.

(** The world once [MemTable.put] has read the clock. *)
Definition after_insert (key : Key) (v : option Payload) (ttl : option Z)
    (t : LSMTree.t) (w : World) : World :=
  snd (snd (MemTable.put key v ttl (LSMTree.memTable t, w))).

(** The world once [saveWAL] has run. *)
Definition after_saveWAL (t : LSMTree.t) (w : World) : World :=
  snd (snd (LSMTree.saveWAL (t, w))).

(** The engine once [key] is removed from the MemTable. *)
Definition evicted (key : Key) (t : LSMTree.t) : LSMTree.t :=
  LSMTree.mk (MemTable.mk (JsMap.delete key (MemTable.data (LSMTree.memTable t)))
                          (MemTable.maxSize (LSMTree.memTable t)))
             (LSMTree.ssTables t) (LSMTree.maxSSTables t) (LSMTree.defaultTTL t).

(** Every [Map] of the engine has pairwise distinct keys. *)
Definition wf_engine (t : LSMTree.t) : Prop :=
  JsMap.wf (MemTable.data (LSMTree.memTable t))
  /\ Forall (fun seg => JsMap.wf (SSTable.data seg)) (LSMTree.ssTables t).

(** The world once the expiry of [e] has been tested: the clock is read
    only when [e] carries a truthy [expiresAt]. *)
Definition read_if_expiring (e : Entry) (w : World) : World :=
  if truthy (expiresAt e) then snd (Date_now w) else w.

(** The segment list is within its bound: at most [maxSSTables] segments,
    or at most one when [maxSSTables] is smaller than one. *)
Definition segments_bounded (t : LSMTree.t) : Prop :=
  Z.of_nat (List.length (LSMTree.ssTables t)) <= Z.max 1 (LSMTree.maxSSTables t).

(** The MemTable is empty or below its capacity. *)
Definition memTable_below_capacity (t : LSMTree.t) : Prop :=
  MemTable.size (LSMTree.memTable t) = O
  \/ Z.of_nat (MemTable.size (LSMTree.memTable t))
     < MemTable.maxSize (LSMTree.memTable t).

(** No segment binds [key]. *)
Definition unbound_in_segments (key : Key) (l : list SSTable.t) : Prop :=
  forall seg, In seg l -> JsMap.get key (SSTable.data seg) = None.

(** The segment binds [key] to nothing or to a tombstone. *)
Definition deleted_in (key : Key) (seg : SSTable.t) : Prop :=
  match JsMap.get key (SSTable.data seg) with
  | None => True
  | Some e => value e = None
  end.

(** A test for distinct keys. *)
Fixpoint distinct_keys {V} (m : JsMap.t V) : bool :=
  match m with
  | [] => true
  | (k, _) :: m' =>
      match JsMap.get k m' with
      | Some _ => false
      | None => distinct_keys m'
      end
  end.

(** The same test for every [Map] of an engine. *)
Definition distinct_keys_engine (t : LSMTree.t) : bool :=
  distinct_keys (MemTable.data (LSMTree.memTable t))
  && forallb (fun seg => distinct_keys (SSTable.data seg)) (LSMTree.ssTables t).

(** What [getAllEntries] maintains of the map it accumulates: every entry
    is filed under its own key, had not expired at [t0], and comes from a
    segment of [l] or is a value of the MemTable entries [mem]. *)
Definition listing_ok (t0 : Z) (l : list SSTable.t) (mem : list (Key * Entry))
    (b : Key * (Key * Entry)) : Prop :=
  fst (snd b) = fst b
  /\ expired_at t0 (snd (snd b)) = false
  /\ ((exists seg, In seg l /\ In (snd b) (SSTable.data seg))
      \/ (In (snd b) mem /\ value (snd (snd b)) <> None)).

(** The segment that [SSTable.loadFromDisk] builds from the file [f] found
    at [p]. *)
Definition loaded (p : Path) (f : SegFile) : SSTable.t :=
  SSTable.mk (JsMap.of_pairs (file_entries f)) (file_createdAt f) (Some p) (file_id f).

(** Between [h] and [h'] only time has passed and reads were made. *)
Record only_reads (h h' : Host) : Prop := mkOnlyReads {
  or_world : time_passes (host_world h) (host_world h');
  or_metaFaults : metaFaults h' = metaFaults h;
  or_metaFile : metaFile h' = metaFile h
}.

(** Segments in ascending order of [createdAt]. *)
Definition ascending (l : list SSTable.t) : Prop :=
  StronglySorted (fun x y => SSTable.createdAt x <= SSTable.createdAt y) l.

(** The segments that the files [files] of the directory yield when every
    read succeeds. *)
Definition segments_of (w : World) (files : list Path) : list SSTable.t :=
  flat_map (fun p => match read_file p (segFiles w) with
                     | Some f => [loaded p f]
                     | None => []
                     end) files.

(** The status code of the response that a route handler sends. *)
Definition status_of {S} (x : Res Api.Response * S) : option Z :=
  match fst x with
  | Ok r => Some (Api.status r)
  | Throw _ => None
  end.

(** The safe integers of JavaScript ([Number.isSafeInteger]): a double
    holds each of them exactly, and the sum of two of them, when it is one
    of them, is the sum that the addition of doubles yields. *)
Definition safe_integer (z : Z) : Prop := - 2 ^ 53 < z < 2 ^ 53.

(** ** Concrete engines *)

Open Scope string_scope.
Open Scope list_scope.
Open Scope Z_scope.

(** A clock that advances by one millisecond at each of the next [n]
    readings. *)
Definition ticking (n : nat) : list N := repeat 1%N n.

(** A new engine on an empty data directory at time [1000]. *)
Definition fresh (memTableMaxSize maxSSTables : Z) : Sys :=
  (LSMTree.new memTableMaxSize maxSSTables, calm 1000 (ticking 40)).

(** The same engine in a world whose coming WAL write rejects. *)
Definition fresh_wal_rejects (memTableMaxSize maxSSTables : Z) : Sys :=
  (LSMTree.new memTableMaxSize maxSSTables,
   mkWorld 1000 (ticking 40) [] [true] [] [] None []).

(** The same engine in a world whose coming segment write rejects. *)
Definition fresh_segment_rejects (memTableMaxSize maxSSTables : Z) : Sys :=
  (LSMTree.new memTableMaxSize maxSSTables,
   mkWorld 1000 (ticking 40) [] [] [true] [] None []).

(** The state [s] some time later: the clock reads [now] and keeps ticking. *)
Definition at_time (now : Z) (s : Sys) : Sys :=
  (tree s, later (world s) now (ticking 40) [] [] [] []).

(** The state [s] at a moment when the coming segment write rejects. *)
Definition segment_write_rejects (s : Sys) : Sys :=
  (tree s, later (world s) (clock (world s)) (ticking 40) [] [] [true] []).

(** Two segments on disk: capacity one, so each [put] flushes. *)
Definition two_segments : Sys :=
  Eval vm_compute in
  snd (and_then (LSMTree.put "a" (Some "1") (TtlNum 60000))
                (LSMTree.put "b" (Some "2") (TtlNum 60000))
                (fresh 1 10)).

(** One entry in the MemTable, nothing on disk but the WAL. *)
Definition one_entry : Sys :=
  Eval vm_compute in
  snd (LSMTree.put "k1" (Some "v1") (TtlNum 60000) (fresh 4 2)).

(** ["k"] bound to ["old"] in a segment, without expiry, and an empty
    MemTable of capacity four. *)
Definition old_in_segment : Sys :=
  Eval vm_compute in
  snd (and_then (LSMTree.put "k" (Some "old") TtlNull) LSMTree.flush (fresh 4 10)).

(** ["k"] bound to ["old"] in a first segment and to ["new"] in a second
    one, both without expiry; the MemTable is empty. *)
Definition overwritten_in_segments : Sys :=
  Eval vm_compute in
  snd (and_then (LSMTree.put "k" (Some "old") TtlNull)
                (LSMTree.put "k" (Some "new") TtlNull)
                (fresh 1 10)).

(** [one_entry] at a moment when the coming segment write rejects. *)
Definition one_entry_segment_rejects : Sys :=
  Eval vm_compute in segment_write_rejects one_entry.

(** ["k"] bound to ["old"] in a first segment and to a tombstone in a
    second one: capacity two, [put("a")], [put("k")] (flush),
    [delete("k")], [put("b")] (flush). *)
Definition deleted_in_newer_segment : Sys :=
  Eval vm_compute in
  snd (and_then (LSMTree.put "a" (Some "1") TtlNull)
        (and_then (LSMTree.put "k" (Some "old") TtlNull)
          (and_then (LSMTree.delete "k")
                    (LSMTree.put "b" (Some "2") TtlNull)))
        (fresh 2 10)).

(** A segment binding ["k"] to ["old"], and a MemTable binding ["k"] to
    ["new"] without expiry and ["t"] to a value that expires at [1058]. *)
Definition shadowed_in_memTable : Sys :=
  Eval vm_compute in
  snd (and_then (LSMTree.put "k" (Some "old") TtlNull)
        (and_then LSMTree.flush
          (and_then (LSMTree.put "k" (Some "new") (TtlNum 0))
                    (LSMTree.put "t" (Some "x") (TtlNum 50))))
        (fresh 4 10)).

(** The data directory of [s] as a process that starts finds it: no
    metadata file, every read succeeds. *)
Definition found_by_restart (s : Sys) : Host := mkHost (world s) [] [] None.

(** The same directory when the first read rejects. *)
Definition found_unreadable (s : Sys) : Host := mkHost (world s) [true] [] None.

(** [s] with a metadata file and no fault to come. *)
Definition with_metadata (s : Sys) (m : MetaFile) : LSMTree.t * Host :=
  (tree s, mkHost (world s) [] [] (Some m)).

(** A segment that was never saved. *)
Definition unsaved_segment : SSTable.t :=
  SSTable.mk [("a", mkEntry (Some "1") None 5); ("b", mkEntry None (Some 90) 6)]
             7 None (mkSegId 7 3).

(** [one_entry] about to shut down, no fault to come. *)
Definition before_shutdown : LSMTree.t * Host :=
  (tree one_entry, mkHost (world one_entry) [] [] None).

(** [one_entry] about to shut down when the segment write will reject. *)
Definition before_failing_shutdown : LSMTree.t * Host :=
  (tree one_entry_segment_rejects, mkHost (world one_entry_segment_rejects) [] [] None).

(** A new engine of capacity one at a moment when the coming segment write
    rejects, with a clock that stands still. *)
Definition full_and_failing : Sys :=
  (LSMTree.new 1 10, mkWorld 1000 [] [] [] [true] [] None []).

(** The newest segment of [two_segments]. *)
Definition newest_of_two : SSTable.t :=
  Eval vm_compute in
  last (LSMTree.ssTables (tree two_segments)) unsaved_segment.

(** ["e"] bound in the MemTable to a value that expired at [1051], looked
    at when the clock reads [2000]; the WAL lists the MemTable. *)
Definition expiring_entry : Sys :=
  Eval vm_compute in
  at_time 2000 (snd (LSMTree.put "e" (Some "x") (TtlNum 50) (fresh 4 2))).

(** [expiring_entry] after [get("e")]: the MemTable is empty and the WAL
    still lists ["e"]. *)
Definition stale_wal : Sys :=
  Eval vm_compute in snd (LSMTree.get "e" expiring_entry).

(** ["e"], expired at [1051], and ["k"], without expiry, in the MemTable,
    looked at when the clock reads [2000]; the WAL lists both. *)
Definition two_entries_one_expiring : Sys :=
  Eval vm_compute in
  at_time 2000
    (snd (and_then (LSMTree.put "e" (Some "x") (TtlNum 50))
                   (LSMTree.put "k" (Some "v") TtlNull)
                   (fresh 4 2))).

(** [two_entries_one_expiring] after [get("e")]: the MemTable holds ["k"]
    and the WAL still lists ["e"] and ["k"]. *)
Definition stale_wal_one_left : Sys :=
  Eval vm_compute in snd (LSMTree.get "e" two_entries_one_expiring).

(** Two segments, as many as [maxSSTables] allows, and one entry in the
    MemTable: the coming flush compacts.  Capacity two: [put("a")],
    [put("b")] (flush), [put("c")], [put("d")] (flush), [put("e")]. *)
Definition about_to_compact : Sys :=
  Eval vm_compute in
  at_time 2000
    (snd (and_then (LSMTree.put "a" (Some "1") TtlNull)
           (and_then (LSMTree.put "b" (Some "2") TtlNull)
             (and_then (LSMTree.put "c" (Some "3") TtlNull)
               (and_then (LSMTree.put "d" (Some "4") TtlNull)
                         (LSMTree.put "e" (Some "5") TtlNull))))
           (fresh 2 2))).
(** ** Lemmas on [JsMap] *)

Unset Implicit Arguments.

Section JsMapFacts.
Variable V : Type.
Implicit Types (m : JsMap.t V) (k : Key) (v : V).

Lemma get_set_same k v m : JsMap.get k (JsMap.set k v m) = Some v.
Proof.
  induction m as [|[k' v'] m IH]; simpl.
  - now rewrite String.eqb_refl.
  - destruct (String.eqb k k') eqn:E; simpl; rewrite E; auto.
Qed.

Lemma get_set_other k k' v m :
  k <> k' -> JsMap.get k (JsMap.set k' v m) = JsMap.get k m.
Proof.
  intros Hne. induction m as [|[k2 v2] m IH]; simpl.
  - destruct (String.eqb k k') eqn:E; auto.
    apply String.eqb_eq in E. contradiction.
  - destruct (String.eqb k' k2) eqn:E; simpl.
    + apply String.eqb_eq in E. subst k2.
      destruct (String.eqb k k') eqn:E2; auto.
      apply String.eqb_eq in E2. contradiction.
    + now rewrite IH.
Qed.

Lemma get_delete_same k m : JsMap.get k (JsMap.delete k m) = None.
Proof.
  induction m as [|[k' v'] m IH]; simpl; auto.
  destruct (String.eqb k k') eqn:E; simpl; auto. now rewrite E.
Qed.

Lemma size_set k v m :
  JsMap.size (JsMap.set k v m) =
  match JsMap.get k m with
  | Some _ => JsMap.size m
  | None => S (JsMap.size m)
  end.
Proof.
  unfold JsMap.size.
  induction m as [|[k' v'] m IH]; simpl; auto.
  destruct (String.eqb k k'); simpl; auto.
  rewrite IH. now destruct (JsMap.get k m).
Qed.

Lemma size_set_pos k v m : JsMap.size (JsMap.set k v m) <> O.
Proof.
  unfold JsMap.size. destruct m as [|[k' v'] m]; simpl; try discriminate.
  destruct (String.eqb k k'); discriminate.
Qed.

Lemma set_fresh k v m :
  ~ In k (map fst m) -> JsMap.set k v m = m ++ [(k, v)].
Proof.
  induction m as [|[k' v'] m IH]; simpl; intros Hn; auto.
  destruct (String.eqb k k') eqn:E.
  - apply String.eqb_eq in E. subst. tauto.
  - rewrite IH; tauto.
Qed.

Lemma keys_set k v m :
  forall x, In x (map fst (JsMap.set k v m)) <-> x = k \/ In x (map fst m).
Proof.
  induction m as [|[k' v'] m IH]; simpl; intros x.
  - intuition.
  - destruct (String.eqb k k') eqn:E; simpl.
    + apply String.eqb_eq in E. subst. intuition.
    + rewrite IH. intuition.
Qed.

Lemma wf_set k v m : JsMap.wf m -> JsMap.wf (JsMap.set k v m).
Proof.
  unfold JsMap.wf.
  induction m as [|[k' v'] m IH]; simpl; intros Hwf.
  - constructor; [intros []|constructor].
  - inversion Hwf as [|? ? Hn Hnd]; subst.
    destruct (String.eqb k k') eqn:E; simpl.
    + constructor; auto.
    + constructor; auto.
      rewrite keys_set. intros [->|Hin]; auto.
      now rewrite String.eqb_refl in E.
Qed.

Lemma keys_delete k m :
  forall x, In x (map fst (JsMap.delete k m)) -> In x (map fst m).
Proof.
  induction m as [|[k' v'] m IH]; simpl; intros x; auto.
  destruct (String.eqb k k'); simpl; intuition.
Qed.

Lemma wf_delete k m : JsMap.wf m -> JsMap.wf (JsMap.delete k m).
Proof.
  unfold JsMap.wf.
  induction m as [|[k' v'] m IH]; simpl; intros Hwf; auto.
  inversion Hwf as [|? ? Hn Hnd]; subst.
  destruct (String.eqb k k'); simpl; auto.
  constructor; auto. intros Hin. apply Hn. eapply keys_delete; eauto.
Qed.

Lemma of_pairs_app (l : list (Key * V)) : forall acc : JsMap.t V,
  NoDup (map fst (acc ++ l)) ->
  fold_left (fun m kv => JsMap.set (fst kv) (snd kv) m) l acc = acc ++ l.
Proof.
  induction l as [|[k v] l IH]; intros acc Hnd; simpl.
  - now rewrite app_nil_r.
  - rewrite set_fresh.
    + rewrite IH; rewrite <- app_assoc; auto.
    + rewrite map_app in Hnd. simpl in Hnd.
      apply NoDup_remove_2 in Hnd. intros Hin. apply Hnd.
      apply in_or_app. now left.
Qed.

(** Building a [Map] from the entries of a [Map] copies it. *)
Lemma of_pairs_copy m : JsMap.wf m -> JsMap.of_pairs m = JsMap.copy m.
Proof.
  intros Hwf. unfold JsMap.of_pairs, JsMap.copy, JsMap.empty.
  now rewrite of_pairs_app.
Qed.

Lemma get_In k v m : JsMap.get k m = Some v -> In (k, v) m.
Proof.
  induction m as [|[k' v'] m IH]; simpl; try discriminate.
  destruct (String.eqb k k') eqn:E; intros H.
  - apply String.eqb_eq in E. inversion H. subst. now left.
  - right. auto.
Qed.

Lemma get_not_In k m : ~ In k (map fst m) -> JsMap.get k m = None.
Proof.
  induction m as [|[k' v'] m IH]; simpl; intros Hn; auto.
  destruct (String.eqb k k') eqn:E.
  - apply String.eqb_eq in E. subst. tauto.
  - apply IH. tauto.
Qed.

Lemma In_set (P : Key * V -> Prop) k v m :
  P (k, v) -> Forall P m -> Forall P (JsMap.set k v m).
Proof.
  intros Hp. induction m as [|[k' v'] m IH]; simpl; intros Hm.
  - constructor; auto.
  - inversion Hm; subst.
    destruct (String.eqb k k') eqn:E.
    + apply String.eqb_eq in E. subst. constructor; auto.
    + constructor; auto.
Qed.
End JsMapFacts.

(** ** Lemmas on the environment *)

Lemma time_passes_refl w : time_passes w w.
Proof. constructor; auto; lia. Qed.

Lemma time_passes_trans w1 w2 w3 :
  time_passes w1 w2 -> time_passes w2 w3 -> time_passes w1 w3.
Proof.
  intros [] []. constructor; try congruence; lia.
Qed.

Lemma next_now_ge w : clock w <= next_now w.
Proof. unfold next_now. lia. Qed.

Lemma Date_now_spec w :
  exists w', Date_now w = (Ok (clock w'), w') /\ time_passes w w'
             /\ clock w' = next_now w.
Proof.
  exists (snd (Date_now w)). split; [reflexivity|]. split; [|reflexivity].
  constructor; simpl; auto. apply next_now_ge.
Qed.

Lemma is_live_spec e w :
  exists b w',
    is_live e w = (Ok b, w') /\ time_passes w w'
    /\ (b = true -> forall t, t <= clock w -> expired_at t e = false).
Proof.
  unfold is_live, expired_at.
  destruct (expiresAt e) as [x|].
  - destruct (truthy (Some x)) eqn:Ht.
    + destruct (Date_now_spec w) as (w' & Hn & Htp & _).
      exists (clock w' <=? x), w'. unfold bind. rewrite Hn. simpl.
      split; [reflexivity|]. split; [assumption|].
      intros Hle t Hlt. apply Z.leb_le in Hle.
      destruct Htp. simpl. rewrite Z.gtb_ltb. apply Z.ltb_ge. lia.
    + exists true, w. split; [reflexivity|]. split; [apply time_passes_refl|].
      intros _ t _. reflexivity.
  - exists true, w. split; [reflexivity|]. split; [apply time_passes_refl|].
    intros _ t _. reflexivity.
Qed.

Lemma is_expired_never e w :
  expiresAt e = None -> is_expired e w = (Ok false, w).
Proof. unfold is_expired. now intros ->. Qed.

Lemma is_live_never e w :
  expiresAt e = None -> is_live e w = (Ok true, w).
Proof. unfold is_live. now intros ->. Qed.

Lemma is_expired_spec e w :
  exists b w', is_expired e w = (Ok b, w') /\ time_passes w w'.
Proof.
  unfold is_expired.
  destruct (expiresAt e) as [x|].
  - destruct (truthy (Some x)).
    + destruct (Date_now_spec w) as (w' & Hn & Htp & _).
      exists (clock w' >? x), w'. unfold bind. now rewrite Hn.
    + exists false, w. auto using time_passes_refl.
  - exists false, w. auto using time_passes_refl.
Qed.

Lemma Path_eqb_eq p q : Path_eqb p q = true <-> p = q.
Proof.
  destruct p as [[t1 r1]], q as [[t2 r2]]. unfold Path_eqb, SegId_eqb. simpl.
  rewrite andb_true_iff, Z.eqb_eq, N.eqb_eq.
  split; [intros [-> ->]; auto | intros H; inversion H; auto].
Qed.

Lemma Path_eqb_refl p : Path_eqb p p = true.
Proof. now apply Path_eqb_eq. Qed.

Lemma file_exists_remove_same p fs : file_exists p (remove_file p fs) = false.
Proof.
  induction fs as [|[q c] fs IH]; simpl; auto.
  destruct (Path_eqb p q) eqn:E; simpl; auto. now rewrite E.
Qed.

Lemma file_exists_remove p q fs :
  file_exists q (remove_file p fs) = true -> file_exists q fs = true.
Proof.
  induction fs as [|[r c] fs IH]; simpl; auto.
  destruct (Path_eqb p r) eqn:E; simpl.
  - intros H. rewrite (IH H). apply orb_true_r.
  - destruct (Path_eqb q r); simpl; auto.
Qed.

Lemma file_exists_false_remove p q fs :
  file_exists q fs = false -> file_exists q (remove_file p fs) = false.
Proof.
  intros H. destruct (file_exists q (remove_file p fs)) eqn:E; auto.
  apply file_exists_remove in E. congruence.
Qed.

Lemma read_file_written p d fs : read_file p ((p, d) :: fs) = Some d.
Proof. simpl. now rewrite Path_eqb_refl. Qed.

Lemma no_fault_next l : no_fault l -> next_fault l = false.
Proof. destruct 1; simpl; auto. Qed.

Lemma no_fault_tl l : no_fault l -> no_fault (tl l).
Proof. destruct 1; simpl; auto. constructor. Qed.

(** ** Lemmas on the engine *)

Ltac splits := repeat match goal with |- _ /\ _ => split end.

(** Reduces the projections of pairs and of the engine's records. *)
Ltac projs :=
  cbn [fst snd LSMTree.memTable LSMTree.ssTables LSMTree.maxSSTables
       LSMTree.defaultTTL MemTable.data MemTable.maxSize].

(** [saveWAL] never throws and never touches the engine. *)
Lemma saveWAL_spec t w :
  exists w',
    LSMTree.saveWAL (t, w) = (Ok tt, (t, w'))
    /\ clock w <= clock w'
    /\ segFaults w' = segFaults w
    /\ unlinkFaults w' = unlinkFaults w
    /\ segFiles w' = segFiles w
    /\ walFaults w' = tl (walFaults w)
    /\ walFile w' =
       if next_fault (walFaults w) then walFile w
       else Some (mkWalFile (next_now w) (MemTable.toJSON (LSMTree.memTable t))).
Proof.
  unfold LSMTree.saveWAL, try_catch, bind, io, this, write_wal, Date_now, ret.
  simpl. destruct (next_fault (walFaults w)); simpl;
    eexists; (split; [reflexivity|]); simpl;
    repeat split; auto using next_now_ge.
Qed.

Lemma MemTable_put_spec key v ttl mt w :
  exists w',
    MemTable.put key v ttl (mt, w) =
      (Ok (reports_full key mt),
       (MemTable.mk (JsMap.set key (stored_entry v ttl w) (MemTable.data mt))
                    (MemTable.maxSize mt), w'))
    /\ time_passes w w'.
Proof.
  unfold MemTable.put, stored_entry, reports_full, bind, io, this, set_this, ret.
  destruct ttl as [n|]; simpl.
  - destruct (negb (n =? 0)); simpl; rewrite size_set; eexists;
      (split; [reflexivity|]); constructor; simpl; auto;
      unfold next_now; simpl; lia.
  - rewrite size_set. eexists. split; [reflexivity|].
    constructor; simpl; auto. apply next_now_ge.
Qed.

Lemma compact_entries_spec es : forall acc w,
  exists m w',
    LSMTree.compact_entries es acc w = (Ok m, w') /\ time_passes w w'
    /\ (forall t0, t0 <= clock w -> Forall (retained t0) acc -> Forall (retained t0) m).
Proof.
  induction es as [|[k e] es IH]; intros acc w; simpl.
  - exists acc, w. split; [reflexivity|]. split; [apply time_passes_refl|auto].
  - unfold bind. destruct (value e) as [p|] eqn:Hv.
    + destruct (is_live_spec e w) as (b & w1 & Hl & Htp & Hb). rewrite Hl.
      destruct (IH (if b then JsMap.set k e acc else acc) w1)
        as (m & w' & Hc & Htp' & Hall).
      exists m, w'. split; [exact Hc|]. split; [eapply time_passes_trans; eauto|].
      intros t0 Ht0 Hacc. apply Hall; [destruct Htp; lia|].
      destruct b; auto. apply In_set; auto.
      split; simpl; [congruence|auto].
    + unfold ret at 1. simpl. apply IH.
Qed.

Lemma compact_merge_spec l : forall acc w,
  exists m w',
    LSMTree.compact_merge l acc w = (Ok m, w') /\ time_passes w w'
    /\ (forall t0, t0 <= clock w -> Forall (retained t0) acc -> Forall (retained t0) m).
Proof.
  induction l as [|s l IH]; intros acc w; simpl.
  - exists acc, w. split; [reflexivity|]. split; [apply time_passes_refl|auto].
  - unfold bind.
    destruct (compact_entries_spec (JsMap.entries (SSTable.data s)) acc w)
      as (m1 & w1 & H1 & Htp1 & Hall1). rewrite H1.
    destruct (IH m1 w1) as (m & w' & H2 & Htp2 & Hall2).
    exists m, w'. split; [exact H2|]. split; [eapply time_passes_trans; eauto|].
    intros t0 Ht0 Hacc. apply Hall2; [destruct Htp1; lia|auto].
Qed.

Lemma compact_merge_app l1 l2 acc w :
  LSMTree.compact_merge (l1 ++ l2) acc w =
  bind (LSMTree.compact_merge l1 acc) (LSMTree.compact_merge l2) w.
Proof.
  revert acc w. induction l1 as [|s l1 IH]; intros acc w; simpl.
  - reflexivity.
  - unfold bind in *.
    destruct (LSMTree.compact_entries (JsMap.entries (SSTable.data s)) acc w)
      as [[m1|e] w1]; auto.
Qed.

(** Entries under other keys leave the merged entry of [k] alone. *)
Lemma compact_entries_get_other k es : forall acc w m w',
  ~ In k (map fst es) ->
  LSMTree.compact_entries es acc w = (Ok m, w') ->
  JsMap.get k m = JsMap.get k acc.
Proof.
  induction es as [|[k' e] es IH]; intros acc w m w' Hn; simpl.
  - unfold ret. intros H. inversion H. reflexivity.
  - simpl in Hn. unfold bind.
    match goal with
    | |- context [let (_, _) := ?x in _] => destruct x as [[b|err] w1]
    end; [|intros ?; discriminate].
    intros H. rewrite (IH _ _ _ _ (fun Hin => Hn (or_intror Hin)) H).
    destruct b; auto. apply get_set_other. intros ->. apply Hn. now left.
Qed.

(** A live entry of the segment ends up in the merged data. *)
Lemma compact_entries_get k e es : forall acc w m w',
  JsMap.wf es -> In (k, e) es -> value e <> None -> expiresAt e = None ->
  LSMTree.compact_entries es acc w = (Ok m, w') ->
  JsMap.get k m = Some e.
Proof.
  induction es as [|[k' e'] es IH]; intros acc w m w' Hwf Hin Hv Hx; simpl.
  - destruct Hin.
  - inversion Hwf as [|? ? Hnk Hnd]; subst. destruct Hin as [Heq|Hin].
    + inversion Heq; subst. unfold bind.
      destruct (value e) as [p|] eqn:Hve; [|congruence].
      rewrite is_live_never by assumption.
      intros H. rewrite (compact_entries_get_other _ _ _ _ _ _ Hnk H).
      apply get_set_same.
    + unfold bind.
      match goal with
      | |- context [let (_, _) := ?x in _] => destruct x as [[b|err] w1]
      end; [|intros ?; discriminate].
      apply IH; auto.
Qed.

Lemma SSTable_new_spec d w :
  exists i w',
    SSTable.new d None w = (Ok (SSTable.mk d (next_now w) None i), w')
    /\ time_passes w w'.
Proof.
  unfold SSTable.new, bind, Date_now, Math_random, ret, JsMap.copy. simpl.
  eexists. eexists. split; [reflexivity|].
  constructor; simpl; auto. unfold next_now. simpl. lia.
Qed.

Lemma saveToDisk_unfold (T : Type) (x : T) seg w :
  SSTable.filePath seg = None ->
  call_on seg SSTable.saveToDisk (x, w) =
  match write_segment (SSTablePath (SSTable.id seg)) (file_of seg) w with
  | (Ok _, w') => (Ok (SSTablePath (SSTable.id seg), saved seg), (x, w'))
  | (Throw e, w') => (Throw e, (x, w'))
  end.
Proof.
  intros Hp. unfold call_on, SSTable.saveToDisk, bind, this, set_this, io, ret.
  simpl. rewrite Hp. unfold file_of.
  destruct (write_segment _ _ w) as [[u|e] w']; reflexivity.
Qed.

Lemma compact_unfold t w :
  (Z.of_nat (List.length (LSMTree.ssTables t)) <=? 1) = false ->
  LSMTree.compact (t, w) =
  match LSMTree.compact_merge (LSMTree.ssTables t) JsMap.empty w with
  | (Ok m, w1) =>
      match LSMTree.compact_delete (LSMTree.ssTables t) w1 with
      | (Ok _, w2) =>
          match SSTable.new m None w2 with
          | (Ok seg, w3) =>
              match write_segment (SSTablePath (SSTable.id seg)) (file_of seg) w3 with
              | (Ok _, w4) =>
                  (Ok tt, (LSMTree.mk (LSMTree.memTable t) [saved seg]
                                      (LSMTree.maxSSTables t) (LSMTree.defaultTTL t), w4))
              | (Throw e, w4) => (Throw e, (t, w4))
              end
          | (Throw e, w3) => (Throw e, (t, w3))
          end
      | (Throw e, w2) => (Throw e, (t, w2))
      end
  | (Throw e, w1) => (Throw e, (t, w1))
  end.
Proof.
  intros Hlen. destruct t as [mt ss mx dt]. cbn [LSMTree.ssTables] in *.
  unfold LSMTree.compact, LSMTree.set_ssTables, bind, this, set_this, io, ret.
  cbn [fst snd LSMTree.ssTables LSMTree.memTable LSMTree.maxSSTables
       LSMTree.defaultTTL].
  rewrite Hlen. cbn [fst snd].
  destruct (LSMTree.compact_merge ss JsMap.empty w) as [[m|e] w1]; [|reflexivity].
  cbn [fst snd].
  destruct (LSMTree.compact_delete ss w1) as [[u|e] w2]; [|reflexivity].
  cbn [fst snd].
  destruct (SSTable_new_spec m w2) as (i & w3 & Hnew & _). rewrite Hnew.
  pose proof (saveToDisk_unfold _
    (LSMTree.mk mt ss mx dt) (SSTable.mk m (next_now w2) None i) w3 eq_refl) as Hs.
  unfold call_on in *. cbn [fst snd] in *.
  destruct (write_segment _ _ w3) as [[u'|e] w4];
    destruct (SSTable.saveToDisk _) as [[a|e'] [x' w5]];
    cbn [fst snd LSMTree.memTable LSMTree.maxSSTables LSMTree.defaultTTL]; congruence.
Qed.

Lemma saveWAL_run t w :
  LSMTree.saveWAL (t, w) = (Ok tt, (t, after_saveWAL t w)).
Proof.
  unfold after_saveWAL.
  destruct (saveWAL_spec t w) as (w' & H & _). now rewrite H.
Qed.

Lemma flush_empty t w :
  MemTable.size (LSMTree.memTable t) = O -> LSMTree.flush (t, w) = (Ok tt, (t, w)).
Proof.
  intros H. unfold LSMTree.flush, bind, this. cbn [fst snd]. now rewrite H.
Qed.

Lemma flush_unfold t w :
  MemTable.size (LSMTree.memTable t) <> O ->
  LSMTree.flush (t, w) =
  match SSTable.new (MemTable.data (LSMTree.memTable t)) None w with
  | (Ok seg, w1) =>
      match write_segment (SSTablePath (SSTable.id seg)) (file_of seg) w1 with
      | (Ok _, w2) =>
          let t2 := flushed t seg in
          let w3 := after_saveWAL t2 w2 in
          if Z.of_nat (List.length (LSMTree.ssTables t2)) >? LSMTree.maxSSTables t2
          then LSMTree.compact (t2, w3)
          else (Ok tt, (t2, w3))
      | (Throw e, w2) => (Throw e, (t, w2))
      end
  | (Throw e, w1) => (Throw e, (t, w1))
  end.
Proof.
  intros Hsz. apply Nat.eqb_neq in Hsz.
  destruct t as [mt ss mx dt].
  cbn [LSMTree.memTable LSMTree.ssTables LSMTree.maxSSTables LSMTree.defaultTTL] in *.
  unfold LSMTree.flush. unfold bind at 1. unfold this at 1.
  cbn [fst snd LSMTree.memTable]. rewrite Hsz.
  unfold bind at 1. unfold io at 1. cbn [fst snd].
  destruct (SSTable_new_spec (MemTable.data mt) w) as (i & w1 & Hnew & _).
  rewrite Hnew. unfold bind at 1.
  rewrite saveToDisk_unfold by reflexivity.
  destruct (write_segment _ _ w1) as [[u|e] w2]; [|reflexivity].
  unfold LSMTree.set_ssTables, LSMTree.on_memTable, MemTable.clear,
    bind, this, set_this, ret.
  cbn [fst snd LSMTree.memTable LSMTree.ssTables LSMTree.maxSSTables
       LSMTree.defaultTTL].
  rewrite saveWAL_run. unfold flushed.
  cbn [fst snd LSMTree.memTable LSMTree.ssTables LSMTree.maxSSTables
       LSMTree.defaultTTL].
  match goal with |- context [?a >? ?b] => destruct (a >? b) end; reflexivity.
Qed.

Lemma put_unfold key v ttl t w :
  LSMTree.put key v ttl (t, w) =
  let ttl' := resolve_ttl ttl t in
  let t1 := inserted key (stored_entry v ttl' w) t in
  let w2 := after_saveWAL t1 (after_insert key v ttl' t w) in
  if reports_full key (LSMTree.memTable t)
  then LSMTree.flush (t1, w2)
  else (Ok tt, (t1, w2)).
Proof.
  destruct t as [mt ss mx dt].
  unfold LSMTree.put, after_insert, inserted, resolve_ttl.
  unfold bind at 1. unfold this at 1.
  cbn [fst snd LSMTree.memTable LSMTree.ssTables LSMTree.maxSSTables
       LSMTree.defaultTTL].
  unfold bind at 1. unfold LSMTree.on_memTable at 1.
  cbn [fst snd LSMTree.memTable LSMTree.ssTables LSMTree.maxSSTables
       LSMTree.defaultTTL].
  match goal with
  | |- context [MemTable.put key v ?o (mt, w)] =>
      destruct (MemTable_put_spec key v o mt w) as (w1 & Hp & _); rewrite Hp
  end.
  cbn [fst snd]. unfold bind at 1. rewrite saveWAL_run.
  destruct (reports_full key mt); reflexivity.
Qed.

Lemma delete_unfold key t w :
  LSMTree.delete key (t, w) =
  (Ok tt, (inserted key (stored_entry None None w) t,
           after_saveWAL (inserted key (stored_entry None None w) t)
                         (after_insert key None None t w))).
Proof.
  destruct t as [mt ss mx dt].
  unfold LSMTree.delete, after_insert, inserted.
  unfold bind at 1. unfold LSMTree.on_memTable at 1.
  cbn [fst snd LSMTree.memTable LSMTree.ssTables LSMTree.maxSSTables
       LSMTree.defaultTTL].
  destruct (MemTable_put_spec key None None mt w) as (w1 & Hp & _). rewrite Hp.
  cbn [fst snd]. now rewrite saveWAL_run.
Qed.

Lemma after_insert_time key v ttl t w :
  time_passes w (after_insert key v ttl t w).
Proof.
  unfold after_insert.
  destruct (MemTable_put_spec key v ttl (LSMTree.memTable t) w) as (w' & H & Htp).
  now rewrite H.
Qed.

Lemma after_saveWAL_spec t w :
  clock w <= clock (after_saveWAL t w)
  /\ segFaults (after_saveWAL t w) = segFaults w
  /\ unlinkFaults (after_saveWAL t w) = unlinkFaults w
  /\ segFiles (after_saveWAL t w) = segFiles w
  /\ walFaults (after_saveWAL t w) = tl (walFaults w)
  /\ walFile (after_saveWAL t w) =
     if next_fault (walFaults w) then walFile w
     else Some (mkWalFile (next_now w) (MemTable.toJSON (LSMTree.memTable t))).
Proof.
  unfold after_saveWAL.
  destruct (saveWAL_spec t w) as (w' & H & Hrest). now rewrite H.
Qed.

Lemma deleteFromDisk_spec seg w :
  exists r w',
    SSTable.deleteFromDisk seg w = (r, w')
    /\ clock w' = clock w /\ walFile w' = walFile w
    /\ walFaults w' = walFaults w /\ segFaults w' = segFaults w
    /\ (forall q, file_exists q (segFiles w') = true -> file_exists q (segFiles w) = true)
    /\ (no_fault (unlinkFaults w) ->
        r = Ok tt /\ no_fault (unlinkFaults w')
        /\ forall p, SSTable.filePath seg = Some p -> file_exists p (segFiles w') = false).
Proof.
  unfold SSTable.deleteFromDisk.
  destruct (SSTable.filePath seg) as [p|].
  - unfold bind, existsSync, unlink, ret.
    destruct (file_exists p (segFiles w)) eqn:Hex.
    + destruct (next_fault (unlinkFaults w)) eqn:Hf.
      * eexists. eexists. split; [reflexivity|]. simpl.
        splits; auto; intros Hnf; apply no_fault_next in Hnf; congruence.
      * eexists. eexists. split; [reflexivity|]. simpl.
        splits; auto.
        -- intros q. apply file_exists_remove.
        -- intros Hnf. splits; auto using no_fault_tl.
           intros q Hq. inversion Hq. subst. apply file_exists_remove_same.
    + exists (Ok tt), w. splits; auto.
      intros Hnf. splits; auto. intros q Hq. inversion Hq. now subst.
  - exists (Ok tt), w. splits; auto.
    intros Hnf. splits; auto. discriminate.
Qed.

Lemma compact_delete_spec l : forall w,
  exists r w',
    LSMTree.compact_delete l w = (r, w')
    /\ clock w' = clock w /\ walFile w' = walFile w
    /\ walFaults w' = walFaults w /\ segFaults w' = segFaults w
    /\ (forall q, file_exists q (segFiles w') = true -> file_exists q (segFiles w) = true)
    /\ (no_fault (unlinkFaults w) ->
        r = Ok tt /\ no_fault (unlinkFaults w')
        /\ forall seg p, In seg l -> SSTable.filePath seg = Some p ->
                         file_exists p (segFiles w') = false).
Proof.
  induction l as [|seg l IH]; intros w; simpl.
  - exists (Ok tt), w. splits; auto.
    intros Hnf. splits; auto. intros seg p [].
  - unfold bind.
    destruct (deleteFromDisk_spec seg w)
      as (r1 & w1 & H1 & Hc1 & Hwf1 & Hwa1 & Hsf1 & Hsub1 & Hok1).
    rewrite H1. destruct r1 as [u|e].
    + destruct (IH w1) as (r & w' & H2 & Hc2 & Hwf2 & Hwa2 & Hsf2 & Hsub2 & Hok2).
      exists r, w'. split; [exact H2|].
      split; [congruence|]. split; [congruence|]. split; [congruence|].
      split; [congruence|]. split; [auto|].
      intros Hnf. destruct (Hok1 Hnf) as (_ & Hnf1 & Hgone1).
      destruct (Hok2 Hnf1) as (Hr & Hnf2 & Hgone2).
      split; [exact Hr|]. split; [exact Hnf2|].
      intros s p [<-|Hin] Hp; [|eauto].
      destruct (file_exists p (segFiles w')) eqn:E; auto.
      apply Hsub2 in E. rewrite (Hgone1 p Hp) in E. discriminate.
    + exists (Throw e), w1. split; [reflexivity|].
      splits; auto; intros Hnf; destruct (Hok1 Hnf) as (Hr & _); discriminate.
Qed.

Lemma write_segment_spec p d w :
  exists w',
    write_segment p d w = ((if next_fault (segFaults w) then Throw IoError else Ok tt), w')
    /\ clock w' = clock w /\ walFile w' = walFile w /\ walFaults w' = walFaults w
    /\ unlinkFaults w' = unlinkFaults w
    /\ segFaults w' = tl (segFaults w)
    /\ segFiles w' =
       if next_fault (segFaults w) then segFiles w
       else (p, d) :: remove_file p (segFiles w).
Proof.
  unfold write_segment. destruct (next_fault (segFaults w));
    eexists; (split; [reflexivity|]); simpl; splits; auto.
Qed.

Lemma compact_small t w :
  (Z.of_nat (List.length (LSMTree.ssTables t)) <=? 1) = true ->
  LSMTree.compact (t, w) = (Ok tt, (t, w)).
Proof.
  intros H. unfold LSMTree.compact, bind, this. cbn [fst snd]. now rewrite H.
Qed.

(** Whatever happens, [compact] leaves the MemTable, the configuration and
    the WAL alone; when it throws, the list of segments is the one it
    started from. *)
Lemma compact_frame t w :
  let r := fst (LSMTree.compact (t, w)) in
  let t' := fst (snd (LSMTree.compact (t, w))) in
  let w' := snd (snd (LSMTree.compact (t, w))) in
  LSMTree.memTable t' = LSMTree.memTable t
  /\ LSMTree.maxSSTables t' = LSMTree.maxSSTables t
  /\ LSMTree.defaultTTL t' = LSMTree.defaultTTL t
  /\ walFile w' = walFile w
  /\ walFaults w' = walFaults w
  /\ clock w <= clock w'
  /\ (forall e, r = Throw e -> e = IoError /\ t' = t).
Proof.
  destruct (Z.of_nat (List.length (LSMTree.ssTables t)) <=? 1) eqn:Hlen.
  - rewrite compact_small by assumption. simpl. splits; auto; try lia.
    intros e He. discriminate.
  - rewrite compact_unfold by assumption.
    destruct (compact_merge_spec (LSMTree.ssTables t) JsMap.empty w)
      as (m & w1 & Hm & Htp & _). rewrite Hm. destruct Htp.
    destruct (compact_delete_spec (LSMTree.ssTables t) w1)
      as (r2 & w2 & Hd & Hc2 & Hwf2 & Hwa2 & _). rewrite Hd.
    destruct r2 as [u|e2].
    + destruct (SSTable_new_spec m w2) as (i & w3 & Hn & Htp3). rewrite Hn.
      destruct Htp3.
      destruct (write_segment_spec (SSTablePath i)
                  (file_of (SSTable.mk m (next_now w2) None i)) w3)
        as (w4 & Hw & Hc4 & Hwf4 & Hwa4 & _).
      cbn [SSTable.id]. rewrite Hw.
      destruct (next_fault (segFaults w3)); cbn [fst snd];
        (splits; [reflexivity|reflexivity|reflexivity|congruence|congruence|lia|]).
      * intros e He. destruct e. auto.
      * intros e He. discriminate.
    + cbn [fst snd]. splits; try reflexivity; try congruence; try lia.
      intros e He. destruct e. auto.
Qed.

(** A compaction of several segments that returns has built its single
    segment from the merge and has written it to disk. *)
Lemma compact_ok t w :
  (Z.of_nat (List.length (LSMTree.ssTables t)) <=? 1) = false ->
  fst (LSMTree.compact (t, w)) = Ok tt ->
  exists seg w1,
    LSMTree.ssTables (fst (snd (LSMTree.compact (t, w)))) = [seg]
    /\ LSMTree.compact_merge (LSMTree.ssTables t) JsMap.empty w
       = (Ok (SSTable.data seg), w1)
    /\ Forall (retained (clock w)) (SSTable.data seg)
    /\ exists p, SSTable.filePath seg = Some p
       /\ read_file p (segFiles (snd (snd (LSMTree.compact (t, w)))))
          = Some (file_of seg).
Proof.
  intros Hlen. rewrite compact_unfold by assumption.
  destruct (compact_merge_spec (LSMTree.ssTables t) JsMap.empty w)
    as (m & w1 & Hm & Htp & Hall). rewrite Hm.
  destruct (LSMTree.compact_delete (LSMTree.ssTables t) w1) as [[u|e2] w2];
    [|discriminate].
  destruct (SSTable_new_spec m w2) as (i & w3 & Hn & Htp3). rewrite Hn.
  destruct (write_segment_spec (SSTablePath i)
              (file_of (SSTable.mk m (next_now w2) None i)) w3)
    as (w4 & Hw & _ & _ & _ & _ & _ & Hfiles).
  cbn [SSTable.id]. rewrite Hw.
  destruct (next_fault (segFaults w3)); [discriminate|].
  intros _. cbn [fst snd LSMTree.ssTables].
  eexists. exists w1. split; [reflexivity|]. cbn [saved SSTable.data].
  split; [reflexivity|]. split.
  - apply (Hall (clock w)); [lia|constructor].
  - eexists. split; [reflexivity|]. rewrite Hfiles.
    cbn [SSTable.id]. apply read_file_written.
Qed.

Lemma compact_succeeds t w :
  no_fault (unlinkFaults w) -> next_fault (segFaults w) = false ->
  fst (LSMTree.compact (t, w)) = Ok tt.
Proof.
  intros Hu Hs.
  destruct (Z.of_nat (List.length (LSMTree.ssTables t)) <=? 1) eqn:Hlen.
  - now rewrite compact_small.
  - rewrite compact_unfold by assumption.
    destruct (compact_merge_spec (LSMTree.ssTables t) JsMap.empty w)
      as (m & w1 & Hm & Htp & _). rewrite Hm. destruct Htp.
    destruct (compact_delete_spec (LSMTree.ssTables t) w1)
      as (r2 & w2 & Hd & _ & _ & _ & Hsf2 & _ & Hok). rewrite Hd.
    destruct Hok as (-> & _); [congruence|].
    destruct (SSTable_new_spec m w2) as (i & w3 & Hn & Htp3). rewrite Hn.
    destruct Htp3.
    destruct (write_segment_spec (SSTablePath i)
                (file_of (SSTable.mk m (next_now w2) None i)) w3) as (w4 & Hw & _).
    cbn [SSTable.id]. rewrite Hw.
    replace (segFaults w3) with (segFaults w) by congruence.
    now rewrite Hs.
Qed.

(** When the merged segment cannot be written, the input files are gone
    already. *)
Lemma compact_persist_fails t w :
  (Z.of_nat (List.length (LSMTree.ssTables t)) <=? 1) = false ->
  no_fault (unlinkFaults w) -> next_fault (segFaults w) = true ->
  fst (LSMTree.compact (t, w)) = Throw IoError
  /\ fst (snd (LSMTree.compact (t, w))) = t
  /\ (forall seg p, In seg (LSMTree.ssTables t) -> SSTable.filePath seg = Some p ->
        file_exists p (segFiles (snd (snd (LSMTree.compact (t, w))))) = false)
  /\ (forall q, file_exists q (segFiles (snd (snd (LSMTree.compact (t, w))))) = true ->
        file_exists q (segFiles w) = true).
Proof.
  intros Hlen Hu Hs. rewrite compact_unfold by assumption.
  destruct (compact_merge_spec (LSMTree.ssTables t) JsMap.empty w)
    as (m & w1 & Hm & Htp & _). rewrite Hm. destruct Htp.
  destruct (compact_delete_spec (LSMTree.ssTables t) w1)
    as (r2 & w2 & Hd & _ & _ & _ & Hsf2 & Hsub & Hok). rewrite Hd.
  destruct Hok as (-> & _ & Hgone); [congruence|].
  destruct (SSTable_new_spec m w2) as (i & w3 & Hn & Htp3). rewrite Hn.
  destruct Htp3.
  destruct (write_segment_spec (SSTablePath i)
              (file_of (SSTable.mk m (next_now w2) None i)) w3)
    as (w4 & Hw & _ & _ & _ & _ & _ & Hfiles).
  cbn [SSTable.id]. rewrite Hw.
  replace (segFaults w3) with (segFaults w) in * by congruence.
  rewrite Hs in *. cbn [fst snd]. splits; auto.
  - intros seg p Hin Hp. rewrite Hfiles. replace (segFiles w3) with (segFiles w2) by congruence.
    eauto.
  - intros q. rewrite Hfiles. replace (segFiles w3) with (segFiles w2) by congruence.
    intros Hq. apply Hsub in Hq. congruence.
Qed.

(** [get] answers from the MemTable when it holds an entry without expiry. *)
Lemma get_memTable_hit key e t w :
  JsMap.get key (MemTable.data (LSMTree.memTable t)) = Some e ->
  expiresAt e = None ->
  LSMTree.get key (t, w) = (Ok (Some e), (t, w)).
Proof.
  intros Hg Hx. destruct t as [[d ms] ss mx dt]. cbn in Hg.
  unfold LSMTree.get, LSMTree.on_memTable, MemTable.get, bind, this, io.
  cbn [fst snd LSMTree.memTable MemTable.data]. rewrite Hg.
  rewrite is_expired_never by assumption. reflexivity.
Qed.


(** [get] on a MemTable entry whose expiry has passed: the entry is removed
    and the segments answer. *)
Lemma get_memTable_expired key e x t w :
  JsMap.get key (MemTable.data (LSMTree.memTable t)) = Some e ->
  expiresAt e = Some x -> x <> 0 -> x < next_now w ->
  LSMTree.get key (t, w) =
  (fst (LSMTree.get_loop key (rev (LSMTree.ssTables t)) (snd (Date_now w))),
   (evicted key t,
    snd (LSMTree.get_loop key (rev (LSMTree.ssTables t)) (snd (Date_now w))))).
Proof.
  intros Hg Hx Hnz Hlt. destruct t as [[d ms] ss mx dt]. cbn in Hg.
  unfold LSMTree.get, LSMTree.on_memTable, MemTable.get, bind, this, set_this, io, ret.
  cbn [fst snd LSMTree.memTable MemTable.data]. rewrite Hg.
  unfold is_expired, bind, ret. rewrite Hx.
  assert (Ht : truthy (Some x) = true).
  { simpl. apply negb_true_iff. now apply Z.eqb_neq. }
  rewrite Ht. unfold Date_now at 1. cbn [fst snd].
  assert (Hgt : (next_now w >? x) = true) by (apply Z.gtb_lt; lia).
  rewrite Hgt. cbn [fst snd LSMTree.ssTables MemTable.maxSize LSMTree.maxSSTables
                      LSMTree.defaultTTL].
  unfold evicted, Date_now.
  cbn [fst snd LSMTree.memTable LSMTree.ssTables MemTable.maxSize MemTable.data
       LSMTree.maxSSTables LSMTree.defaultTTL].
  destruct (LSMTree.get_loop key (rev ss) _) as [r w2]. reflexivity.
Qed.

(** The two ways a [flush] of a non-empty MemTable can go: the segment
    cannot be written and the engine is left as it was, or the segment is
    written, the MemTable cleared, the WAL saved and the segments possibly
    compacted. *)
Lemma flush_cases t w :
  MemTable.size (LSMTree.memTable t) <> O ->
  exists i w2,
    let seg := SSTable.mk (MemTable.data (LSMTree.memTable t)) (next_now w) None i in
    let t2 := flushed t seg in
    let w3 := after_saveWAL t2 w2 in
    LSMTree.flush (t, w) =
      (if next_fault (segFaults w) then (Throw IoError, (t, w2))
       else if Z.of_nat (List.length (LSMTree.ssTables t2)) >? LSMTree.maxSSTables t
            then LSMTree.compact (t2, w3)
            else (Ok tt, (t2, w3)))
    /\ clock w <= clock w2
    /\ walFile w2 = walFile w
    /\ walFaults w2 = walFaults w
    /\ unlinkFaults w2 = unlinkFaults w
    /\ segFaults w2 = tl (segFaults w)
    /\ segFiles w2 =
       if next_fault (segFaults w) then segFiles w
       else (SSTablePath i, file_of seg) :: remove_file (SSTablePath i) (segFiles w).
Proof.
  intros Hsz. rewrite flush_unfold by assumption.
  destruct (SSTable_new_spec (MemTable.data (LSMTree.memTable t)) w)
    as (i & w1 & Hn & Htp). rewrite Hn. destruct Htp.
  destruct (write_segment_spec (SSTablePath i)
              (file_of (SSTable.mk (MemTable.data (LSMTree.memTable t))
                                   (next_now w) None i)) w1)
    as (w2 & Hw & Hc & Hwf & Hwa & Hu & Hs & Hfiles).
  exists i, w2. cbn [SSTable.id]. rewrite Hw. cbv zeta.
  replace (segFaults w1) with (segFaults w) in * by congruence.
  replace (segFiles w1) with (segFiles w) in * by congruence.
  destruct (next_fault (segFaults w)); cbn [LSMTree.maxSSTables flushed];
    (splits; [reflexivity|lia|congruence|congruence|congruence|congruence|assumption]).
Qed.

Lemma flush_persist_fails t w :
  MemTable.size (LSMTree.memTable t) <> O ->
  next_fault (segFaults w) = true ->
  fst (LSMTree.flush (t, w)) = Throw IoError
  /\ fst (snd (LSMTree.flush (t, w))) = t
  /\ walFile (snd (snd (LSMTree.flush (t, w)))) = walFile w.
Proof.
  intros Hsz Hf. destruct (flush_cases t w Hsz) as (i & w2 & H & _ & Hwf & _).
  cbv zeta in H. rewrite Hf in H. rewrite H. cbn [fst snd]. auto.
Qed.

Lemma flush_succeeds t w :
  no_fault (segFaults w) -> no_fault (unlinkFaults w) ->
  fst (LSMTree.flush (t, w)) = Ok tt.
Proof.
  intros Hs Hu.
  destruct (MemTable.size (LSMTree.memTable t)) eqn:Hsz.
  - now rewrite flush_empty.
  - destruct (flush_cases t w) as (i & w2 & H & _ & _ & _ & Hu2 & Hs2 & _);
      [congruence|].
    cbv zeta in H. rewrite (no_fault_next _ Hs) in H. rewrite H.
    match goal with |- context [if ?c then _ else _] => destruct c end;
      [|reflexivity].
    apply compact_succeeds.
    + destruct (after_saveWAL_spec
        (flushed t (SSTable.mk (MemTable.data (LSMTree.memTable t)) (next_now w) None i)) w2)
        as (_ & _ & Hu3 & _). rewrite Hu3, Hu2. assumption.
    + destruct (after_saveWAL_spec
        (flushed t (SSTable.mk (MemTable.data (LSMTree.memTable t)) (next_now w) None i)) w2)
        as (_ & Hs3 & _). rewrite Hs3, Hs2. apply no_fault_next, no_fault_tl, Hs.
Qed.

(** A [flush] keeps the WAL in step with the MemTable as long as the WAL
    can be written. *)
Lemma flush_wal_matches t w :
  next_fault (walFaults w) = false ->
  wal_matches (t, w) -> wal_matches (snd (LSMTree.flush (t, w))).
Proof.
  intros Hf Hm.
  destruct (MemTable.size (LSMTree.memTable t)) eqn:Hsz.
  - now rewrite flush_empty.
  - destruct (flush_cases t w) as (i & w2 & H & _ & Hwf & Hwa & _); [congruence|].
    cbv zeta in H. rewrite H. clear H.
    destruct (next_fault (segFaults w)).
    + unfold wal_matches, world, tree in *. cbn [fst snd] in *. now rewrite Hwf.
    + set (t2 := flushed t _).
      assert (Hcur : walFile (after_saveWAL t2 w2)
                     = Some (mkWalFile (next_now w2) (MemTable.toJSON (LSMTree.memTable t2)))).
      { destruct (after_saveWAL_spec t2 w2) as (_ & _ & _ & _ & _ & Hfile).
        rewrite Hfile, Hwa, Hf. reflexivity. }
      match goal with |- context [if ?c then _ else _] => destruct c end.
      * destruct (compact_frame t2 (after_saveWAL t2 w2)) as (Hmt & _ & _ & Hwal & _).
        unfold wal_matches, world, tree. rewrite Hwal, Hcur, Hmt. reflexivity.
      * unfold wal_matches, world, tree. cbn [fst snd]. rewrite Hcur. reflexivity.
Qed.

Lemma flush_wal_current t w :
  next_fault (walFaults w) = false ->
  wal_current (t, w) -> wal_current (snd (LSMTree.flush (t, w))).
Proof.
  intros Hf Hm.
  destruct (MemTable.size (LSMTree.memTable t)) eqn:Hsz.
  - now rewrite flush_empty.
  - destruct (flush_cases t w) as (i & w2 & H & _ & Hwf & Hwa & _); [congruence|].
    cbv zeta in H. rewrite H. clear H.
    destruct (next_fault (segFaults w)).
    + unfold wal_current, world, tree in *. cbn [fst snd] in *. now rewrite Hwf.
    + set (t2 := flushed t _).
      assert (Hcur : walFile (after_saveWAL t2 w2)
                     = Some (mkWalFile (next_now w2) (MemTable.toJSON (LSMTree.memTable t2)))).
      { destruct (after_saveWAL_spec t2 w2) as (_ & _ & _ & _ & _ & Hfile).
        rewrite Hfile, Hwa, Hf. reflexivity. }
      match goal with |- context [if ?c then _ else _] => destruct c end.
      * destruct (compact_frame t2 (after_saveWAL t2 w2)) as (Hmt & _ & _ & Hwal & _).
        unfold wal_current, world, tree. rewrite Hwal, Hcur, Hmt.
        eexists. split; reflexivity.
      * unfold wal_current, world, tree. cbn [fst snd]. rewrite Hcur.
        eexists. split; reflexivity.
Qed.

Lemma get_loop_spec key l : forall w,
  exists r w', LSMTree.get_loop key l w = (Ok r, w') /\ time_passes w w'.
Proof.
  induction l as [|seg l IH]; intros w; simpl.
  - exists None, w. split; [reflexivity|apply time_passes_refl].
  - unfold bind, SSTable.get.
    destruct (JsMap.get key (SSTable.data seg)) as [e|].
    + unfold bind. destruct (is_expired_spec e w) as (b & w1 & He & Htp).
      rewrite He. destruct b; cbn.
      * destruct (IH w1) as (r & w' & H & Htp').
        exists r, w'. split; [exact H|]. eapply time_passes_trans; eauto.
      * exists (Some e), w1. split; [reflexivity|exact Htp].
    + cbn. apply IH.
Qed.

(** A lookup only lets time pass: it writes nothing. *)
Lemma get_time_passes key t w :
  time_passes w (snd (snd (LSMTree.get key (t, w)))).
Proof.
  destruct t as [[d ms] ss mx dt].
  unfold LSMTree.get, LSMTree.on_memTable, MemTable.get, bind, this, set_this, io, ret.
  projs.
  destruct (JsMap.get key d) as [e|]; projs.
  - destruct (is_expired_spec e w) as (b & w1 & He & Htp). rewrite He.
    destruct b; projs; [|exact Htp].
    destruct (get_loop_spec key (rev ss) w1) as (r & w' & H & Htp').
    rewrite H. projs. eapply time_passes_trans; eauto.
  - destruct (get_loop_spec key (rev ss) w) as (r & w' & H & Htp').
    rewrite H. exact Htp'.
Qed.

(** *** Distinct keys are an invariant

    The model copies a [Map] by taking its entries as they are
    ([JsMap.copy]); [of_pairs_copy] shows that this is what [new Map(m)]
    yields when the keys of [m] are distinct.  They are, in every state the
    engine can reach. *)

Lemma compact_entries_wf es : forall acc w m w',
  JsMap.wf acc ->
  LSMTree.compact_entries es acc w = (Ok m, w') -> JsMap.wf m.
Proof.
  induction es as [|[k e] es IH]; intros acc w m w' Hwf; simpl.
  - unfold ret. intros H. inversion H. now subst.
  - unfold bind.
    match goal with
    | |- context [let (_, _) := ?x in _] => destruct x as [[b|err] w1]
    end; [|intros ?; discriminate].
    apply IH. destruct b; auto using wf_set.
Qed.

Lemma compact_merge_wf l : forall acc w m w',
  JsMap.wf acc ->
  LSMTree.compact_merge l acc w = (Ok m, w') -> JsMap.wf m.
Proof.
  induction l as [|seg l IH]; intros acc w m w' Hwf; simpl.
  - unfold ret. intros H. inversion H. now subst.
  - unfold bind.
    destruct (LSMTree.compact_entries (JsMap.entries (SSTable.data seg)) acc w)
      as [[m1|err] w1] eqn:H1; [|intros ?; discriminate].
    apply IH. eapply compact_entries_wf; eauto.
Qed.

Lemma wf_engine_new a b : wf_engine (LSMTree.new a b).
Proof. split; constructor. Qed.

Lemma compact_wf t w :
  wf_engine t -> wf_engine (fst (snd (LSMTree.compact (t, w)))).
Proof.
  intros Hwf.
  destruct (compact_frame t w) as (Hmt & _ & _ & _ & _ & _ & Hthrow).
  destruct (fst (LSMTree.compact (t, w))) as [[]|err] eqn:Hr.
  - destruct (Z.of_nat (List.length (LSMTree.ssTables t)) <=? 1) eqn:Hlen.
    + now rewrite compact_small.
    + destruct (compact_ok t w Hlen Hr) as (seg & w1 & Hss & Hmerge & _).
      split.
      * rewrite Hmt. apply Hwf.
      * rewrite Hss. constructor; [|constructor].
        eapply compact_merge_wf; [|exact Hmerge]. constructor.
  - destruct (Hthrow err eq_refl) as (_ & ->). exact Hwf.
Qed.

Lemma flush_wf t w :
  wf_engine t -> wf_engine (fst (snd (LSMTree.flush (t, w)))).
Proof.
  intros Hwf.
  destruct (MemTable.size (LSMTree.memTable t)) eqn:Hsz.
  - now rewrite flush_empty.
  - destruct (flush_cases t w) as (i & w2 & H & _); [congruence|].
    cbv zeta in H. rewrite H. clear H.
    set (t2 := flushed t _).
    assert (Hwf2 : wf_engine t2).
    { destruct Hwf as (Hm & Hs). split.
      - constructor.
      - unfold t2, flushed. projs. apply Forall_app. split; [exact Hs|].
        constructor; [exact Hm|constructor]. }
    destruct (next_fault (segFaults w)); [exact Hwf|].
    match goal with |- context [if ?c then _ else _] => destruct c end;
      [apply compact_wf|]; exact Hwf2.
Qed.

Lemma put_wf key v ttl t w :
  wf_engine t -> wf_engine (fst (snd (LSMTree.put key v ttl (t, w)))).
Proof.
  intros (Hm & Hs). rewrite put_unfold. cbv zeta.
  assert (Hwf1 : wf_engine (inserted key (stored_entry v (resolve_ttl ttl t) w) t)).
  { split; [apply wf_set; exact Hm|exact Hs]. }
  destruct (reports_full key (LSMTree.memTable t)); [apply flush_wf|]; exact Hwf1.
Qed.

Lemma delete_wf key t w :
  wf_engine t -> wf_engine (fst (snd (LSMTree.delete key (t, w)))).
Proof.
  intros (Hm & Hs). rewrite delete_unfold. split; [apply wf_set; exact Hm|exact Hs].
Qed.

Lemma get_wf key t w :
  wf_engine t -> wf_engine (fst (snd (LSMTree.get key (t, w)))).
Proof.
  intros (Hm & Hs). destruct t as [[d ms] ss mx dt].
  unfold LSMTree.get, LSMTree.on_memTable, MemTable.get, bind, this, set_this, io, ret.
  projs. cbn [LSMTree.memTable MemTable.data LSMTree.ssTables] in Hm, Hs.
  destruct (JsMap.get key d) as [e|]; projs.
  - destruct (is_expired_spec e w) as (b & w1 & He & _). rewrite He.
    destruct b; projs.
    + destruct (get_loop_spec key (rev ss) w1) as (r & w' & H & _).
      rewrite H. projs. split; [apply wf_delete; exact Hm|exact Hs].
    + split; assumption.
  - destruct (get_loop_spec key (rev ss) w) as (r & w' & H & _).
    rewrite H. split; assumption.
Qed.
(** *** What a failed compaction leaves on disk *)

Lemma read_file_remove_other p q fs :
  q <> p -> read_file q (remove_file p fs) = read_file q fs.
Proof.
  intros Hne. induction fs as [|[r c] fs IH]; cbn; auto.
  destruct (Path_eqb p r) eqn:E.
  - apply Path_eqb_eq in E. subst r.
    destruct (Path_eqb q p) eqn:E2; auto.
    apply Path_eqb_eq in E2. contradiction.
  - cbn. now rewrite IH.
Qed.

Lemma read_file_remove_same p fs : read_file p (remove_file p fs) = None.
Proof.
  induction fs as [|[r c] fs IH]; cbn; auto.
  destruct (Path_eqb p r) eqn:E; auto.
  cbn. now rewrite E.
Qed.

(** Removing a file writes none: what can be read afterwards could be read
    before. *)
Lemma read_file_remove p q fs f :
  read_file q (remove_file p fs) = Some f -> read_file q fs = Some f.
Proof.
  destruct (Path_eqb q p) eqn:E.
  - apply Path_eqb_eq in E. subst q. now rewrite read_file_remove_same.
  - rewrite read_file_remove_other; auto.
    intros ->. now rewrite Path_eqb_refl in E.
Qed.

Lemma deleteFromDisk_reads seg w q f :
  read_file q (segFiles (snd (SSTable.deleteFromDisk seg w))) = Some f ->
  read_file q (segFiles w) = Some f.
Proof.
  unfold SSTable.deleteFromDisk.
  destruct (SSTable.filePath seg) as [p|]; [|auto].
  unfold bind, existsSync, unlink, ret. cbn [fst snd].
  destruct (file_exists p (segFiles w)); [|auto].
  destruct (next_fault (unlinkFaults w)); cbn [fst snd segFiles]; auto.
  apply read_file_remove.
Qed.

Lemma compact_delete_reads l : forall w q f,
  read_file q (segFiles (snd (LSMTree.compact_delete l w))) = Some f ->
  read_file q (segFiles w) = Some f.
Proof.
  induction l as [|seg l IH]; intros w q f; simpl; auto.
  unfold bind. pose proof (deleteFromDisk_reads seg w q f) as H1.
  destruct (SSTable.deleteFromDisk seg w) as [[u|e] w1]; cbn [fst snd] in *; auto.
Qed.

(** When the merged segment cannot be written, nothing has been written:
    what can be read afterwards could be read before. *)
Lemma compact_persist_fails_reads t w q f :
  (Z.of_nat (List.length (LSMTree.ssTables t)) <=? 1) = false ->
  no_fault (unlinkFaults w) -> next_fault (segFaults w) = true ->
  read_file q (segFiles (snd (snd (LSMTree.compact (t, w))))) = Some f ->
  read_file q (segFiles w) = Some f.
Proof.
  intros Hlen Hu Hs. rewrite compact_unfold by assumption.
  destruct (compact_merge_spec (LSMTree.ssTables t) JsMap.empty w)
    as (m & w1 & Hm & Htp & _). rewrite Hm. destruct Htp.
  pose proof (compact_delete_reads (LSMTree.ssTables t) w1 q f) as Hreads.
  destruct (compact_delete_spec (LSMTree.ssTables t) w1)
    as (r2 & w2 & Hd & _ & _ & _ & Hsf2 & _ & Hok). rewrite Hd in *.
  cbn [snd] in Hreads.
  destruct Hok as (-> & _ & _); [congruence|].
  destruct (SSTable_new_spec m w2) as (i & w3 & Hn & Htp3). rewrite Hn.
  destruct Htp3.
  destruct (write_segment_spec (SSTablePath i)
              (file_of (SSTable.mk m (next_now w2) None i)) w3)
    as (w4 & Hw & _ & _ & _ & _ & _ & Hfiles).
  cbn [SSTable.id]. rewrite Hw.
  replace (segFaults w3) with (segFaults w) in * by congruence.
  rewrite Hs in *. cbn [fst snd]. rewrite Hfiles.
  replace (segFiles w3) with (segFiles w2) by congruence.
  intros Hq. apply Hreads in Hq. congruence.
Qed.

(** *** The WAL after a flush *)

(** A flush of a non-empty MemTable whose writes succeed leaves a WAL that
    lists the MemTable, whatever the WAL held before. *)
Lemma flush_rewrites_wal t w :
  MemTable.size (LSMTree.memTable t) <> O ->
  next_fault (segFaults w) = false ->
  next_fault (walFaults w) = false ->
  wal_current (snd (LSMTree.flush (t, w))).
Proof.
  intros Hsz Hsf Hf.
  destruct (flush_cases t w Hsz) as (i & w2 & H & _ & Hwf & Hwa & _).
  cbv zeta in H. rewrite Hsf in H. rewrite H. clear H.
  set (t2 := flushed t _).
  assert (Hcur : walFile (after_saveWAL t2 w2)
                 = Some (mkWalFile (next_now w2) (MemTable.toJSON (LSMTree.memTable t2)))).
  { destruct (after_saveWAL_spec t2 w2) as (_ & _ & _ & _ & _ & Hfile).
    rewrite Hfile, Hwa, Hf. reflexivity. }
  match goal with |- context [if ?c then _ else _] => destruct c end.
  - destruct (compact_frame t2 (after_saveWAL t2 w2)) as (Hmt & _ & _ & Hwal & _).
    unfold wal_current, world, tree. rewrite Hwal, Hcur, Hmt.
    eexists. split; reflexivity.
  - unfold wal_current, world, tree. cbn [fst snd]. rewrite Hcur.
    eexists. split; reflexivity.
Qed.

(** ** Verified properties *)

(** *** Deleting, then reading *)

(** Whatever the engine and the arguments, [get] after [put] and [delete]
    answers with the tombstone that [delete] stored. *)
Lemma get_after_put_delete s key v ttl w' :
  let s1 := snd (LSMTree.put key v ttl s) in
  let s2 := snd (LSMTree.delete key s1) in
  exists e,
    fst (LSMTree.get key (tree s2, w')) = Ok (Some e)
    /\ value e = None /\ expiresAt e = None.
Proof.
  cbv zeta. destruct (snd (LSMTree.put key v ttl s)) as [t1 w1].
  rewrite delete_unfold. cbn [snd tree fst].
  exists (stored_entry None None w1).
  rewrite (get_memTable_hit key (stored_entry None None w1)).
  - auto.
  - unfold inserted. cbn [LSMTree.memTable MemTable.data]. apply get_set_same.
  - reflexivity.
Qed.

(** C1.  The claim says that [put(k, v, ttl); delete(k); get(k)] is a miss.
    On a new engine, [get("k")] after [put("k", "v", 60000)] and
    [delete("k")] returns the tombstone entry
    [{ value: null, expiresAt: null, timestamp }] instead of [null]. *)
Theorem get_after_delete_returns_tombstone :
  fst (and_then (LSMTree.put "k" (Some "v") (TtlNum 60000))
         (and_then (LSMTree.delete "k") (LSMTree.get "k"))
         (fresh 4 2))
  = Ok (Some (mkEntry None None 1004)).
Proof. vm_compute. reflexivity. Qed.

(** *** [delete] and [put] of a tombstone *)

(** C6, as stated: [delete(key)] and [put(key, null, null)] leave the same
    engine.  With capacity one they do not: [put] flushes, [delete] does
    not. *)
Lemma delete_differs_from_put_when_full :
  snd (LSMTree.delete "k" (fresh 1 10))
  <> snd (LSMTree.put "k" None TtlNull (fresh 1 10)).
Proof. vm_compute. intros H. discriminate H. Qed.

(** C6, amended.  [delete(key)] always succeeds, and it is
    [put(key, null, null)] without the flush: the two agree when the
    MemTable does not report full, and otherwise [put] is [delete] followed
    by [flush]. *)
Theorem delete_is_put_without_flush s key :
  fst (LSMTree.delete key s) = Ok tt
  /\ LSMTree.put key None TtlNull s =
     if reports_full key (LSMTree.memTable (tree s))
     then LSMTree.flush (snd (LSMTree.delete key s))
     else LSMTree.delete key s.
Proof.
  destruct s as [t w]. rewrite delete_unfold, put_unfold.
  cbn [fst snd tree resolve_ttl]. cbv zeta. split; reflexivity.
Qed.

(** *** Failures of [put] *)

(** C4, as stated: [put] fails when the WAL rewrite fails.  Here the WAL
    write rejects, nothing reaches the disk, and [put] returns normally. *)
Lemma put_succeeds_when_wal_write_fails :
  next_fault (walFaults (world (fresh_wal_rejects 4 2))) = true
  /\ fst (LSMTree.put "k" (Some "v") (TtlNum 60000) (fresh_wal_rejects 4 2)) = Ok tt
  /\ walFile (world (snd (LSMTree.put "k" (Some "v") (TtlNum 60000)
                            (fresh_wal_rejects 4 2)))) = None.
Proof. vm_compute. auto. Qed.

(** C4, amended.  A rejected WAL write never makes [put] fail: [put]
    succeeds whenever the MemTable does not report full, and whenever no
    segment write and no unlink rejects.  When the MemTable reports full and
    the segment cannot be written, [put] fails with [IoError] and the new
    entry is still in the MemTable. *)
Theorem put_fails_only_through_flush s key v ttl :
  let r := LSMTree.put key v ttl s in
  (reports_full key (LSMTree.memTable (tree s)) = false -> fst r = Ok tt)
  /\ (no_fault (segFaults (world s)) -> no_fault (unlinkFaults (world s)) ->
      fst r = Ok tt)
  /\ (reports_full key (LSMTree.memTable (tree s)) = true ->
      next_fault (segFaults (world s)) = true ->
      fst r = Throw IoError
      /\ JsMap.get key (MemTable.data (LSMTree.memTable (tree (snd r))))
         = Some (stored_entry v (resolve_ttl ttl (tree s)) (world s))).
Proof.
  destruct s as [t w]. unfold tree, world. cbn [fst snd].
  cbv zeta. rewrite put_unfold. cbv zeta.
  set (ttl' := resolve_ttl ttl t).
  set (t1 := inserted key (stored_entry v ttl' w) t).
  set (w1 := after_insert key v ttl' t w).
  destruct (after_insert_time key v ttl' t w) as [_ _ Hsf Huf _ _].
  destruct (after_saveWAL_spec t1 w1) as (_ & Hsf2 & Huf2 & _).
  fold w1 in Hsf, Huf.
  split; [|split].
  - intros ->. reflexivity.
  - intros Hs Hu. destruct (reports_full key (LSMTree.memTable t)); [|reflexivity].
    apply flush_succeeds; congruence.
  - intros -> Hf.
    assert (Hsz : MemTable.size (LSMTree.memTable t1) <> O).
    { unfold t1, inserted, MemTable.size. cbn [LSMTree.memTable MemTable.data].
      apply size_set_pos. }
    destruct (flush_persist_fails t1 (after_saveWAL t1 w1) Hsz) as (Hr & Ht & _);
      [congruence|].
    split; [exact Hr|]. rewrite Ht.
    unfold t1, inserted. cbn [LSMTree.memTable MemTable.data]. apply get_set_same.
Qed.

Lemma put_fails_only_through_flush_witness :
  fst (LSMTree.put "k" (Some "v") (TtlNum 60000) (fresh_wal_rejects 4 2)) = Ok tt
  /\ fst (LSMTree.put "k" (Some "v") (TtlNum 60000) (fresh_wal_rejects 1 2)) = Ok tt
  /\ (fst (LSMTree.put "k" (Some "v") (TtlNum 60000) (fresh_segment_rejects 1 2))
      = Throw IoError
      /\ JsMap.get "k" (MemTable.data (LSMTree.memTable (tree (snd
           (LSMTree.put "k" (Some "v") (TtlNum 60000) (fresh_segment_rejects 1 2))))))
         = Some (mkEntry (Some "v") (Some 61001) 1002)).
Proof.
  split; [|split].
  - destruct (put_fails_only_through_flush (fresh_wal_rejects 4 2)
                "k" (Some "v") (TtlNum 60000))
      as (H & _ & _).
    exact (H eq_refl).
  - destruct (put_fails_only_through_flush (fresh_wal_rejects 1 2)
                "k" (Some "v") (TtlNum 60000))
      as (_ & H & _).
    apply H; constructor.
  - destruct (put_fails_only_through_flush (fresh_segment_rejects 1 2)
                "k" (Some "v") (TtlNum 60000))
      as (_ & _ & H).
    exact (H eq_refl eq_refl).
Defined.

(** *** The WAL and the MemTable *)

(** C3, as stated: the lazy removal of an expired entry during a lookup
    leaves the WAL rewritten.  After [put("e", "x", 50)] the WAL lists the
    MemTable; a [get("e")] one second later empties the MemTable and leaves
    the WAL as it was. *)
Lemma wal_stale_after_lazy_expiry :
  let s1 := snd (LSMTree.put "e" (Some "x") (TtlNum 50) (fresh 4 2)) in
  wal_matches s1
  /\ ~ wal_matches (snd (LSMTree.get "e" (at_time 2000 s1))).
Proof.
  split.
  - vm_compute. reflexivity.
  - vm_compute. intros H. discriminate H.
Qed.

(** C3, amended.  As long as no WAL write rejects, [put] and [delete] leave
    a WAL on disk that lists the MemTable, whatever the WAL held before,
    and so does a [flush] of a non-empty MemTable whose segment write
    succeeds; a [flush] keeps a WAL that listed the MemTable in step with
    it.  A [flush] of an empty MemTable returns at once and a lookup never
    writes the WAL: a [get] that removes an expired entry from the MemTable
    leaves a WAL that no longer lists the MemTable, and a [flush] of the
    then empty MemTable does not repair it. *)
Theorem wal_follows_memTable s :
  no_fault (walFaults (world s)) ->
  (forall key v ttl, wal_current (snd (LSMTree.put key v ttl s)))
  /\ (forall key, wal_current (snd (LSMTree.delete key s)))
  /\ (MemTable.size (LSMTree.memTable (tree s)) <> O ->
      next_fault (segFaults (world s)) = false ->
      wal_current (snd (LSMTree.flush s)))
  /\ (wal_matches s -> wal_matches (snd (LSMTree.flush s)))
  /\ (MemTable.size (LSMTree.memTable (tree s)) = O ->
      LSMTree.flush s = (Ok tt, s))
  /\ (forall key, walFile (world (snd (LSMTree.get key s))) = walFile (world s))
  /\ (forall key,
        wal_current s ->
        MemTable.data (LSMTree.memTable (tree (snd (LSMTree.get key s))))
        <> MemTable.data (LSMTree.memTable (tree s)) ->
        ~ wal_matches (snd (LSMTree.get key s))).
Proof.
  destruct s as [t w]. unfold world, tree. cbn [fst snd]. intros Hnf.
  assert (Hins : forall key v ttl,
            let t1 := inserted key (stored_entry v ttl w) t in
            let w2 := after_saveWAL t1 (after_insert key v ttl t w) in
            wal_current (t1, w2) /\ walFaults w2 = tl (walFaults w)).
  { intros key v ttl t1 w2.
    destruct (after_insert_time key v ttl t w) as [_ Hwa _ _ _ _].
    destruct (after_saveWAL_spec t1 (after_insert key v ttl t w))
      as (_ & _ & _ & _ & Hwa2 & Hfile).
    rewrite Hwa in Hfile, Hwa2. rewrite (no_fault_next _ Hnf) in Hfile.
    split; [|exact Hwa2].
    unfold wal_current, world, tree. cbn [fst snd]. fold w2 in Hfile.
    rewrite Hfile. eexists. split; reflexivity. }
  assert (Hget : forall key,
            walFile (snd (snd (LSMTree.get key (t, w)))) = walFile w).
  { intros key. destruct (get_time_passes key t w) as [_ _ _ _ Hwf _].
    exact Hwf. }
  splits.
  - intros key v ttl. rewrite put_unfold. cbv zeta.
    destruct (Hins key v (resolve_ttl ttl t)) as (Hcur & Hwa).
    destruct (reports_full key (LSMTree.memTable t)); [|exact Hcur].
    apply flush_wal_current; [|exact Hcur].
    rewrite Hwa. apply no_fault_next, no_fault_tl, Hnf.
  - intros key. rewrite delete_unfold. cbn [snd].
    apply (Hins key None None).
  - intros Hsz Hsf. apply flush_rewrites_wal; auto using no_fault_next.
  - apply flush_wal_matches. apply no_fault_next, Hnf.
  - apply flush_empty.
  - exact Hget.
  - intros key (f & Hf & Hlist) Hne Hm.
    unfold wal_matches, world, tree in Hm, Hf, Hlist. cbn [fst snd] in Hf, Hlist.
    rewrite Hget, Hf, Hlist in Hm. apply Hne. symmetry. exact Hm.
Qed.

Lemma wal_follows_memTable_witness :
  wal_current (snd (LSMTree.put "k" (Some "v") (TtlNum 60000) (fresh 1 2)))
  /\ wal_current (snd (LSMTree.delete "k" (fresh 1 2)))
  /\ ~ wal_matches (snd (LSMTree.get "e" two_entries_one_expiring))
  /\ wal_current (snd (LSMTree.flush stale_wal_one_left))
  /\ ~ wal_matches (snd (LSMTree.get "e" expiring_entry))
  /\ LSMTree.flush stale_wal = (Ok tt, stale_wal).
Proof.
  assert (Hnf : no_fault (walFaults (world (fresh 1 2)))) by constructor.
  assert (Hnf1 : no_fault (walFaults (world two_entries_one_expiring)))
    by constructor.
  assert (Hnf2 : no_fault (walFaults (world stale_wal_one_left))) by constructor.
  assert (Hnf3 : no_fault (walFaults (world expiring_entry))) by constructor.
  assert (Hnf4 : no_fault (walFaults (world stale_wal))) by constructor.
  destruct (wal_follows_memTable (fresh 1 2) Hnf) as (Hput & Hdel & _).
  destruct (wal_follows_memTable two_entries_one_expiring Hnf1)
    as (_ & _ & _ & _ & _ & _ & Hstale2).
  destruct (wal_follows_memTable stale_wal_one_left Hnf2)
    as (_ & _ & Hflush & _).
  destruct (wal_follows_memTable expiring_entry Hnf3)
    as (_ & _ & _ & _ & _ & _ & Hstale).
  destruct (wal_follows_memTable stale_wal Hnf4)
    as (_ & _ & _ & _ & Hempty & _).
  split; [apply Hput|]. split; [apply Hdel|].
  split.
  { apply Hstale2.
    - eexists. split; reflexivity.
    - vm_compute. discriminate. }
  split; [apply Hflush; [vm_compute; discriminate | reflexivity]|].
  split.
  - apply Hstale.
    + eexists. split; reflexivity.
    + vm_compute. discriminate.
  - apply Hempty. reflexivity.
Defined.

(** *** Compaction *)

(** C7.  A compaction of more than one segment that meets no I/O failure
    returns, and a compaction that returns leaves exactly one segment, which
    holds no tombstone and no entry that had expired when the compaction
    began. *)
Theorem compact_leaves_one_clean_segment s :
  (1 < List.length (LSMTree.ssTables (tree s)))%nat ->
  (no_fault (unlinkFaults (world s)) -> next_fault (segFaults (world s)) = false ->
   fst (LSMTree.compact s) = Ok tt)
  /\ (fst (LSMTree.compact s) = Ok tt ->
      exists seg,
        LSMTree.ssTables (tree (snd (LSMTree.compact s))) = [seg]
        /\ forall k e, In (k, e) (SSTable.data seg) ->
             is_tombstone e = false /\ expired_at (clock (world s)) e = false).
Proof.
  destruct s as [t w]. unfold tree, world. cbn [fst snd]. intros Hlen.
  assert (Hlen' : (Z.of_nat (List.length (LSMTree.ssTables t)) <=? 1) = false)
    by (apply Z.leb_gt; lia).
  split.
  - apply compact_succeeds.
  - intros Hok.
    destruct (compact_ok t w Hlen' Hok) as (seg & w1 & Hss & _ & Hall & _).
    exists seg. split; [exact Hss|].
    intros k e Hin. rewrite Forall_forall in Hall.
    destruct (Hall _ Hin) as (Hv & Hx). cbn [snd] in Hv, Hx.
    split; [|exact Hx]. unfold is_tombstone. destruct (value e); congruence.
Qed.

Lemma compact_leaves_one_clean_segment_witness :
  exists seg,
    LSMTree.ssTables (tree (snd (LSMTree.compact two_segments))) = [seg]
    /\ forall k e, In (k, e) (SSTable.data seg) ->
         is_tombstone e = false /\ expired_at (clock (world two_segments)) e = false.
Proof.
  assert (Hlen : (1 < List.length (LSMTree.ssTables (tree two_segments)))%nat)
    by (vm_compute; lia).
  destruct (compact_leaves_one_clean_segment two_segments Hlen)
    as (Hruns & Hclean).
  apply Hclean. apply Hruns; [constructor | reflexivity].
Defined.

(** C2, as stated: when the merged segment cannot be persisted, the input
    segments remain on disk.  With two segments on disk and a rejected write
    of the merged segment, the compaction fails and the data directory holds
    no segment file at all. *)
Lemma compact_failure_loses_input_files :
  List.length (segFiles (world (segment_write_rejects two_segments))) = 2%nat
  /\ fst (LSMTree.compact (segment_write_rejects two_segments)) = Throw IoError
  /\ segFiles (world (snd (LSMTree.compact (segment_write_rejects two_segments)))) = [].
Proof. vm_compute. auto. Qed.

(** C2, amended.  Compaction discards the files of its input segments
    before it writes the merged segment.  When the deletions succeed and
    that write rejects, the compaction fails with the engine unchanged in
    memory -- the list of segments is the original one -- while none of the
    input files is on disk any more and no merged file has been written:
    every file that is on disk afterwards was there before, with the same
    contents. *)
Theorem compact_discards_inputs_before_persisting s :
  (1 < List.length (LSMTree.ssTables (tree s)))%nat ->
  no_fault (unlinkFaults (world s)) -> next_fault (segFaults (world s)) = true ->
  fst (LSMTree.compact s) = Throw IoError
  /\ tree (snd (LSMTree.compact s)) = tree s
  /\ (forall seg p, In seg (LSMTree.ssTables (tree s)) ->
        SSTable.filePath seg = Some p ->
        file_exists p (segFiles (world (snd (LSMTree.compact s)))) = false)
  /\ (forall q, file_exists q (segFiles (world (snd (LSMTree.compact s)))) = true ->
        file_exists q (segFiles (world s)) = true)
  /\ (forall q f, read_file q (segFiles (world (snd (LSMTree.compact s)))) = Some f ->
        read_file q (segFiles (world s)) = Some f).
Proof.
  destruct s as [t w]. unfold tree, world. cbn [fst snd]. intros Hlen Hu Hs.
  assert (Hlen' : (Z.of_nat (List.length (LSMTree.ssTables t)) <=? 1) = false)
    by (apply Z.leb_gt; lia).
  destruct (compact_persist_fails t w Hlen' Hu Hs) as (Hr & Ht & Hgone & Hsub).
  splits; auto.
  intros q f. now apply compact_persist_fails_reads.
Qed.

Lemma compact_discards_inputs_before_persisting_witness :
  fst (LSMTree.compact (segment_write_rejects two_segments)) = Throw IoError
  /\ tree (snd (LSMTree.compact (segment_write_rejects two_segments)))
     = tree (segment_write_rejects two_segments)
  /\ (forall seg p,
        In seg (LSMTree.ssTables (tree (segment_write_rejects two_segments))) ->
        SSTable.filePath seg = Some p ->
        file_exists p (segFiles (world (snd
          (LSMTree.compact (segment_write_rejects two_segments))))) = false)
  /\ (forall q,
        file_exists q (segFiles (world (snd
          (LSMTree.compact (segment_write_rejects two_segments))))) = true ->
        file_exists q (segFiles (world (segment_write_rejects two_segments))) = true)
  /\ (forall q f,
        read_file q (segFiles (world (snd
          (LSMTree.compact (segment_write_rejects two_segments))))) = Some f ->
        read_file q (segFiles (world (segment_write_rejects two_segments))) = Some f).
Proof.
  apply (compact_discards_inputs_before_persisting
           (segment_write_rejects two_segments)).
  - vm_compute. lia.
  - constructor.
  - reflexivity.
Defined.

(** *** Flush *)

(** C8.  A flush of an empty MemTable changes nothing at all.  A flush of a
    non-empty MemTable whose segment write succeeds seals the MemTable: it
    reaches a state [sealed] with one more segment at the end of the list
    -- the former contents of the MemTable, created at the clock reading
    taken when the flush began, and written to its own file --, with an
    empty MemTable and, when the WAL write succeeds, an empty WAL on disk.
    From there the flush returns, or runs the compaction when the segment
    count exceeds [maxSSTables]; either way it ends with the MemTable empty
    and the WAL empty; it returns in [sealed] when the segment count was
    below [maxSSTables], and it returns whenever no later deletion or write
    fails. *)
Theorem flush_seals_memTable s :
  (MemTable.size (LSMTree.memTable (tree s)) = O ->
   LSMTree.flush s = (Ok tt, s))
  /\ (MemTable.size (LSMTree.memTable (tree s)) <> O ->
      next_fault (segFaults (world s)) = false ->
      exists seg p sealed,
        LSMTree.ssTables (tree sealed) = LSMTree.ssTables (tree s) ++ [seg]
        /\ SSTable.data seg = MemTable.data (LSMTree.memTable (tree s))
        /\ SSTable.createdAt seg = next_now (world s)
        /\ SSTable.filePath seg = Some p
        /\ read_file p (segFiles (world sealed))
           = Some (mkSegFile (SSTable.id seg) (next_now (world s))
                     (MemTable.toJSON (LSMTree.memTable (tree s))))
        /\ MemTable.data (LSMTree.memTable (tree sealed)) = JsMap.empty
        /\ (next_fault (walFaults (world s)) = false ->
            exists f, walFile (world sealed) = Some f /\ wal_memTable f = [])
        /\ LSMTree.flush s =
           (if Z.of_nat (List.length (LSMTree.ssTables (tree sealed)))
               >? LSMTree.maxSSTables (tree s)
            then LSMTree.compact sealed
            else (Ok tt, sealed))
        /\ MemTable.data (LSMTree.memTable (tree (snd (LSMTree.flush s))))
           = JsMap.empty
        /\ (next_fault (walFaults (world s)) = false ->
            exists f, walFile (world (snd (LSMTree.flush s))) = Some f
                      /\ wal_memTable f = [])
        /\ (Z.of_nat (List.length (LSMTree.ssTables (tree s)))
            < LSMTree.maxSSTables (tree s) ->
            LSMTree.flush s = (Ok tt, sealed))
        /\ (no_fault (unlinkFaults (world s)) ->
            next_fault (tl (segFaults (world s))) = false ->
            fst (LSMTree.flush s) = Ok tt)).
Proof.
  destruct s as [t w]. unfold tree, world. cbn [fst snd].
  split; [apply flush_empty|].
  intros Hsz Hsf.
  destruct (flush_cases t w Hsz) as (i & w2 & H & _ & _ & Hwa & Hun & Hsg & Hfiles).
  cbv zeta in H. rewrite Hsf in H, Hfiles.
  set (seg := SSTable.mk (MemTable.data (LSMTree.memTable t)) (next_now w) None i) in *.
  set (t2 := flushed t seg) in *.
  destruct (after_saveWAL_spec t2 w2) as (_ & Hsg3 & Hun3 & Hsame & _ & Hfile).
  rewrite Hwa in Hfile.
  destruct (compact_frame t2 (after_saveWAL t2 w2)) as (Hmt & _ & _ & Hwal & _).
  exists (saved seg), (SSTablePath i), (t2, after_saveWAL t2 w2).
  cbn [fst snd].
  assert (Hlen : Z.of_nat (List.length (LSMTree.ssTables t2))
                 = Z.of_nat (List.length (LSMTree.ssTables t)) + 1).
  { unfold t2, flushed. projs. rewrite length_app. simpl. lia. }
  splits; try reflexivity.
  - rewrite Hsame, Hfiles. apply read_file_written.
  - intros Hwf. rewrite Hwf in Hfile. eexists. split; [exact Hfile|reflexivity].
  - exact H.
  - rewrite H.
    match goal with |- context [if ?c then _ else _] => destruct c end;
      [rewrite Hmt|]; reflexivity.
  - intros Hwf. rewrite Hwf in Hfile. rewrite H.
    exists (mkWalFile (next_now w2) (MemTable.toJSON (LSMTree.memTable t2))).
    split; [|reflexivity].
    match goal with |- context [if ?c then _ else _] => destruct c end;
      [rewrite Hwal|]; exact Hfile.
  - intros Hroom. rewrite H, Hlen.
    assert (Hno : (Z.of_nat (List.length (LSMTree.ssTables t)) + 1
                   >? LSMTree.maxSSTables t) = false).
    { rewrite Z.gtb_ltb. apply Z.ltb_ge. lia. }
    now rewrite Hno.
  - intros Hu Hs2. rewrite H.
    match goal with |- context [if ?c then _ else _] => destruct c end;
      [|reflexivity].
    apply compact_succeeds; [rewrite Hun3, Hun|rewrite Hsg3, Hsg]; assumption.
Qed.

Lemma flush_seals_memTable_witness :
  LSMTree.flush (fresh 4 2) = (Ok tt, fresh 4 2)
  /\ (exists seg sealed,
        LSMTree.flush one_entry = (Ok tt, sealed)
        /\ LSMTree.ssTables (tree sealed)
           = LSMTree.ssTables (tree one_entry) ++ [seg]
        /\ SSTable.data seg = MemTable.data (LSMTree.memTable (tree one_entry))
        /\ MemTable.data (LSMTree.memTable (tree sealed)) = JsMap.empty
        /\ exists f, walFile (world sealed) = Some f /\ wal_memTable f = [])
  /\ (exists seg sealed,
        LSMTree.flush about_to_compact = LSMTree.compact sealed
        /\ LSMTree.ssTables (tree sealed)
           = LSMTree.ssTables (tree about_to_compact) ++ [seg]
        /\ SSTable.data seg
           = MemTable.data (LSMTree.memTable (tree about_to_compact))
        /\ MemTable.data (LSMTree.memTable (tree sealed)) = JsMap.empty
        /\ (exists f, walFile (world sealed) = Some f /\ wal_memTable f = [])
        /\ fst (LSMTree.flush about_to_compact) = Ok tt
        /\ MemTable.data (LSMTree.memTable
                            (tree (snd (LSMTree.flush about_to_compact))))
           = JsMap.empty).
Proof.
  split; [|split].
  - destruct (flush_seals_memTable (fresh 4 2)) as (H & _).
    exact (H eq_refl).
  - destruct (flush_seals_memTable one_entry) as (_ & H).
    destruct H as (seg & p & sealed & Hss & Hd & _ & _ & _ & Hm & Hw & _ & _ & _
                   & Hroom & _);
      [vm_compute; discriminate | reflexivity |].
    exists seg, sealed.
    split; [apply Hroom; reflexivity|].
    split; [exact Hss|]. split; [exact Hd|]. split; [exact Hm|].
    apply Hw. reflexivity.
  - destruct (flush_seals_memTable about_to_compact) as (_ & H).
    destruct H as (seg & p & sealed & Hss & Hd & _ & _ & _ & Hm & Hw & Hfl & Hm'
                   & _ & _ & Hret);
      [vm_compute; discriminate | reflexivity |].
    exists seg, sealed.
    split; [rewrite Hfl, Hss; reflexivity|].
    split; [exact Hss|]. split; [exact Hd|]. split; [exact Hm|].
    split; [apply Hw; reflexivity|].
    split; [apply Hret; [constructor | reflexivity]|].
    exact Hm'.
Defined.

(** *** Time to live *)




(** C10.  [put(key, null, ttl)] is accepted and stores a tombstone that
    expires: with a ttl that resolves to [n <> 0] -- [defaultTTL] when the
    ttl is left out -- the MemTable binds [key] to an entry of value [null]
    and expiry [now + n].  A [get] after that expiry removes the tombstone
    from the MemTable and answers with what the segments hold for [key]: an
    older entry that has not expired is returned again. *)
Theorem expired_tombstone_resurrects s key ttl n w' old w'' :
  resolve_ttl ttl (tree s) = Some n -> n <> 0 ->
  reports_full key (LSMTree.memTable (tree s)) = false ->
  next_now (world s) + n <> 0 -> next_now (world s) + n < next_now w' ->
  LSMTree.get_loop key (rev (LSMTree.ssTables (tree s))) (snd (Date_now w'))
  = (Ok (Some old), w'') ->
  let s1 := snd (LSMTree.put key None ttl s) in
  let tombstone := mkEntry None (Some (next_now (world s) + n))
                           (next_now (snd (Date_now (world s)))) in
  fst (LSMTree.put key None ttl s) = Ok tt
  /\ JsMap.get key (MemTable.data (LSMTree.memTable (tree s1))) = Some tombstone
  /\ fst (LSMTree.get key (tree s1, w')) = Ok (Some old)
  /\ JsMap.get key (MemTable.data (LSMTree.memTable
                      (tree (snd (LSMTree.get key (tree s1, w')))))) = None.
Proof.
  destruct s as [t w]. unfold tree, world. cbn [fst snd].
  intros Httl Hn Hfull Hnz Hlater Hloop. cbv zeta.
  rewrite put_unfold. cbv zeta. rewrite Hfull, Httl.
  assert (He : stored_entry None (Some n) w
               = mkEntry None (Some (next_now w + n)) (next_now (snd (Date_now w)))).
  { unfold stored_entry. simpl truthy.
    destruct (n =? 0) eqn:E; [apply Z.eqb_eq in E; contradiction|]. reflexivity. }
  rewrite He. projs.
  set (tomb := mkEntry None (Some (next_now w + n)) (next_now (snd (Date_now w)))).
  assert (Hg : JsMap.get key
                 (MemTable.data (LSMTree.memTable (inserted key tomb t))) = Some tomb).
  { unfold inserted. projs. apply get_set_same. }
  split; [reflexivity|]. split; [exact Hg|].
  rewrite (get_memTable_expired key tomb (next_now w + n)); auto.
  unfold inserted at 1 3. projs. rewrite Hloop. projs.
  split; [reflexivity|]. unfold evicted. projs. apply get_delete_same.
Qed.

Lemma expired_tombstone_resurrects_witness :
  fst (LSMTree.put "k" None TtlOmitted old_in_segment) = Ok tt
  /\ JsMap.get "k" (MemTable.data (LSMTree.memTable
                      (tree (snd (LSMTree.put "k" None TtlOmitted old_in_segment)))))
     = Some (mkEntry None (Some 61006) 1007)
  /\ fst (LSMTree.get "k"
            (tree (snd (LSMTree.put "k" None TtlOmitted old_in_segment)),
             calm 70000 []))
     = Ok (Some (mkEntry (Some "old") None 1001))
  /\ JsMap.get "k" (MemTable.data (LSMTree.memTable (tree (snd
       (LSMTree.get "k"
          (tree (snd (LSMTree.put "k" None TtlOmitted old_in_segment)),
           calm 70000 []))))))
     = None.
Proof.
  assert (H1 : resolve_ttl TtlOmitted (tree old_in_segment) = Some 60000)
    by reflexivity.
  assert (H2 : 60000 <> 0) by discriminate.
  assert (H3 : reports_full "k" (LSMTree.memTable (tree old_in_segment)) = false)
    by reflexivity.
  assert (H4 : next_now (world old_in_segment) + 60000 <> 0)
    by (vm_compute; discriminate).
  assert (H5 : next_now (world old_in_segment) + 60000 < next_now (calm 70000 []))
    by (vm_compute; reflexivity).
  assert (H6 : LSMTree.get_loop "k" (rev (LSMTree.ssTables (tree old_in_segment)))
                 (snd (Date_now (calm 70000 [])))
               = (Ok (Some (mkEntry (Some "old") None 1001)), calm 70000 []))
    by (vm_compute; reflexivity).
  exact (expired_tombstone_resurrects old_in_segment "k" TtlOmitted 60000
           (calm 70000 []) (mkEntry (Some "old") None 1001) (calm 70000 [])
           H1 H2 H3 H4 H5 H6).
Defined.

(** *** Listing *)

(** C5.  The claim says that [list()] returns no tombstone, also when the
    tombstone resides in a segment.  With capacity one,
    [put("k", "old", 60000)] flushes ["k"] into a first segment; the
    tombstone of [delete("k")] stays in the MemTable until
    [put("j", "v", 60000)] flushes both into a second segment.
    [getAllEntries()] then lists ["k"] with value [null]: entries read from
    segments are never tested for [value !== null]. *)
Theorem list_returns_segment_tombstone :
  fst (and_then (LSMTree.put "k" (Some "old") (TtlNum 60000))
         (and_then (LSMTree.delete "k")
            (and_then (LSMTree.put "j" (Some "v") (TtlNum 60000))
               LSMTree.getAllEntries))
         (fresh 1 10))
  = Ok [("k", mkEntry None None 1007);
        ("j", mkEntry (Some "v") (Some 61009) 1010)].
Proof. vm_compute. reflexivity. Qed.

(** ** More lemmas on [JsMap] *)

Section MoreJsMapFacts.
Variable V : Type.
Implicit Types (m : JsMap.t V) (k : Key) (v : V).

Lemma get_delete_other k k' m :
  k <> k' -> JsMap.get k (JsMap.delete k' m) = JsMap.get k m.
Proof.
  intros Hne. induction m as [|[k2 v2] m IH]; simpl; auto.
  destruct (String.eqb k' k2) eqn:E; simpl.
  - apply String.eqb_eq in E. subst k2.
    destruct (String.eqb k k') eqn:E2; auto.
    apply String.eqb_eq in E2. contradiction.
  - now rewrite IH.
Qed.

Lemma get_some_key k v m : JsMap.get k m = Some v -> In k (map fst m).
Proof. intros H. apply get_In in H. apply (in_map fst) in H. exact H. Qed.

Lemma key_get_some k m : In k (map fst m) -> exists v, JsMap.get k m = Some v.
Proof.
  induction m as [|[k' v'] m IH]; simpl; [intros []|].
  destruct (String.eqb k k') eqn:E; [eauto|].
  intros [->|Hin]; [now rewrite String.eqb_refl in E|auto].
Qed.

(** In a map with distinct keys, a binding is what [get] finds. *)
Lemma In_get k v m : JsMap.wf m -> In (k, v) m -> JsMap.get k m = Some v.
Proof.
  unfold JsMap.wf. induction m as [|[k' v'] m IH]; simpl; [intros _ []|].
  intros Hwf. inversion Hwf as [|? ? Hn Hnd]; subst.
  intros [Heq|Hin].
  - inversion Heq. subst. now rewrite String.eqb_refl.
  - destruct (String.eqb k k') eqn:E; [|auto].
    apply String.eqb_eq in E. subst. exfalso. apply Hn.
    apply (in_map fst) in Hin. exact Hin.
Qed.

Lemma delete_fresh k m : ~ In k (map fst m) -> JsMap.delete k m = m.
Proof.
  induction m as [|[k' v'] m IH]; simpl; intros Hn; auto.
  destruct (String.eqb k k') eqn:E.
  - apply String.eqb_eq in E. subst. tauto.
  - rewrite IH; tauto.
Qed.

(** Deleting the key of one binding of a map with distinct keys removes
    that binding and nothing else. *)
Lemma delete_middle k v (a b : JsMap.t V) :
  JsMap.wf (a ++ (k, v) :: b) -> JsMap.delete k (a ++ (k, v) :: b) = a ++ b.
Proof.
  unfold JsMap.wf. induction a as [|[k' v'] a IH]; simpl; intros Hwf.
  - rewrite String.eqb_refl. inversion Hwf; subst. now apply delete_fresh.
  - inversion Hwf as [|? ? Hn Hnd]; subst.
    destruct (String.eqb k k') eqn:E.
    + apply String.eqb_eq in E. subst. exfalso. apply Hn.
      rewrite map_app. apply in_or_app. right. now left.
    + now rewrite IH.
Qed.

Lemma Forall_delete (P : Key * V -> Prop) k m :
  Forall P m -> Forall P (JsMap.delete k m).
Proof.
  induction m as [|[k' v'] m IH]; simpl; intros Hm; auto.
  inversion Hm; subst. destruct (String.eqb k k'); auto.
Qed.

Lemma In_delete k kv m : In kv (JsMap.delete k m) -> In kv m.
Proof.
  induction m as [|[k' v'] m IH]; simpl; auto.
  destruct (String.eqb k k'); simpl; intuition.
Qed.

(** [set] only adds the new binding. *)
Lemma In_set_inv k v kv m : In kv (JsMap.set k v m) -> kv = (k, v) \/ In kv m.
Proof.
  induction m as [|[k' v'] m IH]; simpl.
  - intuition.
  - destruct (String.eqb k k') eqn:E; simpl.
    + apply String.eqb_eq in E. subst. intuition.
    + intuition.
Qed.

(** [new Map(pairs)]: when a key occurs more than once, its last pair
    gives the value. *)
Lemma get_fold_set k (l : list (Key * V)) : forall m,
  JsMap.get k (fold_left (fun m kv => JsMap.set (fst kv) (snd kv) m) l m) =
  match JsMap.get k (rev l) with
  | Some v => Some v
  | None => JsMap.get k m
  end.
Proof.
  induction l as [|[k' v'] l IH]; intros m; simpl; auto.
  rewrite IH. clear IH.
  assert (Hrev : forall (a : list (Key * V)) x,
            JsMap.get k (a ++ [x]) =
            match JsMap.get k a with
            | Some v => Some v
            | None => if String.eqb k (fst x) then Some (snd x) else None
            end).
  { induction a as [|[k2 v2] a IHa]; intros [kx vx]; simpl.
    - reflexivity.
    - destruct (String.eqb k k2); auto. }
  rewrite Hrev. simpl.
  destruct (JsMap.get k (rev l)); auto.
  destruct (String.eqb k k') eqn:E.
  - apply String.eqb_eq in E. subst. apply get_set_same.
  - apply get_set_other. intros ->. now rewrite String.eqb_refl in E.
Qed.

Lemma wf_fold_set (l : list (Key * V)) : forall m,
  JsMap.wf m ->
  JsMap.wf (fold_left (fun m kv => JsMap.set (fst kv) (snd kv) m) l m).
Proof.
  induction l as [|[k v] l IH]; intros m Hwf; simpl; auto.
  apply IH. now apply wf_set.
Qed.
End MoreJsMapFacts.

(** ** More lemmas on the engine *)

Lemma is_expired_run e w :
  is_expired e w = (Ok (expired_at (next_now w) e), read_if_expiring e w).
Proof.
  unfold is_expired, expired_at, read_if_expiring.
  destruct (expiresAt e) as [x|]; [|reflexivity].
  destruct (truthy (Some x)); reflexivity.
Qed.

Lemma is_live_run e w :
  is_live e w = (Ok (negb (expired_at (next_now w) e)), read_if_expiring e w).
Proof.
  unfold is_live, expired_at, read_if_expiring.
  destruct (expiresAt e) as [x|]; [|reflexivity].
  destruct (truthy (Some x)); [|reflexivity].
  unfold bind, Date_now, ret. cbn [fst snd andb].
  rewrite Z.gtb_ltb, Z.leb_antisym. reflexivity.
Qed.

Lemma read_if_expiring_time e w : time_passes w (read_if_expiring e w).
Proof.
  unfold read_if_expiring. destruct (truthy (expiresAt e)).
  - destruct (Date_now_spec w) as (w' & H & Htp & _). now rewrite H.
  - apply time_passes_refl.
Qed.

(** An entry that has expired stays expired. *)
Lemma expired_at_mono e t t' :
  t <= t' -> expired_at t e = true -> expired_at t' e = true.
Proof.
  unfold expired_at. destruct (expiresAt e) as [x|]; [|discriminate].
  intros Hle H. apply andb_true_iff in H. destruct H as (H1 & H2).
  apply andb_true_iff. split; [exact H1|].
  apply Z.gtb_lt in H2. apply Z.gtb_lt. lia.
Qed.

Lemma live_at_mono e t t' :
  t <= t' -> expired_at t' e = false -> expired_at t e = false.
Proof.
  intros Hle H. destruct (expired_at t e) eqn:E; auto.
  rewrite (expired_at_mono e t t' Hle E) in H. discriminate.
Qed.

Lemma read_if_expiring_clock e w :
  expired_at (clock (read_if_expiring e w)) e = expired_at (next_now w) e.
Proof.
  unfold read_if_expiring, expired_at.
  destruct (expiresAt e) as [x|]; [|reflexivity].
  destruct (truthy (Some x)); reflexivity.
Qed.

Lemma SSTable_get_run key seg w :
  SSTable.get key seg w =
  match JsMap.get key (SSTable.data seg) with
  | Some e => (Ok (if expired_at (next_now w) e then None else Some e),
               read_if_expiring e w)
  | None => (Ok None, w)
  end.
Proof.
  unfold SSTable.get. destruct (JsMap.get key (SSTable.data seg)) as [e|];
    [|reflexivity].
  unfold bind. rewrite is_expired_run.
  destruct (expired_at (next_now w) e); reflexivity.
Qed.

Lemma get_loop_unbound key l w :
  unbound_in_segments key l -> LSMTree.get_loop key l w = (Ok None, w).
Proof.
  induction l as [|seg l IH]; intros Hun; simpl; [reflexivity|].
  unfold bind. rewrite SSTable_get_run, (Hun seg (or_introl eq_refl)).
  apply IH. intros s Hin. apply Hun. now right.
Qed.

(** The segment scan skips the segments that do not bind the key and stops
    at the first one that binds it to an entry that has not expired. *)
Lemma get_loop_first_live key e seg l2 rest w :
  unbound_in_segments key l2 ->
  JsMap.get key (SSTable.data seg) = Some e ->
  expired_at (next_now w) e = false ->
  LSMTree.get_loop key (l2 ++ seg :: rest) w = (Ok (Some e), read_if_expiring e w).
Proof.
  induction l2 as [|s l2 IH]; intros Hun Hg Hx; simpl.
  - unfold bind. rewrite SSTable_get_run, Hg, Hx. reflexivity.
  - unfold bind. rewrite SSTable_get_run, (Hun s (or_introl eq_refl)).
    apply IH; auto. intros s' Hin. apply Hun. now right.
Qed.

Lemma LSMTree_get_unfold key t w :
  LSMTree.get key (t, w) =
  match JsMap.get key (MemTable.data (LSMTree.memTable t)) with
  | Some e =>
      if expired_at (next_now w) e
      then (fst (LSMTree.get_loop key (rev (LSMTree.ssTables t)) (read_if_expiring e w)),
            (evicted key t,
             snd (LSMTree.get_loop key (rev (LSMTree.ssTables t)) (read_if_expiring e w))))
      else (Ok (Some e), (t, read_if_expiring e w))
  | None =>
      (fst (LSMTree.get_loop key (rev (LSMTree.ssTables t)) w),
       (t, snd (LSMTree.get_loop key (rev (LSMTree.ssTables t)) w)))
  end.
Proof.
  destruct t as [[d ms] ss mx dt].
  unfold LSMTree.get, LSMTree.on_memTable, MemTable.get, bind, this, set_this, io, ret.
  projs. destruct (JsMap.get key d) as [e|]; projs.
  - rewrite is_expired_run. projs.
    destruct (expired_at (next_now w) e); projs.
    + unfold evicted. projs.
      destruct (LSMTree.get_loop key (rev ss) (read_if_expiring e w)) as [r w2].
      reflexivity.
    + reflexivity.
  - destruct (LSMTree.get_loop key (rev ss) w) as [r w2]. reflexivity.
Qed.

(** Entries of a segment that binds [key] to nothing or to a tombstone
    leave the merged entry of [key] alone. *)
Lemma compact_entries_deleted key es : forall acc w m w',
  JsMap.wf es ->
  match JsMap.get key es with None => True | Some e => value e = None end ->
  LSMTree.compact_entries es acc w = (Ok m, w') ->
  JsMap.get key m = JsMap.get key acc.
Proof.
  induction es as [|[k e] es IH]; intros acc w m w' Hwf Hdel; simpl.
  - unfold ret. intros H. inversion H. reflexivity.
  - inversion Hwf as [|? ? Hnk Hnd]; subst. simpl in Hdel.
    destruct (String.eqb key k) eqn:E.
    + apply String.eqb_eq in E. subst k. unfold bind. rewrite Hdel.
      unfold ret at 1. cbn [fst snd].
      intros H. apply (compact_entries_get_other _ _ _ _ _ _ Hnk H).
    + unfold bind.
      match goal with
      | |- context [let (_, _) := ?x in _] => destruct x as [[b|err] w1]
      end; [|intros ?; discriminate].
      intros H. rewrite (IH _ _ _ _ Hnd Hdel H).
      destruct b; auto. apply get_set_other. intros ->.
      now rewrite String.eqb_refl in E.
Qed.

Lemma compact_merge_deleted key l : forall acc w m w',
  Forall (fun seg => JsMap.wf (SSTable.data seg)) l ->
  Forall (deleted_in key) l ->
  LSMTree.compact_merge l acc w = (Ok m, w') ->
  JsMap.get key m = JsMap.get key acc.
Proof.
  induction l as [|seg l IH]; intros acc w m w' Hwf Hdel; simpl.
  - unfold ret. intros H. inversion H. reflexivity.
  - inversion Hwf as [|? ? Hwseg Hwl]; subst.
    inversion Hdel as [|? ? Hdseg Hdl]; subst. unfold bind.
    destruct (LSMTree.compact_entries (JsMap.entries (SSTable.data seg)) acc w)
      as [[m1|err] w1] eqn:Hent; [|intros ?; discriminate].
    intros H. rewrite (IH _ _ _ _ Hwl Hdl H).
    eapply compact_entries_deleted; eauto.
Qed.

Lemma distinct_keys_wf V (m : JsMap.t V) : distinct_keys m = true -> JsMap.wf m.
Proof.
  unfold JsMap.wf. induction m as [|[k v] m IH]; simpl; intros H.
  - constructor.
  - destruct (JsMap.get k m) eqn:E; [discriminate|].
    constructor; auto.
    intros Hin. apply key_get_some in Hin. destruct Hin as (v' & Hv). congruence.
Qed.

Lemma distinct_keys_engine_wf t : distinct_keys_engine t = true -> wf_engine t.
Proof.
  unfold distinct_keys_engine, wf_engine. intros H.
  apply andb_true_iff in H. destruct H as (Hm & Hs).
  split; [now apply distinct_keys_wf|].
  rewrite forallb_forall in Hs. apply Forall_forall.
  intros seg Hin. apply distinct_keys_wf. auto.
Qed.

(** The sweep of [MemTable.getAllEntries]: what it returns is what it
    leaves in the table. *)
Lemma MemTable_sweep_spec es : forall acc pre ms w,
  JsMap.wf (pre ++ es) ->
  exists kept w',
    MemTable.getAllEntries_loop es acc (MemTable.mk (pre ++ es) ms, w)
    = (Ok (acc ++ kept), (MemTable.mk (pre ++ kept) ms, w'))
    /\ time_passes w w'
    /\ JsMap.wf (pre ++ kept)
    /\ (forall ke, In ke kept -> In ke es /\ expired_at (clock w) (snd ke) = false)
    /\ (forall ke, In ke es -> expired_at (clock w') (snd ke) = false -> In ke kept).
Proof.
  induction es as [|[k e] es IH]; intros acc pre ms w Hwf.
  - exists [], w. cbn [MemTable.getAllEntries_loop]. unfold ret.
    rewrite !app_nil_r. rewrite app_nil_r in Hwf.
    splits; auto using time_passes_refl.
    intros ke [].
  - cbn [MemTable.getAllEntries_loop]. unfold bind at 1. unfold io at 1.
    cbn [fst snd]. rewrite is_live_run.
    pose proof (read_if_expiring_time e w) as Htp1.
    pose proof (read_if_expiring_clock e w) as Hclk.
    set (w1 := read_if_expiring e w) in *.
    destruct (expired_at (next_now w) e) eqn:Hx; cbn [negb].
    + (* expired: removed from the table *)
      unfold bind at 1. unfold this at 1. cbn [fst snd].
      unfold bind at 1. unfold set_this at 1. cbn [fst snd MemTable.data MemTable.maxSize].
      rewrite delete_middle by assumption.
      assert (Hwf' : JsMap.wf (pre ++ es)).
      { unfold JsMap.wf in *. rewrite map_app in *. cbn [map fst] in Hwf.
        apply NoDup_remove_1 in Hwf. exact Hwf. }
      destruct (IH acc pre ms w1 Hwf') as (kept & w' & Hrun & Htp & Hwfk & Hin & Hall).
      exists kept, w'. rewrite Hrun.
      splits; auto.
      * eapply time_passes_trans; eauto.
      * intros ke Hk. destruct (Hin ke Hk) as (Hes & Hlive).
        split; [now right|].
        apply (live_at_mono (snd ke) (clock w) (clock w1)); auto.
        now destruct Htp1.
      * intros ke [<-|Hes] Hlive; [|auto]. cbn [snd] in Hlive.
        exfalso.
        rewrite (expired_at_mono e (clock w1) (clock w')) in Hlive;
          [discriminate| now destruct Htp |exact Hclk].
    + (* live: returned and kept *)
      replace (pre ++ (k, e) :: es) with ((pre ++ [(k, e)]) ++ es) in *
        by (rewrite <- app_assoc; reflexivity).
      destruct (IH (acc ++ [(k, e)]) (pre ++ [(k, e)]) ms w1 Hwf)
        as (kept & w' & Hrun & Htp & Hwfk & Hin & Hall).
      exists ((k, e) :: kept), w'. rewrite Hrun.
      rewrite <- !app_assoc. cbn [app].
      rewrite <- app_assoc in Hwfk. cbn [app] in Hwfk.
      splits; auto.
      * eapply time_passes_trans; eauto.
      * intros ke [<-|Hk].
        -- split; [now left|]. cbn [snd].
           apply (live_at_mono e (clock w) (next_now w)); auto using next_now_ge.
        -- destruct (Hin ke Hk) as (Hes & Hlive). split; [now right|].
           apply (live_at_mono (snd ke) (clock w) (clock w1)); auto.
           now destruct Htp1.
      * intros ke [<-|Hes] Hlive; [now left|right; auto].
Qed.

Lemma SSTable_getAllEntries_loop_spec es : forall acc w,
  exists kept w',
    SSTable.getAllEntries_loop es acc w = (Ok (acc ++ kept), w')
    /\ time_passes w w'
    /\ (forall ke, In ke kept -> In ke es /\ expired_at (clock w) (snd ke) = false).
Proof.
  induction es as [|[k e] es IH]; intros acc w.
  - exists [], w. cbn. unfold ret. rewrite app_nil_r.
    splits; auto using time_passes_refl. intros ke [].
  - cbn [SSTable.getAllEntries_loop]. unfold bind. rewrite is_live_run.
    pose proof (read_if_expiring_time e w) as Htp1.
    set (w1 := read_if_expiring e w) in *.
    destruct (expired_at (next_now w) e) eqn:Hx; cbn [negb].
    + destruct (IH acc w1) as (kept & w' & Hrun & Htp & Hin).
      exists kept, w'. splits; auto.
      * eapply time_passes_trans; eauto.
      * intros ke Hk. destruct (Hin ke Hk) as (Hes & Hlive). split; [now right|].
        apply (live_at_mono (snd ke) (clock w) (clock w1)); auto.
        now destruct Htp1.
    + destruct (IH (acc ++ [(k, e)]) w1) as (kept & w' & Hrun & Htp & Hin).
      exists ((k, e) :: kept), w'. rewrite Hrun, <- app_assoc. cbn [app].
      splits; auto.
      * eapply time_passes_trans; eauto.
      * intros ke [<-|Hk].
        -- split; [now left|]. cbn [snd].
           apply (live_at_mono e (clock w) (next_now w)); auto using next_now_ge.
        -- destruct (Hin ke Hk) as (Hes & Hlive). split; [now right|].
           apply (live_at_mono (snd ke) (clock w) (clock w1)); auto.
           now destruct Htp1.
Qed.

Lemma listing_ok_weaken t0 t1 l mem b :
  t0 <= t1 -> listing_ok t1 l mem b -> listing_ok t0 l mem b.
Proof.
  intros Hle (Hk & Hx & Ho). split; [exact Hk|]. split; [|exact Ho].
  eapply live_at_mono; eauto.
Qed.

Lemma fold_set_listing (P : Key * (Key * Entry) -> Prop) (es : list (Key * Entry)) :
  forall m : JsMap.t (Key * Entry),
  Forall P m -> (forall ke, In ke es -> P (fst ke, ke)) ->
  Forall P (fold_left (fun m entry => JsMap.set (fst entry) entry m) es m).
Proof.
  induction es as [|ke es IH]; intros m Hm Hes; cbn [fold_left]; auto.
  apply IH.
  - apply In_set; auto. apply Hes. now left.
  - intros ke' Hin. apply Hes. now right.
Qed.

Lemma wf_fold_set_entries (es : list (Key * Entry)) :
  forall m : JsMap.t (Key * Entry),
  JsMap.wf m ->
  JsMap.wf (fold_left (fun m entry => JsMap.set (fst entry) entry m) es m).
Proof.
  induction es as [|ke es IH]; intros m Hwf; cbn [fold_left]; auto.
  apply IH. now apply wf_set.
Qed.

(** First loop of [LSMTree.getAllEntries]. *)
Lemma getAllEntries_segments_spec t0 all mem l : forall acc w,
  t0 <= clock w ->
  (forall seg, In seg l -> In seg all) ->
  JsMap.wf acc -> Forall (listing_ok t0 all mem) acc ->
  exists m w',
    LSMTree.getAllEntries_segments l acc w = (Ok m, w')
    /\ time_passes w w'
    /\ JsMap.wf m
    /\ Forall (listing_ok t0 all mem) m.
Proof.
  induction l as [|seg l IH]; intros acc w Ht0 Hsub Hwf Hacc.
  - exists acc, w. cbn. unfold ret. splits; auto using time_passes_refl.
  - cbn [LSMTree.getAllEntries_segments]. unfold bind, SSTable.getAllEntries.
    destruct (SSTable_getAllEntries_loop_spec (JsMap.entries (SSTable.data seg)) [] w)
      as (kept & w1 & Hrun & Htp1 & Hkept).
    rewrite Hrun. cbn [app].
    set (acc' := fold_left _ kept acc).
    assert (Hacc' : Forall (listing_ok t0 all mem) acc').
    { apply fold_set_listing; auto. intros ke Hin.
      destruct (Hkept ke Hin) as (Hes & Hlive).
      split; [reflexivity|]. split; [eapply live_at_mono; eauto|].
      left. exists seg. split; [apply Hsub; now left|exact Hes]. }
    destruct (IH acc' w1) as (m & w' & Hrun' & Htp' & Hwfm & Hm); auto.
    + destruct Htp1. lia.
    + intros s Hin. apply Hsub. now right.
    + apply wf_fold_set_entries. exact Hwf.
    + exists m, w'. splits; auto.
      eapply time_passes_trans; eauto.
Qed.

(** Second loop of [LSMTree.getAllEntries]. *)
Lemma getAllEntries_memTable_listing (P : Key * (Key * Entry) -> Prop) es :
  forall m,
  Forall P m ->
  (forall ke, In ke es -> value (snd ke) <> None -> P (fst ke, ke)) ->
  Forall P (LSMTree.getAllEntries_memTable es m).
Proof.
  unfold LSMTree.getAllEntries_memTable.
  induction es as [|ke es IH]; intros m Hm Hes; cbn [fold_left]; auto.
  apply IH.
  - destruct (value (snd ke)) eqn:Hv.
    + apply In_set; auto. apply Hes; [now left|congruence].
    + now apply Forall_delete.
  - intros ke' Hin. apply Hes. now right.
Qed.

Lemma getAllEntries_memTable_wf es : forall m,
  JsMap.wf m -> JsMap.wf (LSMTree.getAllEntries_memTable es m).
Proof.
  unfold LSMTree.getAllEntries_memTable.
  induction es as [|ke es IH]; intros m Hwf; cbn [fold_left]; auto.
  apply IH. destruct (value (snd ke)); auto using wf_set, wf_delete.
Qed.

Lemma getAllEntries_memTable_other k es : forall m,
  ~ In k (map fst es) ->
  JsMap.get k (LSMTree.getAllEntries_memTable es m) = JsMap.get k m.
Proof.
  unfold LSMTree.getAllEntries_memTable.
  induction es as [|ke es IH]; intros m Hn; cbn [fold_left]; auto.
  cbn [map] in Hn. rewrite IH by (intros Hin; apply Hn; now right).
  assert (Hne : k <> fst ke) by (intros ->; apply Hn; now left).
  destruct (value (snd ke)); [apply get_set_other|apply get_delete_other]; auto.
Qed.

(** The entry of the MemTable decides: a value is listed, a tombstone
    removes the key. *)
Lemma getAllEntries_memTable_bound k e es : forall m,
  NoDup (map fst es) -> In (k, e) es ->
  JsMap.get k (LSMTree.getAllEntries_memTable es m) =
  match value e with
  | Some _ => Some (k, e)
  | None => None
  end.
Proof.
  induction es as [|ke es IH]; intros m Hnd Hin; [destruct Hin|].
  inversion Hnd as [|? ? Hn Hnd']; subst. destruct Hin as [->|Hin].
  - change (LSMTree.getAllEntries_memTable ((k, e) :: es) m)
      with (LSMTree.getAllEntries_memTable es
              (match value e with
               | Some _ => JsMap.set k (k, e) m
               | None => JsMap.delete k m
               end)).
    rewrite getAllEntries_memTable_other by exact Hn.
    destruct (value e); [apply get_set_same|apply get_delete_same].
  - apply (IH _ Hnd' Hin).
Qed.

Lemma values_key_bound (m : JsMap.t (Key * Entry)) k :
  Forall (fun b => fst (snd b) = fst b) m ->
  In k (map fst (JsMap.values m)) -> exists ke, JsMap.get k m = Some ke.
Proof.
  intros Hkeys Hin. unfold JsMap.values in Hin.
  apply in_map_iff in Hin. destruct Hin as (ke & Hk & Hin).
  apply in_map_iff in Hin. destruct Hin as ([k' ke'] & Heq & Hin).
  cbn in Heq. subst ke'. rewrite Forall_forall in Hkeys.
  pose proof (Hkeys _ Hin) as Hsame. cbn in Hsame.
  apply key_get_some. apply (in_map fst) in Hin. cbn in Hin. congruence.
Qed.

Lemma values_keys (m : JsMap.t (Key * Entry)) :
  Forall (fun b => fst (snd b) = fst b) m ->
  map fst (JsMap.values m) = map fst m.
Proof.
  unfold JsMap.values. induction m as [|[k ke] m IH]; intros H; cbn; auto.
  inversion H as [|? ? Hk Hm]; subst. cbn in Hk. rewrite Hk, IH; auto.
Qed.

(** [LSMTree.getAllEntries] as a whole. *)
Lemma getAllEntries_spec t w :
  JsMap.wf (MemTable.data (LSMTree.memTable t)) ->
  exists kept m w',
    let final := LSMTree.getAllEntries_memTable kept m in
    LSMTree.getAllEntries (t, w)
    = (Ok (JsMap.values final),
       (LSMTree.mk (MemTable.mk kept (MemTable.maxSize (LSMTree.memTable t)))
                   (LSMTree.ssTables t) (LSMTree.maxSSTables t)
                   (LSMTree.defaultTTL t), w'))
    /\ time_passes w w'
    /\ JsMap.wf final
    /\ Forall (listing_ok (clock w) (LSMTree.ssTables t)
                 (MemTable.data (LSMTree.memTable t))) final
    /\ JsMap.wf kept
    /\ (forall ke, In ke kept ->
          In ke (MemTable.data (LSMTree.memTable t))
          /\ expired_at (clock w) (snd ke) = false)
    /\ (forall ke, In ke (MemTable.data (LSMTree.memTable t)) ->
          expired_at (clock w') (snd ke) = false -> In ke kept).
Proof.
  intros Hwf. destruct t as [[d ms] ss mx dt]. projs. cbn [MemTable.data] in Hwf.
  unfold LSMTree.getAllEntries. unfold bind at 1. unfold this at 1. projs.
  unfold bind at 1. unfold io at 1. projs.
  destruct (getAllEntries_segments_spec (clock w) ss d ss JsMap.empty w)
    as (m & w1 & Hseg & Htp1 & Hwfm & Hm); auto; try lia; try constructor.
  rewrite Hseg. projs. unfold bind at 1.
  unfold LSMTree.on_memTable, MemTable.getAllEntries. projs.
  unfold bind at 1. unfold this at 1. projs.
  destruct (MemTable_sweep_spec d [] [] ms w1 Hwf)
    as (kept & w' & Hrun & Htp & Hwfk & Hin & Hall).
  cbn [app] in Hrun, Hwfk. unfold JsMap.entries. rewrite Hrun. projs.
  exists kept, m, w'. cbv zeta. unfold ret.
  split; [reflexivity|].
  assert (Hclk : clock w <= clock w1) by now destruct Htp1.
  splits; auto.
  - eapply time_passes_trans; eauto.
  - now apply getAllEntries_memTable_wf.
  - apply getAllEntries_memTable_listing; auto.
    intros ke Hk Hv. destruct (Hin ke Hk) as (Hd & Hlive).
    split; [reflexivity|]. split.
    + eapply live_at_mono; eauto.
    + right. auto.
  - intros ke Hk. destruct (Hin ke Hk) as (Hd & Hlive). split; auto.
    eapply live_at_mono; eauto.
Qed.

(** ** Lemmas on recovery and shutdown *)

Lemma only_reads_refl h : only_reads h h.
Proof. constructor; auto using time_passes_refl. Qed.

Lemma only_reads_trans h1 h2 h3 :
  only_reads h1 h2 -> only_reads h2 h3 -> only_reads h1 h3.
Proof.
  intros [] []. constructor; try congruence.
  eapply time_passes_trans; eauto.
Qed.

Lemma new_of_entries_spec d p w :
  exists i w',
    SSTable.new_of_entries d p w
    = (Ok (SSTable.mk (JsMap.of_pairs d) (next_now w) p i), w')
    /\ time_passes w w'.
Proof.
  unfold SSTable.new_of_entries, bind, Date_now, Math_random, ret. simpl.
  eexists. eexists. split; [reflexivity|].
  constructor; simpl; auto. unfold next_now. simpl. lia.
Qed.

(** [SSTable.loadFromDisk] never throws: it yields the segment of the file,
    or [null] when the file is missing, unreadable or malformed. *)
Lemma SSTable_loadFromDisk_spec p h :
  exists h',
    SSTable.loadFromDisk p h =
      (Ok (if next_fault (readFaults h) then None
           else option_map (loaded p) (read_file p (segFiles (host_world h)))),
       h')
    /\ only_reads h h'
    /\ readFaults h' = tl (readFaults h).
Proof.
  unfold SSTable.loadFromDisk, try_catch, bind, read_json, ret.
  destruct (next_fault (readFaults h)).
  - eexists. split; [reflexivity|]. split; [|reflexivity].
    constructor; auto using time_passes_refl.
  - destruct (read_file p (segFiles (host_world h))) as [f|].
    + unfold in_world. cbn [host_world readFaults metaFaults metaFile].
      destruct (new_of_entries_spec (file_entries f) (Some p) (host_world h))
        as (i & w' & Hn & Htp).
      rewrite Hn. eexists. split; [reflexivity|]. split; [|reflexivity].
      constructor; auto.
    + eexists. split; [reflexivity|]. split; [|reflexivity].
      constructor; auto using time_passes_refl.
Qed.

Lemma sort_insert_perm x l : Permutation (LSMTree.sort_insert x l) (x :: l).
Proof.
  induction l as [|y l IH]; cbn; auto.
  destruct (SSTable.createdAt x <=? SSTable.createdAt y); auto.
  rewrite IH. apply perm_swap.
Qed.

Lemma sort_by_createdAt_perm l : Permutation (LSMTree.sort_by_createdAt l) l.
Proof.
  unfold LSMTree.sort_by_createdAt.
  induction l as [|x l IH]; cbn; auto.
  rewrite sort_insert_perm. now constructor.
Qed.

Lemma sort_insert_ascending x l : ascending l -> ascending (LSMTree.sort_insert x l).
Proof.
  unfold ascending. induction l as [|y l IH]; intros Hs; cbn.
  - constructor; constructor.
  - inversion Hs as [|? ? Hl Hy]; subst.
    destruct (SSTable.createdAt x <=? SSTable.createdAt y) eqn:E.
    + apply Z.leb_le in E. constructor; [exact Hs|].
      constructor; [exact E|].
      eapply Forall_impl; [|exact Hy]. cbn. intros z Hz. lia.
    + apply Z.leb_gt in E. constructor; [auto|].
      eapply Permutation_Forall.
      * symmetry. apply sort_insert_perm.
      * constructor; [lia|exact Hy].
Qed.

Lemma sort_by_createdAt_ascending l : ascending (LSMTree.sort_by_createdAt l).
Proof.
  unfold LSMTree.sort_by_createdAt.
  induction l as [|x l IH]; cbn; [constructor|].
  now apply sort_insert_ascending.
Qed.

(** Sorting leaves a list that is in order as it is. *)
Lemma sort_by_createdAt_sorted l : ascending l -> LSMTree.sort_by_createdAt l = l.
Proof.
  unfold ascending, LSMTree.sort_by_createdAt.
  induction l as [|x l IH]; intros Hs; cbn; auto.
  inversion Hs as [|? ? Hl Hx]; subst. rewrite IH by assumption.
  destruct l as [|y l]; cbn; auto.
  inversion Hx; subst.
  destruct (SSTable.createdAt x <=? SSTable.createdAt y) eqn:E; auto.
  apply Z.leb_gt in E. lia.
Qed.

Lemma loadFromDisk_loop_spec files : forall t h,
  exists segs h',
    LSMTree.loadFromDisk_loop files (t, h)
    = (Ok tt, (LSMTree.mk (LSMTree.memTable t) (LSMTree.ssTables t ++ segs)
                          (LSMTree.maxSSTables t) (LSMTree.defaultTTL t), h'))
    /\ only_reads h h'
    /\ (forall seg, In seg segs ->
          exists p f, In p files
                      /\ read_file p (segFiles (host_world h)) = Some f
                      /\ seg = loaded p f)
    /\ (no_fault (readFaults h) -> segs = segments_of (host_world h) files).
Proof.
  induction files as [|p files IH]; intros t h.
  - exists [], h. cbn [LSMTree.loadFromDisk_loop]. unfold ret.
    rewrite app_nil_r. destruct t. splits; auto using only_reads_refl.
    intros seg [].
  - cbn [LSMTree.loadFromDisk_loop].
    unfold bind at 1. unfold bind at 1. unfold host_io at 1. cbn [fst snd].
    destruct (SSTable_loadFromDisk_spec p h) as (h1 & Hload & Hor1 & Hrf1).
    rewrite Hload. cbn [fst snd].
    assert (Hfiles : segFiles (host_world h1) = segFiles (host_world h)).
    { destruct Hor1 as [[] _ _]. assumption. }
    destruct (next_fault (readFaults h)) eqn:Hf.
    + unfold ret at 1. cbn [fst snd].
      destruct (IH t h1) as (segs & h' & Hrun & Hor & Hin & Hall).
      exists segs, h'. rewrite Hrun. splits; auto.
      * eapply only_reads_trans; eauto.
      * intros seg Hs. destruct (Hin seg Hs) as (q & f & Hq & Hr & Heq).
        exists q, f. rewrite Hfiles in Hr. splits; auto. now right.
      * intros Hnf. apply no_fault_next in Hnf. congruence.
    + destruct (read_file p (segFiles (host_world h))) as [f|] eqn:Hread;
        cbn [option_map].
      * unfold bind at 1. unfold host_this at 1. cbn [fst snd].
        unfold host_set_this at 1. cbn [fst snd].
        destruct (IH (LSMTree.mk (LSMTree.memTable t)
                        (LSMTree.ssTables t ++ [loaded p f])
                        (LSMTree.maxSSTables t) (LSMTree.defaultTTL t)) h1)
          as (segs & h' & Hrun & Hor & Hin & Hall).
        exists (loaded p f :: segs), h'. rewrite Hrun. projs.
        rewrite <- app_assoc. cbn [app]. splits; auto.
        -- eapply only_reads_trans; eauto.
        -- intros seg [<-|Hs].
           ++ exists p, f. splits; auto. now left.
           ++ destruct (Hin seg Hs) as (q & f' & Hq & Hr & Heq).
              exists q, f'. rewrite Hfiles in Hr. splits; auto. now right.
        -- intros Hnf. unfold segments_of. cbn [flat_map]. rewrite Hread.
           cbn [app]. f_equal.
           rewrite Hall by (rewrite Hrf1; now apply no_fault_tl).
           unfold segments_of. now rewrite Hfiles.
      * unfold ret at 1. cbn [fst snd].
        destruct (IH t h1) as (segs & h' & Hrun & Hor & Hin & Hall).
        exists segs, h'. rewrite Hrun. splits; auto.
        -- eapply only_reads_trans; eauto.
        -- intros seg Hs. destruct (Hin seg Hs) as (q & f & Hq & Hr & Heq).
           exists q, f. rewrite Hfiles in Hr. splits; auto. now right.
        -- intros Hnf. unfold segments_of. cbn [flat_map]. rewrite Hread.
           cbn [app].
           rewrite Hall by (rewrite Hrf1; now apply no_fault_tl).
           unfold segments_of. now rewrite Hfiles.
Qed.

(** The last stage of recovery: list the directory, load the segments,
    sort them. *)
Lemma load_segments_spec t h :
  exists r t' h',
    (sstableFiles <- host_io readdir_sstables ;;
     LSMTree.loadFromDisk_loop sstableFiles ;;
     self <- host_this ;;
     host_set_this
       (LSMTree.mk (LSMTree.memTable self)
                   (LSMTree.sort_by_createdAt (LSMTree.ssTables self))
                   (LSMTree.maxSSTables self) (LSMTree.defaultTTL self))) (t, h)
    = (r, (t', h'))
    /\ only_reads h h'
    /\ LSMTree.memTable t' = LSMTree.memTable t
    /\ LSMTree.maxSSTables t' = LSMTree.maxSSTables t
    /\ LSMTree.defaultTTL t' = LSMTree.defaultTTL t
    /\ (LSMTree.ssTables t = [] ->
        ascending (LSMTree.ssTables t')
        /\ forall seg, In seg (LSMTree.ssTables t') ->
             exists p f, read_file p (segFiles (host_world h)) = Some f
                         /\ seg = loaded p f)
    /\ (no_fault (readFaults h) -> LSMTree.ssTables t = [] ->
        Permutation (LSMTree.ssTables t')
          (segments_of (host_world h) (map fst (segFiles (host_world h))))).
Proof.
  unfold bind at 1. unfold host_io at 1, readdir_sstables. cbn [fst snd].
  destruct (next_fault (readFaults h)) eqn:Hf.
  - eexists. eexists. eexists. split; [reflexivity|].
    splits; auto.
    + constructor; auto using time_passes_refl.
    + intros ->. split; [constructor|intros seg []].
    + intros Hnf. apply no_fault_next in Hnf. congruence.
  - set (h1 := mkHost (host_world h) (tl (readFaults h)) (metaFaults h) (metaFile h)).
    unfold bind at 1.
    destruct (loadFromDisk_loop_spec (map fst (segFiles (host_world h))) t h1)
      as (segs & h' & Hrun & Hor & Hin & Hall).
    rewrite Hrun. unfold bind, host_this, host_set_this. cbn [fst snd]. projs.
    eexists. eexists. eexists. split; [reflexivity|].
    assert (Hor1 : only_reads h h1) by (constructor; auto using time_passes_refl).
    splits; auto.
    + eapply only_reads_trans; eauto.
    + intros ->. cbn [app]. split; [apply sort_by_createdAt_ascending|].
      intros seg Hs.
      apply (Permutation_in _ (sort_by_createdAt_perm segs)) in Hs.
      destruct (Hin seg Hs) as (p & f & _ & Hr & Heq). eauto.
    + intros Hnf ->. cbn [app].
      eapply Permutation_trans; [apply sort_by_createdAt_perm|].
      rewrite Hall; [reflexivity|]. now apply no_fault_tl.
Qed.

(** Recovery as a whole. *)
Lemma recovery_spec t h :
  LSMTree.ssTables t = [] ->
  exists t' h',
    LSMTree.loadFromDisk (t, h) = (Ok tt, (t', h'))
    /\ only_reads h h'
    /\ LSMTree.maxSSTables t' = LSMTree.maxSSTables t
    /\ MemTable.maxSize (LSMTree.memTable t') = MemTable.maxSize (LSMTree.memTable t)
    /\ ascending (LSMTree.ssTables t')
    /\ (forall seg, In seg (LSMTree.ssTables t') ->
          exists p f, read_file p (segFiles (host_world h)) = Some f
                      /\ seg = loaded p f)
    /\ LSMTree.defaultTTL t' =
       match metaFile h with
       | Some m =>
           if next_fault (readFaults h) then LSMTree.defaultTTL t
           else if truthy (Some (meta_defaultTTL m)) then meta_defaultTTL m
                else LSMTree.defaultTTL t
       | None => LSMTree.defaultTTL t
       end
    /\ (next_fault (readFaults h) = true ->
        metaFile h <> None \/ walFile (host_world h) <> None -> t' = t)
    /\ (no_fault (readFaults h) ->
        MemTable.data (LSMTree.memTable t') =
          match walFile (host_world h) with
          | Some f => JsMap.of_pairs (wal_memTable f)
          | None => MemTable.data (LSMTree.memTable t)
          end
        /\ Permutation (LSMTree.ssTables t')
             (segments_of (host_world h) (map fst (segFiles (host_world h))))).
Proof.
  intros Hss. unfold LSMTree.loadFromDisk, try_catch.
  unfold bind at 1. unfold host_this at 1. cbn [fst snd].
  unfold bind at 1. unfold host_io at 1. cbn [fst snd].
  unfold bind at 1.
  (* the metadata *)
  assert (Hmeta : exists r1 t1 h1,
    match metaFile h with
    | Some _ =>
        metadata <- host_io read_metadata ;;
        host_set_this
          (LSMTree.mk (LSMTree.memTable t) (LSMTree.ssTables t) (LSMTree.maxSSTables t)
             (if truthy (Some (meta_defaultTTL metadata))
              then meta_defaultTTL metadata else LSMTree.defaultTTL t))
    | None => ret tt
    end (t, h) = (r1, (t1, h1))
    /\ host_world h1 = host_world h /\ metaFaults h1 = metaFaults h
    /\ metaFile h1 = metaFile h
    /\ LSMTree.memTable t1 = LSMTree.memTable t
    /\ LSMTree.ssTables t1 = LSMTree.ssTables t
    /\ LSMTree.maxSSTables t1 = LSMTree.maxSSTables t
    /\ LSMTree.defaultTTL t1 =
       match metaFile h with
       | Some m =>
           if next_fault (readFaults h) then LSMTree.defaultTTL t
           else if truthy (Some (meta_defaultTTL m)) then meta_defaultTTL m
                else LSMTree.defaultTTL t
       | None => LSMTree.defaultTTL t
       end
    /\ (r1 = Ok tt \/ (r1 = Throw IoError /\ t1 = t))
    /\ (next_fault (readFaults h) = true -> metaFile h <> None ->
        r1 = Throw IoError)
    /\ (metaFile h = None -> readFaults h1 = readFaults h)
    /\ (no_fault (readFaults h) -> r1 = Ok tt /\ no_fault (readFaults h1))).
  { destruct (metaFile h) as [m|] eqn:Hmf.
    - unfold bind, host_io, read_metadata, host_set_this. cbn [fst snd].
      rewrite Hmf. destruct (next_fault (readFaults h)) eqn:Hf.
      + eexists. eexists. eexists. split; [reflexivity|]. cbn.
        splits; auto; try discriminate.
        intros Hnf. apply no_fault_next in Hnf. congruence.
      + eexists. eexists. eexists. split; [reflexivity|]. cbn.
        splits; auto; try discriminate.
        intros Hnf. split; [reflexivity|now apply no_fault_tl].
    - exists (Ok tt), t, h. unfold ret. splits; auto.
      intros _ Hn. now contradiction Hn. }
  destruct Hmeta as (r1 & t1 & h1 & Hrun1 & Hw1 & Hmf1 & Hm1 & Hmt1 & Hss1 & Hmx1
                     & Httl1 & Hr1 & Hthrow1 & Hsame1 & Hnf1).
  rewrite Hrun1. clear Hrun1.
  assert (Hor1 : only_reads h h1).
  { constructor; auto. rewrite Hw1. apply time_passes_refl. }
  destruct Hr1 as [->|(-> & ->)].
  2:{ (* the metadata cannot be read: nothing is restored *)
      exists t, h1. unfold ret. split; [reflexivity|].
      splits; auto.
      - rewrite Hss. constructor.
      - rewrite Hss. intros seg [].
      - intros Hnf. destruct (Hnf1 Hnf) as (Hr & _). discriminate. }
  (* the WAL *)
  unfold bind at 1.
  assert (Hwal : exists r2 t2 h2,
    match walFile (host_world h) with
    | Some _ =>
        walData <- host_io (read_json walFile) ;;
        on_world (LSMTree.on_memTable (MemTable.fromJSON (wal_memTable walData)))
    | None => ret tt
    end (t1, h1) = (r2, (t2, h2))
    /\ host_world h2 = host_world h /\ metaFaults h2 = metaFaults h
    /\ metaFile h2 = metaFile h
    /\ LSMTree.ssTables t2 = LSMTree.ssTables t
    /\ LSMTree.maxSSTables t2 = LSMTree.maxSSTables t
    /\ LSMTree.defaultTTL t2 = LSMTree.defaultTTL t1
    /\ MemTable.maxSize (LSMTree.memTable t2) = MemTable.maxSize (LSMTree.memTable t)
    /\ (r2 = Ok tt \/ (r2 = Throw IoError /\ t2 = t1))
    /\ (next_fault (readFaults h1) = true -> walFile (host_world h) <> None ->
        r2 = Throw IoError)
    /\ (no_fault (readFaults h1) ->
        r2 = Ok tt /\ no_fault (readFaults h2)
        /\ MemTable.data (LSMTree.memTable t2) =
           match walFile (host_world h) with
           | Some f => JsMap.of_pairs (wal_memTable f)
           | None => MemTable.data (LSMTree.memTable t)
           end)).
  { destruct (walFile (host_world h)) as [f|] eqn:Hwf.
    - unfold bind, host_io, read_json, on_world, LSMTree.on_memTable,
        MemTable.fromJSON, this, set_this. cbn [fst snd].
      rewrite Hw1, Hwf. destruct (next_fault (readFaults h1)) eqn:Hf.
      + eexists. eexists. eexists. split; [reflexivity|]. cbn.
        splits; auto; try congruence.
        intros Hnf. apply no_fault_next in Hnf. congruence.
      + eexists. eexists. eexists. split; [reflexivity|]. cbn.
        splits; auto; try congruence; try discriminate.
        intros Hnf. splits; auto using no_fault_tl.
    - exists (Ok tt), t1, h1. unfold ret. splits; auto; try congruence.
      intros Hnf. splits; auto. congruence. }
  destruct Hwal as (r2 & t2 & h2 & Hrun2 & Hw2 & Hmf2 & Hm2 & Hss2 & Hmx2 & Httl2
                    & Hms2 & Hr2 & Hthrow2 & Hnf2).
  rewrite Hrun2. clear Hrun2.
  assert (Hor2 : only_reads h h2).
  { constructor; auto. rewrite Hw2. apply time_passes_refl. }
  destruct Hr2 as [->|(-> & ->)].
  2:{ (* the WAL cannot be read: the segments are not loaded *)
      exists t1, h2. unfold ret. split; [reflexivity|].
      splits; auto; try congruence.
      - rewrite Hss1, Hss. constructor.
      - rewrite Hss1, Hss. intros seg [].
      - intros Hf Hor. destruct t, t1. cbn in *.
        destruct (metaFile h) eqn:E; [rewrite Hf in Httl1|]; congruence.
      - intros Hnf. destruct (Hnf1 Hnf) as (_ & Hnf').
        destruct (Hnf2 Hnf') as (Hr & _). discriminate. }
  (* the segments *)
  destruct (load_segments_spec t2 h2)
    as (r3 & t3 & h3 & Hrun3 & Hor3 & Hmt3 & Hmx3 & Httl3 & Hsorted & Hperm).
  rewrite Hrun3. clear Hrun3.
  assert (Hfin : exists r, (let (r0, s') := (r3, (t3, h3)) in
                            match r0 with
                            | Ok a => (Ok a, s')
                            | Throw _ => ret tt s'
                            end) = (Ok r, (t3, h3))).
  { destruct r3 as [[]|e]; eexists; reflexivity. }
  destruct Hfin as ([] & Hfin). rewrite Hfin.
  exists t3, h3. split; [reflexivity|].
  destruct (Hsorted (eq_trans Hss2 Hss)) as (Hasc & Hsound).
  rewrite Hw2 in Hsound, Hperm.
  splits; auto; try congruence.
  - eapply only_reads_trans; eauto.
  - intros Hf Hor. exfalso. destruct Hor as [Hmeta|Hwalf].
    + specialize (Hthrow1 Hf Hmeta). discriminate.
    + destruct (metaFile h) eqn:E.
      * assert (Hne : Some m <> None) by discriminate.
        specialize (Hthrow1 Hf Hne). discriminate.
      * rewrite <- (Hsame1 eq_refl) in Hf.
        specialize (Hthrow2 Hf Hwalf). discriminate.
  - intros Hnf. destruct (Hnf1 Hnf) as (_ & Hnf').
    destruct (Hnf2 Hnf') as (_ & Hnf'' & Hdata).
    split; [rewrite Hmt3; exact Hdata|].
    apply Hperm; auto. congruence.
Qed.

Lemma constructor_run a b h :
  LSMTree.constructor a b h =
  (Ok (fst (snd (LSMTree.loadFromDisk (LSMTree.new a b, h)))),
   snd (snd (LSMTree.loadFromDisk (LSMTree.new a b, h)))).
Proof.
  unfold LSMTree.constructor.
  destruct (LSMTree.loadFromDisk (LSMTree.new a b, h)) as [r [t' h']]. reflexivity.
Qed.

Lemma read_file_listed p f files :
  read_file p files = Some f -> In p (map fst files).
Proof.
  induction files as [|[q c] files IH]; cbn; [discriminate|].
  destruct (Path_eqb p q) eqn:E.
  - apply Path_eqb_eq in E. subst. now left.
  - right. auto.
Qed.

Lemma listed_read_file p files :
  In p (map fst files) -> exists f, read_file p files = Some f.
Proof.
  induction files as [|[q c] files IH]; cbn; [intros []|].
  destruct (Path_eqb p q) eqn:E; [eauto|].
  intros [->|Hin]; [now rewrite Path_eqb_refl in E|auto].
Qed.

Lemma segments_of_length w files :
  (forall p, In p files -> In p (map fst (segFiles w))) ->
  List.length (segments_of w files) = List.length files.
Proof.
  unfold segments_of. induction files as [|p files IH]; intros Hsub; cbn; auto.
  destruct (listed_read_file p (segFiles w)) as (f & Hf); [apply Hsub; now left|].
  rewrite Hf. cbn. rewrite IH; auto. intros q Hq. apply Hsub. now right.
Qed.

Lemma saveMetadata_spec t h :
  exists h',
    LSMTree.saveMetadata (t, h) = (Ok tt, (t, h'))
    /\ time_passes (host_world h) (host_world h')
    /\ readFaults h' = readFaults h
    /\ metaFaults h' = tl (metaFaults h)
    /\ metaFile h' =
       if next_fault (metaFaults h) then metaFile h
       else Some (mkMetaFile (LSMTree.defaultTTL t) (next_now (host_world h))).
Proof.
  unfold LSMTree.saveMetadata, try_catch, bind, host_this, host_io, in_world,
    write_metadata, Date_now, ret.
  cbn [fst snd host_world readFaults metaFaults metaFile].
  destruct (next_fault (metaFaults h)); cbn [fst snd];
    eexists; (split; [reflexivity|]); cbn; splits; auto;
    constructor; cbn; auto using next_now_ge.
Qed.

Lemma shutdown_unfold t h :
  LSMTree.shutdown (t, h) =
  match LSMTree.flush (t, host_world h) with
  | (Ok _, (t', w')) =>
      LSMTree.saveMetadata (t', mkHost w' (readFaults h) (metaFaults h) (metaFile h))
  | (Throw e, (t', w')) =>
      (Throw e, (t', mkHost w' (readFaults h) (metaFaults h) (metaFile h)))
  end.
Proof.
  unfold LSMTree.shutdown, bind, on_world. cbn [fst snd].
  destruct (LSMTree.flush (t, host_world h)) as [[u|e] [t' w']]; reflexivity.
Qed.

(** A [flush] that returns leaves the MemTable empty and the configuration
    as it was. *)
Lemma flush_ok_empties t w :
  fst (LSMTree.flush (t, w)) = Ok tt ->
  MemTable.size (LSMTree.memTable (fst (snd (LSMTree.flush (t, w))))) = O
  /\ LSMTree.defaultTTL (fst (snd (LSMTree.flush (t, w)))) = LSMTree.defaultTTL t
  /\ clock w <= clock (snd (snd (LSMTree.flush (t, w)))).
Proof.
  destruct (MemTable.size (LSMTree.memTable t)) eqn:Hsz.
  - rewrite flush_empty by assumption. cbn [fst snd]. intros _. splits; auto. lia.
  - destruct (flush_cases t w) as (i & w2 & H & Hclk & _); [congruence|].
    cbv zeta in H. rewrite H. clear H.
    destruct (next_fault (segFaults w)); [discriminate|].
    set (t2 := flushed t _).
    destruct (after_saveWAL_spec t2 w2) as (Hclk2 & _).
    match goal with |- context [if ?c then _ else _] => destruct c end.
    + intros _.
      destruct (compact_frame t2 (after_saveWAL t2 w2)) as (Hmt & _ & Httl & _ & _ & Hclk3 & _).
      unfold MemTable.size. rewrite Hmt, Httl. splits; auto. lia.
    + intros _. cbn [fst snd]. splits; auto. lia.
Qed.

(** ** Lemmas on the routes *)

Lemma MemTable_getAllEntries_loop_total es : forall acc mt w,
  exists r mt' w',
    MemTable.getAllEntries_loop es acc (mt, w) = (Ok r, (mt', w')).
Proof.
  induction es as [|[k e] es IH]; intros acc mt w.
  - cbn. unfold ret. eauto.
  - cbn [MemTable.getAllEntries_loop]. unfold bind at 1. unfold io at 1.
    cbn [fst snd]. rewrite is_live_run.
    destruct (negb (expired_at (next_now w) e)).
    + apply IH.
    + unfold bind at 1. unfold this at 1. cbn [fst snd].
      unfold bind at 1. unfold set_this at 1. cbn [fst snd]. apply IH.
Qed.

(** [getAllEntries] never throws. *)
Lemma getAllEntries_total t w :
  exists r t' w', LSMTree.getAllEntries (t, w) = (Ok r, (t', w')).
Proof.
  destruct t as [[d ms] ss mx dt].
  unfold LSMTree.getAllEntries. unfold bind at 1. unfold this at 1. projs.
  unfold bind at 1. unfold io at 1. projs.
  destruct (getAllEntries_segments_spec (clock w) ss d ss JsMap.empty w)
    as (m & w1 & Hseg & _); auto; try lia; try constructor.
  rewrite Hseg. projs. unfold bind at 1.
  unfold LSMTree.on_memTable, MemTable.getAllEntries. projs.
  unfold bind at 1. unfold this at 1. projs.
  destruct (MemTable_getAllEntries_loop_total (JsMap.entries d) []
              (MemTable.mk d ms) w1) as (r & mt' & w' & Hrun).
  rewrite Hrun. projs. unfold ret. eauto.
Qed.

(** [get] never throws. *)
Lemma get_total key t w :
  exists r t' w', LSMTree.get key (t, w) = (Ok r, (t', w')).
Proof.
  rewrite LSMTree_get_unfold.
  destruct (JsMap.get key (MemTable.data (LSMTree.memTable t))) as [e|].
  - destruct (expired_at (next_now w) e); [|eauto].
    destruct (get_loop_spec key (rev (LSMTree.ssTables t)) (read_if_expiring e w))
      as (r & w' & H & _). rewrite H. cbn [fst snd]. eauto.
  - destruct (get_loop_spec key (rev (LSMTree.ssTables t)) w) as (r & w' & H & _).
    rewrite H. cbn [fst snd]. eauto.
Qed.

Lemma delete_route_run key t w :
  Api.delete_cache_key key (t, w) =
  (Ok (Api.mkResponse 200 (Api.Message "Entry deleted successfully")),
   snd (LSMTree.delete key (t, w))).
Proof.
  unfold Api.delete_cache_key, try_catch, bind. rewrite delete_unfold. reflexivity.
Qed.

Lemma SSTable_getAllEntries_loop_complete es : forall acc w,
  exists kept w',
    SSTable.getAllEntries_loop es acc w = (Ok (acc ++ kept), w')
    /\ time_passes w w'
    /\ (forall ke, In ke kept -> In ke es /\ expired_at (clock w) (snd ke) = false)
    /\ (forall ke, In ke es -> expired_at (clock w') (snd ke) = false -> In ke kept).
Proof.
  induction es as [|[k e] es IH]; intros acc w.
  - exists [], w. cbn. unfold ret. rewrite app_nil_r.
    splits; auto using time_passes_refl. intros ke [].
  - cbn [SSTable.getAllEntries_loop]. unfold bind. rewrite is_live_run.
    pose proof (read_if_expiring_time e w) as Htp1.
    pose proof (read_if_expiring_clock e w) as Hclk.
    set (w1 := read_if_expiring e w) in *.
    destruct (expired_at (next_now w) e) eqn:Hx; cbn [negb].
    + destruct (IH acc w1) as (kept & w' & Hrun & Htp & Hin & Hall).
      exists kept, w'. splits; auto.
      * eapply time_passes_trans; eauto.
      * intros ke Hk. destruct (Hin ke Hk) as (Hes & Hlive). split; [now right|].
        apply (live_at_mono (snd ke) (clock w) (clock w1)); auto.
        now destruct Htp1.
      * intros ke [<-|Hes] Hlive; [|auto]. cbn [snd] in Hlive. exfalso.
        rewrite (expired_at_mono e (clock w1) (clock w')) in Hlive;
          [discriminate| now destruct Htp |congruence].
    + destruct (IH (acc ++ [(k, e)]) w1) as (kept & w' & Hrun & Htp & Hin & Hall).
      exists ((k, e) :: kept), w'. rewrite Hrun, <- app_assoc. cbn [app].
      splits; auto.
      * eapply time_passes_trans; eauto.
      * intros ke [<-|Hk].
        -- split; [now left|]. cbn [snd].
           apply (live_at_mono e (clock w) (next_now w)); auto using next_now_ge.
        -- destruct (Hin ke Hk) as (Hes & Hlive). split; [now right|].
           apply (live_at_mono (snd ke) (clock w) (clock w1)); auto.
           now destruct Htp1.
      * intros ke [<-|Hes] Hlive; [now left|right; auto].
Qed.

(** ** Further properties of the engine *)

(** *** Lookups *)

(** X1.  [get] of a key that neither the MemTable nor any segment binds is
    a miss that changes nothing: not the engine, not the disk, and the
    clock is not even read. *)
Theorem get_unbound_key_is_miss s key :
  JsMap.get key (MemTable.data (LSMTree.memTable (tree s))) = None ->
  unbound_in_segments key (LSMTree.ssTables (tree s)) ->
  LSMTree.get key s = (Ok None, s).
Proof.
  destruct s as [t w]. unfold tree. cbn [fst]. intros Hm Hun.
  rewrite LSMTree_get_unfold, Hm, get_loop_unbound; [reflexivity|].
  intros seg Hin. apply Hun. now apply in_rev.
Qed.

Lemma get_unbound_key_is_miss_witness :
  LSMTree.get "c" two_segments = (Ok None, two_segments).
Proof.
  apply (get_unbound_key_is_miss two_segments "c").
  - reflexivity.
  - intros seg Hin. cbn in Hin.
    destruct Hin as [<-|[<-|[]]]; reflexivity.
Defined.

(** X2.  Shadowing.  An unexpired entry of the MemTable is what [get]
    returns, whatever the segments hold.  When the MemTable does not bind
    the key, [get] returns the unexpired entry of the newest segment that
    binds it.  In both cases the engine is left as it was. *)
Theorem get_prefers_memTable_then_newest_segment s key e :
  expired_at (next_now (world s)) e = false ->
  JsMap.get key (MemTable.data (LSMTree.memTable (tree s))) = Some e
  \/ (JsMap.get key (MemTable.data (LSMTree.memTable (tree s))) = None
      /\ exists older seg newer,
           LSMTree.ssTables (tree s) = older ++ seg :: newer
           /\ unbound_in_segments key newer
           /\ JsMap.get key (SSTable.data seg) = Some e) ->
  LSMTree.get key s = (Ok (Some e), (tree s, read_if_expiring e (world s))).
Proof.
  destruct s as [t w]. unfold tree, world. cbn [fst snd]. intros Hx Hcases.
  rewrite LSMTree_get_unfold.
  destruct Hcases as [Hm|(Hm & older & seg & newer & Hss & Hun & Hg)].
  - rewrite Hm, Hx. reflexivity.
  - rewrite Hm, Hss, rev_app_distr. cbn [rev]. rewrite <- app_assoc. cbn [app].
    rewrite (get_loop_first_live key e seg (rev newer) (rev older) w); auto.
    intros s Hin. apply Hun. now apply in_rev.
Qed.

Lemma get_prefers_memTable_then_newest_segment_witness :
  LSMTree.get "k" overwritten_in_segments
  = (Ok (Some (mkEntry (Some "new") None 1006)), overwritten_in_segments).
Proof.
  apply (get_prefers_memTable_then_newest_segment overwritten_in_segments "k"
           (mkEntry (Some "new") None 1006)).
  - reflexivity.
  - right. split; [reflexivity|].
    eexists (cons _ nil), _, nil. split; [reflexivity|].
    split; [intros seg []|reflexivity].
Defined.

(** X3.  Time to live.  Take an integer ttl other than zero, with the clock
    reading, the ttl and their sum among the safe integers, where
    [Date.now() + ttl] is exact.  After [put(key, value, ttl)] that leaves
    the entry in the MemTable, [get] returns the value, stored with
    [expiresAt = now + ttl], as long as the clock has not passed
    [now + ttl], and at any time when [now + ttl] is [0]: an [expiresAt] of
    [0] counts as no expiry.  Once the clock has passed [now + ttl], if
    [now + ttl] is not [0] and no segment binds the key, [get] is a miss
    and removes the entry from the MemTable. *)
Theorem put_get_within_ttl s key p n w' :
  n <> 0 ->
  safe_integer (next_now (world s)) -> safe_integer n ->
  safe_integer (next_now (world s) + n) ->
  reports_full key (LSMTree.memTable (tree s)) = false ->
  let s1 := snd (LSMTree.put key (Some p) (TtlNum n) s) in
  let expiry := next_now (world s) + n in
  (next_now w' <= expiry \/ expiry = 0 ->
   exists e,
     LSMTree.get key (tree s1, w') = (Ok (Some e), (tree s1, read_if_expiring e w'))
     /\ value e = Some p /\ expiresAt e = Some expiry)
  /\ (expiry < next_now w' -> expiry <> 0 ->
      unbound_in_segments key (LSMTree.ssTables (tree s)) ->
      fst (LSMTree.get key (tree s1, w')) = Ok None
      /\ JsMap.get key (MemTable.data (LSMTree.memTable
                          (tree (snd (LSMTree.get key (tree s1, w')))))) = None).
Proof.
  destruct s as [t w]. unfold tree, world. cbn [fst snd].
  intros Hn _ _ _ Hfull. cbv zeta. rewrite put_unfold. cbv zeta. rewrite Hfull.
  cbn [resolve_ttl]. projs.
  assert (He : stored_entry (Some p) (Some n) w
               = mkEntry (Some p) (Some (next_now w + n)) (next_now (snd (Date_now w)))).
  { unfold stored_entry. simpl truthy.
    destruct (n =? 0) eqn:E; [apply Z.eqb_eq in E; contradiction|]. reflexivity. }
  rewrite He.
  set (e := mkEntry (Some p) (Some (next_now w + n)) (next_now (snd (Date_now w)))).
  assert (Hg : JsMap.get key (MemTable.data (LSMTree.memTable (inserted key e t)))
               = Some e).
  { unfold inserted. projs. apply get_set_same. }
  split.
  - intros Hle. exists e. split; [|split; reflexivity].
    rewrite LSMTree_get_unfold, Hg.
    assert (Hx : expired_at (next_now w') e = false).
    { unfold expired_at, e. cbn [expiresAt truthy].
      apply andb_false_iff. destruct Hle as [Hle|Hz].
      - right. rewrite Z.gtb_ltb. apply Z.ltb_ge. lia.
      - left. apply negb_false_iff. now apply Z.eqb_eq. }
    rewrite Hx. reflexivity.
  - intros Hlt Hnz Hun.
    rewrite LSMTree_get_unfold, Hg.
    assert (Hx : expired_at (next_now w') e = true).
    { unfold expired_at, e. cbn [expiresAt truthy].
      apply andb_true_iff. split.
      - apply negb_true_iff. now apply Z.eqb_neq.
      - apply Z.gtb_lt. lia. }
    rewrite Hx. cbn [fst snd]. rewrite get_loop_unbound.
    + split; [reflexivity|]. cbn [snd]. unfold evicted. projs.
      apply get_delete_same.
    + unfold inserted. projs. intros seg Hin. apply Hun. now apply in_rev.
Qed.

Lemma put_get_within_ttl_witness :
  (exists e,
     LSMTree.get "e" (tree (snd (LSMTree.put "e" (Some "x") (TtlNum 50) (fresh 4 2))),
                      calm 1040 [])
     = (Ok (Some e),
        (tree (snd (LSMTree.put "e" (Some "x") (TtlNum 50) (fresh 4 2))),
         read_if_expiring e (calm 1040 [])))
     /\ value e = Some "x" /\ expiresAt e = Some 1051)
  /\ fst (LSMTree.get "e"
            (tree (snd (LSMTree.put "e" (Some "x") (TtlNum 50) (fresh 4 2))),
             calm 1100 []))
     = Ok None
  /\ (exists e,
       LSMTree.get "e"
         (tree (snd (LSMTree.put "e" (Some "x") (TtlNum (-1001)) (fresh 4 2))),
          calm 5000 [])
       = (Ok (Some e),
          (tree (snd (LSMTree.put "e" (Some "x") (TtlNum (-1001)) (fresh 4 2))),
           read_if_expiring e (calm 5000 [])))
       /\ value e = Some "x" /\ expiresAt e = Some 0).
Proof.
  assert (Hn : 50 <> 0) by discriminate.
  assert (Hn' : -1001 <> 0) by discriminate.
  assert (Hnow : safe_integer (next_now (world (fresh 4 2))))
    by (vm_compute; split; reflexivity).
  assert (Httl : safe_integer 50) by (vm_compute; split; reflexivity).
  assert (Httl' : safe_integer (-1001)) by (vm_compute; split; reflexivity).
  assert (Hsum : safe_integer (next_now (world (fresh 4 2)) + 50))
    by (vm_compute; split; reflexivity).
  assert (Hsum' : safe_integer (next_now (world (fresh 4 2)) + -1001))
    by (vm_compute; split; reflexivity).
  assert (Hfull : reports_full "e" (LSMTree.memTable (tree (fresh 4 2))) = false)
    by reflexivity.
  split; [|split].
  - destruct (put_get_within_ttl (fresh 4 2) "e" "x" 50 (calm 1040 [])
                Hn Hnow Httl Hsum Hfull)
      as (Hlive & _).
    apply Hlive. left. vm_compute. discriminate.
  - destruct (put_get_within_ttl (fresh 4 2) "e" "x" 50 (calm 1100 [])
                Hn Hnow Httl Hsum Hfull)
      as (_ & Hgone).
    apply Hgone.
    + vm_compute. reflexivity.
    + vm_compute. discriminate.
    + intros seg [].
  - destruct (put_get_within_ttl (fresh 4 2) "e" "x" (-1001) (calm 5000 [])
                Hn' Hnow Httl' Hsum' Hfull)
      as (Hlive & _).
    apply Hlive. right. reflexivity.
Defined.

(** *** Flush *)

(** X4.  When the segment file cannot be written, [flush] fails with
    [IoError] and changes nothing that matters: the MemTable, the segment
    list, the WAL and the segment files are as before. *)
Theorem flush_failure_changes_nothing s :
  MemTable.size (LSMTree.memTable (tree s)) <> O ->
  next_fault (segFaults (world s)) = true ->
  fst (LSMTree.flush s) = Throw IoError
  /\ tree (snd (LSMTree.flush s)) = tree s
  /\ walFile (world (snd (LSMTree.flush s))) = walFile (world s)
  /\ segFiles (world (snd (LSMTree.flush s))) = segFiles (world s).
Proof.
  destruct s as [t w]. unfold tree, world. cbn [fst snd]. intros Hsz Hf.
  destruct (flush_cases t w Hsz) as (i & w2 & H & _ & Hwal & _ & _ & _ & Hfiles).
  cbv zeta in H. rewrite Hf in H, Hfiles. rewrite H. cbn [fst snd]. auto.
Qed.

Lemma flush_failure_changes_nothing_witness :
  fst (LSMTree.flush one_entry_segment_rejects) = Throw IoError
  /\ tree (snd (LSMTree.flush one_entry_segment_rejects))
     = tree one_entry_segment_rejects
  /\ walFile (world (snd (LSMTree.flush one_entry_segment_rejects)))
     = walFile (world one_entry_segment_rejects)
  /\ segFiles (world (snd (LSMTree.flush one_entry_segment_rejects)))
     = segFiles (world one_entry_segment_rejects).
Proof.
  apply (flush_failure_changes_nothing one_entry_segment_rejects).
  - vm_compute. discriminate.
  - reflexivity.
Defined.

(** X5.  The segment list stays bounded.  A [flush] that returns leaves at
    most [maxSSTables] segments (at most one when [maxSSTables] is below
    one), and so does a [put] that returns, on an engine that was within the
    bound. *)
Theorem successful_put_keeps_segments_bounded s key v ttl :
  (MemTable.size (LSMTree.memTable (tree s)) <> O ->
   fst (LSMTree.flush s) = Ok tt ->
   segments_bounded (tree (snd (LSMTree.flush s))))
  /\ (segments_bounded (tree s) ->
      fst (LSMTree.put key v ttl s) = Ok tt ->
      segments_bounded (tree (snd (LSMTree.put key v ttl s)))).
Proof.
  assert (Hflush : forall t w,
            MemTable.size (LSMTree.memTable t) <> O ->
            fst (LSMTree.flush (t, w)) = Ok tt ->
            segments_bounded (fst (snd (LSMTree.flush (t, w))))).
  { intros t w Hsz.
    destruct (flush_cases t w Hsz) as (i & w2 & H & _). cbv zeta in H. rewrite H.
    clear H. destruct (next_fault (segFaults w)); [discriminate|].
    set (t2 := flushed t _).
    destruct (Z.of_nat (List.length (LSMTree.ssTables t2)) >? LSMTree.maxSSTables t)
      eqn:Hgt.
    - intros Hok.
      destruct (compact_frame t2 (after_saveWAL t2 w2)) as (_ & Hmx & _).
      destruct (Z.of_nat (List.length (LSMTree.ssTables t2)) <=? 1) eqn:Hlen.
      + rewrite compact_small by assumption. unfold segments_bounded.
        cbn [fst snd]. apply Z.leb_le in Hlen. lia.
      + destruct (compact_ok t2 _ Hlen Hok) as (seg & w1 & Hss & _).
        unfold segments_bounded. rewrite Hss. cbn [List.length]. lia.
    - intros _. unfold segments_bounded. cbn [fst snd].
      rewrite Z.gtb_ltb in Hgt. apply Z.ltb_ge in Hgt.
      unfold t2 at 2. unfold flushed. projs. fold t2. lia. }
  destruct s as [t w]. unfold tree. cbn [fst snd]. split; [apply Hflush|].
  intros Hb. rewrite put_unfold. cbv zeta.
  destruct (reports_full key (LSMTree.memTable t)).
  - apply Hflush. unfold inserted, MemTable.size. projs. apply size_set_pos.
  - intros _. exact Hb.
Qed.

Lemma successful_put_keeps_segments_bounded_witness :
  segments_bounded (tree (snd (LSMTree.flush one_entry)))
  /\ segments_bounded
       (tree (snd (LSMTree.put "c" (Some "3") (TtlNum 60000) two_segments))).
Proof.
  destruct (successful_put_keeps_segments_bounded one_entry "c" (Some "3") (TtlNum 60000))
    as (Hflush & _).
  destruct (successful_put_keeps_segments_bounded two_segments "c" (Some "3") (TtlNum 60000))
    as (_ & Hput).
  split.
  - apply Hflush; [vm_compute; discriminate|reflexivity].
  - apply Hput; [vm_compute; discriminate|reflexivity].
Defined.

(** X6.  The MemTable stays below its capacity across [put]: after a [put]
    that returns, the MemTable is empty or holds fewer than [maxSize]
    entries. *)
Theorem successful_put_keeps_memTable_below_capacity s key v ttl :
  fst (LSMTree.put key v ttl s) = Ok tt ->
  memTable_below_capacity (tree (snd (LSMTree.put key v ttl s))).
Proof.
  destruct s as [t w]. unfold tree. rewrite put_unfold. cbv zeta.
  set (t1 := inserted key _ t). set (w2 := after_saveWAL t1 _).
  destruct (reports_full key (LSMTree.memTable t)) eqn:Hfull.
  - intros Hok. left.
    assert (Hsz : MemTable.size (LSMTree.memTable t1) <> O).
    { unfold t1, inserted, MemTable.size. projs. apply size_set_pos. }
    destruct (flush_cases t1 w2 Hsz) as (i & w3 & H & _). cbv zeta in H.
    rewrite H in *. clear H.
    destruct (next_fault (segFaults w2)); [discriminate|].
    set (t2 := flushed t1 _) in *.
    match goal with |- context [if ?c then _ else _] => destruct c end.
    + destruct (compact_frame t2 (after_saveWAL t2 w3)) as (Hmt & _).
      unfold MemTable.size. rewrite Hmt. reflexivity.
    + reflexivity.
  - intros _. right. cbn [fst snd]. unfold t1, inserted, MemTable.size. projs.
    rewrite size_set. unfold reports_full in Hfull.
    rewrite Z.geb_leb in Hfull. apply Z.leb_gt in Hfull. exact Hfull.
Qed.

Lemma successful_put_keeps_memTable_below_capacity_witness :
  memTable_below_capacity
    (tree (snd (LSMTree.put "c" (Some "3") (TtlNum 60000) two_segments))).
Proof.
  apply (successful_put_keeps_memTable_below_capacity two_segments).
  reflexivity.
Defined.

(** *** Compaction *)

(** X7.  What compaction keeps for a key.  If a segment binds the key to a
    value without expiry and every newer segment binds the key to nothing or
    to a tombstone, the compacted segment binds the key to that value: a
    newer value wins over older ones, but a tombstone in a newer segment
    does not remove the older value, which the compacted segment holds
    again. *)
Theorem compact_keeps_newest_value s older seg newer key e :
  wf_engine (tree s) ->
  LSMTree.ssTables (tree s) = older ++ seg :: newer ->
  (1 < List.length (LSMTree.ssTables (tree s)))%nat ->
  JsMap.get key (SSTable.data seg) = Some e ->
  value e <> None -> expiresAt e = None ->
  Forall (deleted_in key) newer ->
  fst (LSMTree.compact s) = Ok tt ->
  exists out,
    LSMTree.ssTables (tree (snd (LSMTree.compact s))) = [out]
    /\ JsMap.get key (SSTable.data out) = Some e.
Proof.
  destruct s as [t w]. unfold tree. cbn [fst snd].
  intros (_ & Hwf) Hss Hlen Hg Hv Hx Hdel Hok.
  assert (Hlen' : (Z.of_nat (List.length (LSMTree.ssTables t)) <=? 1) = false)
    by (apply Z.leb_gt; lia).
  destruct (compact_ok t w Hlen' Hok) as (out & w1 & Hout & Hmerge & _).
  exists out. split; [exact Hout|].
  rewrite Hss in Hmerge, Hwf. rewrite compact_merge_app in Hmerge.
  unfold bind in Hmerge.
  destruct (compact_merge_spec older JsMap.empty w) as (m1 & w2 & Hm1 & _).
  rewrite Hm1 in Hmerge. cbn [LSMTree.compact_merge] in Hmerge.
  unfold bind in Hmerge.
  destruct (LSMTree.compact_entries (JsMap.entries (SSTable.data seg)) m1 w2)
    as [[m2|err] w3] eqn:Hent; [|discriminate].
  apply Forall_app in Hwf. destruct Hwf as (_ & Hwf).
  inversion Hwf as [|? ? Hwseg Hwnewer]; subst.
  rewrite (compact_merge_deleted key newer m2 w3 _ _ Hwnewer Hdel Hmerge).
  apply (compact_entries_get key e (JsMap.entries (SSTable.data seg)) m1 w2 m2 w3);
    auto.
  apply get_In. exact Hg.
Qed.

Lemma compact_keeps_newest_value_witness :
  exists out,
    LSMTree.ssTables (tree (snd (LSMTree.compact deleted_in_newer_segment))) = [out]
    /\ JsMap.get "k" (SSTable.data out) = Some (mkEntry (Some "old") None 1003).
Proof.
  assert (Hwf : wf_engine (tree deleted_in_newer_segment)).
  { split; [constructor|]. cbn.
    repeat constructor; cbn; intuition discriminate. }
  eapply (compact_keeps_newest_value deleted_in_newer_segment
            nil _ (cons _ nil) "k" (mkEntry (Some "old") None 1003) Hwf).
  - reflexivity.
  - vm_compute. lia.
  - reflexivity.
  - discriminate.
  - reflexivity.
  - constructor; [|constructor]. vm_compute. reflexivity.
  - reflexivity.
Defined.

(** *** Listing *)

(** X8.  No entry that [getAllEntries] returns had expired when the
    listing began, and each comes from a segment or is a value (no
    tombstone) of the MemTable. *)
Theorem list_entries_are_live s :
  JsMap.wf (MemTable.data (LSMTree.memTable (tree s))) ->
  exists es,
    fst (LSMTree.getAllEntries s) = Ok es
    /\ forall k e, In (k, e) es ->
         expired_at (clock (world s)) e = false
         /\ ((exists seg, In seg (LSMTree.ssTables (tree s))
                          /\ In (k, e) (SSTable.data seg))
             \/ (In (k, e) (MemTable.data (LSMTree.memTable (tree s)))
                 /\ value e <> None)).
Proof.
  destruct s as [t w]. unfold tree, world. cbn [fst snd]. intros Hwf.
  destruct (getAllEntries_spec t w Hwf) as (kept & m & w' & Hrun & _ & _ & Hok & _).
  cbv zeta in Hrun, Hok. rewrite Hrun. cbn [fst].
  eexists. split; [reflexivity|].
  intros k e Hin. unfold JsMap.values in Hin. apply in_map_iff in Hin.
  destruct Hin as ([k' ke] & Heq & Hin). cbn in Heq. subst ke.
  rewrite Forall_forall in Hok. destruct (Hok _ Hin) as (_ & Hlive & Horigin).
  cbn in Hlive, Horigin. auto.
Qed.

Lemma list_entries_are_live_witness :
  exists es,
    fst (LSMTree.getAllEntries shadowed_in_memTable) = Ok es
    /\ forall k e, In (k, e) es ->
         expired_at (clock (world shadowed_in_memTable)) e = false
         /\ ((exists seg, In seg (LSMTree.ssTables (tree shadowed_in_memTable))
                          /\ In (k, e) (SSTable.data seg))
             \/ (In (k, e) (MemTable.data (LSMTree.memTable (tree shadowed_in_memTable)))
                 /\ value e <> None)).
Proof.
  apply (list_entries_are_live shadowed_in_memTable).
  apply distinct_keys_wf. reflexivity.
Defined.

(** X9.  [getAllEntries] never returns two entries for one key. *)
Theorem list_keys_are_distinct s :
  JsMap.wf (MemTable.data (LSMTree.memTable (tree s))) ->
  exists es,
    fst (LSMTree.getAllEntries s) = Ok es /\ NoDup (map fst es).
Proof.
  destruct s as [t w]. unfold tree. cbn [fst snd]. intros Hwf.
  destruct (getAllEntries_spec t w Hwf) as (kept & m & w' & Hrun & _ & Hwff & Hok & _).
  cbv zeta in Hrun, Hwff, Hok. rewrite Hrun. cbn [fst].
  eexists. split; [reflexivity|].
  rewrite values_keys; [exact Hwff|].
  eapply Forall_impl; [|exact Hok]. intros b (Hk & _). exact Hk.
Qed.

Lemma list_keys_are_distinct_witness :
  exists es,
    fst (LSMTree.getAllEntries shadowed_in_memTable) = Ok es /\ NoDup (map fst es).
Proof.
  apply (list_keys_are_distinct shadowed_in_memTable).
  apply distinct_keys_wf. reflexivity.
Defined.

(** X10.  After [delete(key)], [getAllEntries] at any later moment returns
    no entry for [key], whatever the segments hold for it. *)
Theorem list_after_delete_omits_key s key w' :
  JsMap.wf (MemTable.data (LSMTree.memTable (tree s))) ->
  exists es,
    fst (LSMTree.getAllEntries (tree (snd (LSMTree.delete key s)), w')) = Ok es
    /\ ~ In key (map fst es).
Proof.
  destruct s as [t w]. unfold tree. cbn [fst snd]. intros Hwf.
  rewrite delete_unfold. cbn [fst snd].
  set (tomb := stored_entry None None w).
  set (t1 := inserted key tomb t).
  assert (Hwf1 : JsMap.wf (MemTable.data (LSMTree.memTable t1))).
  { unfold t1, inserted. projs. now apply wf_set. }
  assert (Hg : In (key, tomb) (MemTable.data (LSMTree.memTable t1))).
  { apply get_In. unfold t1, inserted. projs. apply get_set_same. }
  destruct (getAllEntries_spec t1 w' Hwf1)
    as (kept & m & w2 & Hrun & _ & _ & Hok & Hwfk & _ & Hall).
  cbv zeta in Hrun, Hok. rewrite Hrun. cbn [fst].
  eexists. split; [reflexivity|]. intros Hin.
  apply values_key_bound in Hin.
  - destruct Hin as (ke & Hke).
    rewrite (getAllEntries_memTable_bound key tomb kept m) in Hke;
      [discriminate Hke|exact Hwfk|].
    apply Hall; [exact Hg|reflexivity].
  - eapply Forall_impl; [|exact Hok]. intros b (Hk & _). exact Hk.
Qed.

Lemma list_after_delete_omits_key_witness :
  exists es,
    fst (LSMTree.getAllEntries
           (tree (snd (LSMTree.delete "k" old_in_segment)), calm 5000 [])) = Ok es
    /\ ~ In "k" (map fst es).
Proof.
  apply (list_after_delete_omits_key old_in_segment "k" (calm 5000 [])).
  apply distinct_keys_wf. reflexivity.
Defined.

(** X11.  The MemTable shadows the segments in the listing: a value
    without expiry that the MemTable binds to a key is the entry
    [getAllEntries] returns for that key. *)
Theorem list_shows_memTable_value s key e :
  JsMap.wf (MemTable.data (LSMTree.memTable (tree s))) ->
  JsMap.get key (MemTable.data (LSMTree.memTable (tree s))) = Some e ->
  value e <> None -> truthy (expiresAt e) = false ->
  exists es,
    fst (LSMTree.getAllEntries s) = Ok es
    /\ In (key, e) es
    /\ forall e', In (key, e') es -> e' = e.
Proof.
  destruct s as [t w]. unfold tree. cbn [fst snd]. intros Hwf Hg Hv Hx.
  destruct (getAllEntries_spec t w Hwf)
    as (kept & m & w' & Hrun & _ & Hwff & Hok & Hwfk & _ & Hall).
  cbv zeta in Hrun, Hwff, Hok. rewrite Hrun. cbn [fst].
  set (final := LSMTree.getAllEntries_memTable kept m) in *.
  assert (Hbound : JsMap.get key final = Some (key, e)).
  { unfold final. rewrite (getAllEntries_memTable_bound key e kept m).
    - destruct (value e); [reflexivity|congruence].
    - exact Hwfk.
    - apply Hall; [now apply get_In|].
      unfold expired_at. cbn [snd]. destruct (expiresAt e); [|reflexivity].
      rewrite Hx. reflexivity. }
  eexists. split; [reflexivity|]. split.
  - unfold JsMap.values. apply in_map_iff. exists (key, (key, e)).
    split; [reflexivity|]. now apply get_In.
  - intros e' Hin. unfold JsMap.values in Hin. apply in_map_iff in Hin.
    destruct Hin as ([k' ke] & Heq & Hin). cbn in Heq. subst ke.
    rewrite Forall_forall in Hok. destruct (Hok _ Hin) as (Hk & _).
    cbn in Hk. subst k'.
    apply (In_get _ _ _ _ Hwff) in Hin. rewrite Hbound in Hin.
    inversion Hin. reflexivity.
Qed.

Lemma list_shows_memTable_value_witness :
  exists es,
    fst (LSMTree.getAllEntries shadowed_in_memTable) = Ok es
    /\ In ("k", mkEntry (Some "new") None 1006) es
    /\ forall e', In ("k", e') es -> e' = mkEntry (Some "new") None 1006.
Proof.
  apply (list_shows_memTable_value shadowed_in_memTable "k"
           (mkEntry (Some "new") None 1006)).
  - apply distinct_keys_wf. reflexivity.
  - reflexivity.
  - discriminate.
  - reflexivity.
Defined.

(** *** MemTable *)

(** X12.  The sweep of [MemTable.getAllEntries]: the entries it returns
    are exactly the entries it leaves in the table, in the same order; each
    of them had not expired when the sweep began, and every entry it removed
    has expired by the time it ends. *)
Theorem MemTable_getAllEntries_keeps_what_it_returns mt w :
  JsMap.wf (MemTable.data mt) ->
  exists es w',
    MemTable.getAllEntries (mt, w)
    = (Ok es, (MemTable.mk es (MemTable.maxSize mt), w'))
    /\ time_passes w w'
    /\ (forall ke, In ke es ->
          In ke (MemTable.data mt) /\ expired_at (clock w) (snd ke) = false)
    /\ (forall ke, In ke (MemTable.data mt) -> ~ In ke es ->
          expired_at (clock w') (snd ke) = true).
Proof.
  intros Hwf. destruct mt as [d ms]. cbn [MemTable.data MemTable.maxSize] in *.
  unfold MemTable.getAllEntries. unfold bind at 1. unfold this at 1.
  cbn [fst snd MemTable.data].
  destruct (MemTable_sweep_spec d [] [] ms w Hwf)
    as (kept & w' & Hrun & Htp & _ & Hin & Hall).
  cbn [app] in Hrun. unfold JsMap.entries. rewrite Hrun.
  exists kept, w'. splits; auto.
  intros ke Hd Hn. destruct (expired_at (clock w') (snd ke)) eqn:E;
    [reflexivity|]. exfalso. apply Hn. auto.
Qed.

Lemma MemTable_getAllEntries_keeps_what_it_returns_witness :
  exists es w',
    MemTable.getAllEntries
      (LSMTree.memTable (tree shadowed_in_memTable), calm 5000 [])
    = (Ok es, (MemTable.mk es 4, w'))
    /\ time_passes (calm 5000 []) w'
    /\ (forall ke, In ke es ->
          In ke (MemTable.data (LSMTree.memTable (tree shadowed_in_memTable)))
          /\ expired_at (clock (calm 5000 [])) (snd ke) = false)
    /\ (forall ke,
          In ke (MemTable.data (LSMTree.memTable (tree shadowed_in_memTable))) ->
          ~ In ke es -> expired_at (clock w') (snd ke) = true).
Proof.
  apply (MemTable_getAllEntries_keeps_what_it_returns
           (LSMTree.memTable (tree shadowed_in_memTable)) (calm 5000 [])).
  apply distinct_keys_wf. reflexivity.
Defined.

(** *** Segment files *)

(** X13.  Round trip of a segment through its file.  A segment saved with
    [saveToDisk] and read back with [SSTable.loadFromDisk] from the path
    that [saveToDisk] returned is the same segment: same entries in the same
    order, same [createdAt], same [id], and [filePath] set to that path. *)
Theorem saveToDisk_loadFromDisk_round_trip seg w rf mf meta :
  JsMap.wf (SSTable.data seg) ->
  next_fault (segFaults w) = false -> next_fault rf = false ->
  exists p seg' w',
    SSTable.saveToDisk (seg, w) = (Ok p, (seg', w'))
    /\ fst (SSTable.loadFromDisk p (mkHost w' rf mf meta)) = Ok (Some seg')
    /\ SSTable.data seg' = SSTable.data seg
    /\ SSTable.createdAt seg' = SSTable.createdAt seg
    /\ SSTable.id seg' = SSTable.id seg
    /\ SSTable.filePath seg' = Some p.
Proof.
  intros Hwf Hsf Hrf.
  unfold SSTable.saveToDisk, bind, this, set_this, io, ret. cbn [fst snd].
  set (p := match SSTable.filePath seg with
            | Some p => p
            | None => SSTablePath (SSTable.id seg)
            end).
  destruct (write_segment_spec p
              (mkSegFile (SSTable.id seg) (SSTable.createdAt seg)
                         (JsMap.entries (SSTable.data seg))) w)
    as (w' & Hw & _ & _ & _ & _ & _ & Hfiles).
  rewrite Hw, Hsf. rewrite Hsf in Hfiles. cbn [fst snd].
  eexists. eexists. eexists. split; [reflexivity|].
  split; [|cbn; auto].
  destruct (SSTable_loadFromDisk_spec p (mkHost w' rf mf meta)) as (h' & Hload & _).
  rewrite Hload. cbn [fst readFaults host_world]. rewrite Hrf, Hfiles.
  rewrite read_file_written. cbn [option_map]. unfold loaded.
  cbn [file_entries file_createdAt file_id]. unfold JsMap.entries.
  rewrite of_pairs_copy by exact Hwf. reflexivity.
Qed.

Lemma saveToDisk_loadFromDisk_round_trip_witness :
  exists p seg' w',
    SSTable.saveToDisk (unsaved_segment, calm 1000 []) = (Ok p, (seg', w'))
    /\ fst (SSTable.loadFromDisk p (mkHost w' [] [] None)) = Ok (Some seg')
    /\ SSTable.data seg' = SSTable.data unsaved_segment
    /\ SSTable.createdAt seg' = SSTable.createdAt unsaved_segment
    /\ SSTable.id seg' = SSTable.id unsaved_segment
    /\ SSTable.filePath seg' = Some p.
Proof.
  apply (saveToDisk_loadFromDisk_round_trip unsaved_segment (calm 1000 []) [] [] None).
  - apply distinct_keys_wf. reflexivity.
  - reflexivity.
  - reflexivity.
Defined.

(** *** Recovery *)

(** X14.  Whatever the data directory holds and whichever reads fail, the
    constructor returns an engine; its segments are in ascending order of
    [createdAt], each of them was read from a segment file of the
    directory, and recovery has written nothing: the WAL, the segment files
    and the metadata file are as they were. *)
Theorem recovery_loads_segments_in_order a b h :
  exists t' h',
    LSMTree.constructor a b h = (Ok t', h')
    /\ ascending (LSMTree.ssTables t')
    /\ (forall seg, In seg (LSMTree.ssTables t') ->
          exists p f, read_file p (segFiles (host_world h)) = Some f
                      /\ seg = loaded p f)
    /\ segFiles (host_world h') = segFiles (host_world h)
    /\ walFile (host_world h') = walFile (host_world h)
    /\ metaFile h' = metaFile h.
Proof.
  rewrite constructor_run.
  destruct (recovery_spec (LSMTree.new a b) h eq_refl)
    as (t' & h' & Hrun & Hor & _ & _ & Hasc & Hsound & _).
  rewrite Hrun. cbn [fst snd]. exists t', h'. split; [reflexivity|].
  destruct Hor as [[] _ Hmeta]. splits; auto.
Qed.

(** X15.  Crash recovery of the MemTable.  When the WAL on disk lists the
    MemTable of an engine, a new engine constructed on that data directory,
    with reads that succeed, starts with the same MemTable entries in the
    same order. *)
Theorem recovery_restores_memTable s a b rf mf meta :
  wal_current s ->
  JsMap.wf (MemTable.data (LSMTree.memTable (tree s))) ->
  no_fault rf ->
  exists t' h',
    LSMTree.constructor a b (mkHost (world s) rf mf meta) = (Ok t', h')
    /\ MemTable.data (LSMTree.memTable t') = MemTable.data (LSMTree.memTable (tree s))
    /\ MemTable.maxSize (LSMTree.memTable t') = a.
Proof.
  intros (f & Hwal & Hf) Hwf Hnf. rewrite constructor_run.
  destruct (recovery_spec (LSMTree.new a b) (mkHost (world s) rf mf meta) eq_refl)
    as (t' & h' & Hrun & _ & _ & Hms & _ & _ & _ & _ & Hgood).
  rewrite Hrun. cbn [fst snd]. exists t', h'. split; [reflexivity|].
  destruct (Hgood Hnf) as (Hdata & _). cbn [host_world] in Hdata.
  rewrite Hwal in Hdata. split; [|exact Hms].
  rewrite Hdata, Hf. unfold MemTable.toJSON, JsMap.entries.
  now apply of_pairs_copy.
Qed.

Lemma recovery_restores_memTable_witness :
  exists t' h',
    LSMTree.constructor 4 2 (found_by_restart one_entry) = (Ok t', h')
    /\ MemTable.data (LSMTree.memTable t')
       = MemTable.data (LSMTree.memTable (tree one_entry))
    /\ MemTable.maxSize (LSMTree.memTable t') = 4.
Proof.
  apply (recovery_restores_memTable one_entry 4 2 [] [] None).
  - eexists. split; reflexivity.
  - apply distinct_keys_wf. reflexivity.
  - constructor.
Defined.

(** X16.  When every read succeeds, recovery loads exactly one segment per
    segment file of the data directory. *)
Theorem recovery_loads_every_segment_file a b h :
  no_fault (readFaults h) ->
  exists t' h',
    LSMTree.constructor a b h = (Ok t', h')
    /\ Permutation (LSMTree.ssTables t')
         (segments_of (host_world h) (map fst (segFiles (host_world h))))
    /\ List.length (LSMTree.ssTables t') = List.length (segFiles (host_world h))
    /\ forall p f, read_file p (segFiles (host_world h)) = Some f ->
         In (loaded p f) (LSMTree.ssTables t').
Proof.
  intros Hnf. rewrite constructor_run.
  destruct (recovery_spec (LSMTree.new a b) h eq_refl)
    as (t' & h' & Hrun & _ & _ & _ & _ & _ & _ & _ & Hgood).
  rewrite Hrun. cbn [fst snd]. exists t', h'. split; [reflexivity|].
  destruct (Hgood Hnf) as (_ & Hperm). split; [exact Hperm|]. split.
  - rewrite (Permutation_length Hperm), segments_of_length by auto.
    apply length_map.
  - intros p f Hread. apply (Permutation_in _ (Permutation_sym Hperm)).
    unfold segments_of. apply in_flat_map. exists p.
    split; [eapply read_file_listed; eauto|]. rewrite Hread. now left.
Qed.

Lemma recovery_loads_every_segment_file_witness :
  exists t' h',
    LSMTree.constructor 1 10 (found_by_restart two_segments) = (Ok t', h')
    /\ Permutation (LSMTree.ssTables t')
         (segments_of (world two_segments) (map fst (segFiles (world two_segments))))
    /\ List.length (LSMTree.ssTables t') = List.length (segFiles (world two_segments))
    /\ forall p f, read_file p (segFiles (world two_segments)) = Some f ->
         In (loaded p f) (LSMTree.ssTables t').
Proof.
  apply (recovery_loads_every_segment_file 1 10 (found_by_restart two_segments)).
  constructor.
Defined.

(** X17.  Recovery takes [defaultTTL] from a readable metadata file unless
    the file says [0]; without a metadata file, or when it cannot be read,
    [defaultTTL] is the constructor's one minute. *)
Theorem recovery_restores_defaultTTL a b h :
  exists t' h',
    LSMTree.constructor a b h = (Ok t', h')
    /\ LSMTree.defaultTTL t' =
       match metaFile h with
       | Some m =>
           if next_fault (readFaults h) then 60000
           else if meta_defaultTTL m =? 0 then 60000 else meta_defaultTTL m
       | None => 60000
       end.
Proof.
  rewrite constructor_run.
  destruct (recovery_spec (LSMTree.new a b) h eq_refl)
    as (t' & h' & Hrun & _ & _ & _ & _ & _ & Httl & _).
  rewrite Hrun. cbn [fst snd]. exists t', h'. split; [reflexivity|].
  rewrite Httl. cbn [LSMTree.defaultTTL LSMTree.new truthy].
  destruct (metaFile h) as [m|]; [|reflexivity].
  destruct (next_fault (readFaults h)); [reflexivity|].
  destruct (meta_defaultTTL m =? 0); reflexivity.
Qed.

(** X18.  Recovery is all or nothing at its first read.  When a metadata
    file or a WAL exists and the first read fails -- the file is unreadable
    or malformed -- the constructor returns a new, empty engine: neither the
    MemTable nor any segment is restored, although the segment files are on
    disk. *)
Theorem recovery_abandoned_when_first_read_fails a b h :
  next_fault (readFaults h) = true ->
  metaFile h <> None \/ walFile (host_world h) <> None ->
  fst (LSMTree.constructor a b h) = Ok (LSMTree.new a b).
Proof.
  intros Hf Hex. rewrite constructor_run. cbn [fst].
  destruct (recovery_spec (LSMTree.new a b) h eq_refl)
    as (t' & h' & Hrun & _ & _ & _ & _ & _ & _ & Habandon & _).
  rewrite Hrun. cbn [fst snd]. now rewrite (Habandon Hf Hex).
Qed.

Lemma recovery_abandoned_when_first_read_fails_witness :
  fst (LSMTree.constructor 1 10 (found_unreadable two_segments))
  = Ok (LSMTree.new 1 10).
Proof.
  apply (recovery_abandoned_when_first_read_fails 1 10 (found_unreadable two_segments)).
  - reflexivity.
  - right. discriminate.
Defined.

(** *** Shutdown *)

(** X19.  A shutdown whose flush meets no I/O failure returns with an
    empty MemTable, and with a metadata file that records [defaultTTL] and
    a time stamp not before the shutdown began; when the metadata file
    cannot be written, the shutdown still returns and the file stays as it
    was. *)
Theorem shutdown_flushes_and_saves_metadata s :
  no_fault (segFaults (host_world (snd s))) ->
  no_fault (unlinkFaults (host_world (snd s))) ->
  fst (LSMTree.shutdown s) = Ok tt
  /\ MemTable.size (LSMTree.memTable (fst (snd (LSMTree.shutdown s)))) = O
  /\ exists stamp,
       clock (host_world (snd s)) <= stamp
       /\ metaFile (snd (snd (LSMTree.shutdown s))) =
          if next_fault (metaFaults (snd s)) then metaFile (snd s)
          else Some (mkMetaFile (LSMTree.defaultTTL (fst s)) stamp).
Proof.
  destruct s as [t h]. cbn [fst snd]. intros Hsf Huf.
  rewrite shutdown_unfold.
  pose proof (flush_succeeds t (host_world h) Hsf Huf) as Hok.
  destruct (flush_ok_empties t (host_world h) Hok) as (Hempty & Httl & Hclk).
  destruct (LSMTree.flush (t, host_world h)) as [[[]|e] [t' w']];
    [|discriminate]. cbn [fst snd] in *.
  destruct (saveMetadata_spec t' (mkHost w' (readFaults h) (metaFaults h) (metaFile h)))
    as (h' & Hrun & _ & _ & _ & Hmeta).
  rewrite Hrun. cbn [fst snd]. cbn [host_world metaFaults metaFile] in Hmeta.
  split; [reflexivity|]. split; [exact Hempty|].
  exists (next_now w'). split; [pose proof (next_now_ge w'); lia|].
  rewrite Hmeta, Httl. reflexivity.
Qed.

Lemma shutdown_flushes_and_saves_metadata_witness :
  fst (LSMTree.shutdown before_shutdown) = Ok tt
  /\ MemTable.size (LSMTree.memTable (fst (snd (LSMTree.shutdown before_shutdown)))) = O
  /\ exists stamp,
       clock (host_world (snd before_shutdown)) <= stamp
       /\ metaFile (snd (snd (LSMTree.shutdown before_shutdown))) =
          if next_fault (metaFaults (snd before_shutdown))
          then metaFile (snd before_shutdown)
          else Some (mkMetaFile (LSMTree.defaultTTL (fst before_shutdown)) stamp).
Proof.
  apply (shutdown_flushes_and_saves_metadata before_shutdown); constructor.
Defined.

(** X20.  A shutdown whose flush cannot write the segment fails with
    [IoError] and does not reach the metadata: the engine, the WAL and the
    metadata file are as they were. *)
Theorem shutdown_fails_when_flush_fails s :
  MemTable.size (LSMTree.memTable (fst s)) <> O ->
  next_fault (segFaults (host_world (snd s))) = true ->
  fst (LSMTree.shutdown s) = Throw IoError
  /\ fst (snd (LSMTree.shutdown s)) = fst s
  /\ walFile (host_world (snd (snd (LSMTree.shutdown s)))) = walFile (host_world (snd s))
  /\ metaFile (snd (snd (LSMTree.shutdown s))) = metaFile (snd s)
  /\ metaFaults (snd (snd (LSMTree.shutdown s))) = metaFaults (snd s).
Proof.
  destruct s as [t h]. cbn [fst snd]. intros Hsz Hf.
  rewrite shutdown_unfold.
  destruct (flush_persist_fails t (host_world h) Hsz Hf) as (Hr & Ht & Hwal).
  destruct (LSMTree.flush (t, host_world h)) as [[u|e] [t' w']];
    cbn [fst snd] in *; [discriminate|].
  inversion Hr. subst. auto.
Qed.

Lemma shutdown_fails_when_flush_fails_witness :
  fst (LSMTree.shutdown before_failing_shutdown) = Throw IoError
  /\ fst (snd (LSMTree.shutdown before_failing_shutdown)) = fst before_failing_shutdown
  /\ walFile (host_world (snd (snd (LSMTree.shutdown before_failing_shutdown))))
     = walFile (host_world (snd before_failing_shutdown))
  /\ metaFile (snd (snd (LSMTree.shutdown before_failing_shutdown)))
     = metaFile (snd before_failing_shutdown)
  /\ metaFaults (snd (snd (LSMTree.shutdown before_failing_shutdown)))
     = metaFaults (snd before_failing_shutdown).
Proof.
  apply (shutdown_fails_when_flush_fails before_failing_shutdown).
  - vm_compute. discriminate.
  - reflexivity.
Defined.

(** X21.  Shutdown, then restart.  After a shutdown without I/O failure of
    an engine whose WAL was in step with its MemTable, a new engine
    constructed on the data directory, with reads that succeed, starts with
    an empty MemTable and with the [defaultTTL] of the engine that shut
    down (one minute if that was [0]). *)
Theorem restart_after_shutdown s a b rf :
  wal_matches (fst s, host_world (snd s)) ->
  no_fault (segFaults (host_world (snd s))) ->
  no_fault (unlinkFaults (host_world (snd s))) ->
  next_fault (walFaults (host_world (snd s))) = false ->
  next_fault (metaFaults (snd s)) = false ->
  no_fault rf ->
  let h' := snd (snd (LSMTree.shutdown s)) in
  exists t'' h'',
    LSMTree.constructor a b (mkHost (host_world h') rf (metaFaults h') (metaFile h'))
    = (Ok t'', h'')
    /\ MemTable.data (LSMTree.memTable t'') = JsMap.empty
    /\ LSMTree.defaultTTL t'' =
       if LSMTree.defaultTTL (fst s) =? 0 then 60000 else LSMTree.defaultTTL (fst s).
Proof.
  destruct s as [t h]. cbn [fst snd]. intros Hwal Hsf Huf Hwf Hmf Hrf. cbv zeta.
  rewrite shutdown_unfold.
  pose proof (flush_succeeds t (host_world h) Hsf Huf) as Hok.
  destruct (flush_ok_empties t (host_world h) Hok) as (Hempty & Httl & _).
  pose proof (flush_wal_matches t (host_world h) Hwf Hwal) as Hwal'.
  destruct (LSMTree.flush (t, host_world h)) as [[[]|e] [t' w']];
    [|discriminate]. cbn [fst snd] in *.
  destruct (saveMetadata_spec t' (mkHost w' (readFaults h) (metaFaults h) (metaFile h)))
    as (h' & Hrun & Htp & _ & _ & Hmeta).
  rewrite Hrun. cbn [fst snd]. cbn [host_world metaFaults metaFile] in Hmeta, Htp.
  rewrite Hmf in Hmeta. rewrite constructor_run.
  set (h1 := mkHost (host_world h') rf (metaFaults h') (metaFile h')).
  destruct (recovery_spec (LSMTree.new a b) h1 eq_refl)
    as (t'' & h'' & Hrec & _ & _ & _ & _ & _ & Hdttl & _ & Hgood).
  rewrite Hrec. cbn [fst snd]. exists t'', h''. split; [reflexivity|].
  destruct (Hgood Hrf) as (Hdata & _). cbn [host_world h1] in Hdata.
  split.
  - rewrite Hdata. destruct Htp as [_ _ _ _ Hsame _]. rewrite Hsame.
    unfold wal_matches, world, tree in Hwal'. cbn [fst snd] in Hwal'.
    destruct (walFile w') as [f|]; [|reflexivity].
    rewrite Hwal'. unfold MemTable.toJSON, JsMap.entries.
    unfold MemTable.size, JsMap.size in Hempty.
    destruct (MemTable.data (LSMTree.memTable t')); [reflexivity|discriminate].
  - rewrite Hdttl. cbn [metaFile h1 readFaults]. rewrite Hmeta.
    rewrite (no_fault_next _ Hrf). cbn [meta_defaultTTL truthy LSMTree.defaultTTL LSMTree.new].
    rewrite Httl. destruct (LSMTree.defaultTTL t =? 0); reflexivity.
Qed.

Lemma restart_after_shutdown_witness :
  exists t'' h'',
    LSMTree.constructor 4 2
      (mkHost (host_world (snd (snd (LSMTree.shutdown before_shutdown)))) []
              (metaFaults (snd (snd (LSMTree.shutdown before_shutdown))))
              (metaFile (snd (snd (LSMTree.shutdown before_shutdown)))))
    = (Ok t'', h'')
    /\ MemTable.data (LSMTree.memTable t'') = JsMap.empty
    /\ LSMTree.defaultTTL t'' =
       if LSMTree.defaultTTL (fst before_shutdown) =? 0 then 60000
       else LSMTree.defaultTTL (fst before_shutdown).
Proof.
  apply (restart_after_shutdown before_shutdown 4 2 []).
  - vm_compute. reflexivity.
  - constructor.
  - constructor.
  - reflexivity.
  - reflexivity.
  - constructor.
Defined.

(** *** The HTTP routes *)

(** X22.  Validation of [POST /api/cache] and [PUT /api/cache/:key], for a
    body whose key is a string or a value that is no string and falsy.  A
    [POST] is answered with [400] exactly when [!key] holds -- the key is
    absent, [null], [false], [0] or the empty string -- or the value is
    absent, a [PUT] exactly when the value is absent; a request answered
    with [400] changes nothing, neither in the engine nor on disk.  A
    [null] value is not rejected, and a [POST] that is not rejected has run
    [cache.put] on its key and value. *)
Theorem routes_reject_incomplete_requests s key k value ttl :
  (status_of (Api.post_cache (Api.body_key key) value ttl s) = Some 400
   <-> Api.not_key key = true \/ value = Api.JsUndefined)
  /\ (status_of (Api.put_cache_key k value ttl s) = Some 400
      <-> value = Api.JsUndefined)
  /\ (status_of (Api.post_cache (Api.body_key key) value ttl s) = Some 400 ->
      snd (Api.post_cache (Api.body_key key) value ttl s) = s)
  /\ (status_of (Api.put_cache_key k value ttl s) = Some 400 ->
      snd (Api.put_cache_key k value ttl s) = s)
  /\ (Api.not_key key = false -> value <> Api.JsUndefined ->
      exists k', key = Api.KeyString k' /\ k' <> EmptyString
        /\ snd (Api.post_cache (Api.body_key key) value ttl s)
           = snd (LSMTree.put k' (Api.put_value value) ttl s)).
Proof.
  assert (Hput : forall k0 v text,
            status_of
              (try_catch
                 (LSMTree.put k0 v ttl ;; ret (Api.mkResponse 200 (Api.Message text)))
                 (fun error => ret (Api.mkResponse 500 (Api.FailureOf error))) s)
            <> Some 400).
  { intros k0 v text. unfold try_catch, bind, ret, status_of.
    destruct (LSMTree.put k0 v ttl s) as [[u|e] s']; cbn; discriminate. }
  assert (Hran : forall k0 v text,
            snd (try_catch
                   (LSMTree.put k0 v ttl ;; ret (Api.mkResponse 200 (Api.Message text)))
                   (fun error => ret (Api.mkResponse 500 (Api.FailureOf error))) s)
            = snd (LSMTree.put k0 v ttl s)).
  { intros k0 v text. unfold try_catch, bind, ret.
    destruct (LSMTree.put k0 v ttl s) as [[u|e] s']; reflexivity. }
  split; [|split; [|split; [|split]]].
  - unfold Api.post_cache.
    destruct key as [| | | |k1]; cbn [Api.body_key Api.not_key Api.key_missing];
      [split; [now left|reflexivity] ..|].
    destruct (String.eqb k1 EmptyString), value as [| |p];
      cbn [Api.is_undefined orb]; split; intros H; auto;
      try reflexivity; try (now left); try (now right);
      try (exfalso; eapply Hput; eassumption);
      destruct H; discriminate.
  - unfold Api.put_cache_key.
    destruct value as [| |p]; cbn [Api.is_undefined]; split; intros H; auto;
      try reflexivity; try discriminate;
      exfalso; eapply Hput; eassumption.
  - unfold Api.post_cache.
    destruct key as [| | | |k1]; cbn [Api.body_key Api.key_missing]; try reflexivity.
    destruct (String.eqb k1 EmptyString), value as [| |p];
      cbn [Api.is_undefined orb]; intros H; try reflexivity;
      exfalso; eapply Hput; eassumption.
  - unfold Api.put_cache_key.
    destruct value as [| |p]; cbn [Api.is_undefined]; intros H; try reflexivity;
      exfalso; eapply Hput; eassumption.
  - intros Hk Hv. destruct key as [| | | |k1]; try discriminate.
    cbn [Api.not_key] in Hk. exists k1. split; [reflexivity|]. split.
    + intros ->. discriminate.
    + unfold Api.post_cache. cbn [Api.body_key Api.key_missing]. rewrite Hk.
      destruct value as [| |p]; [contradiction| |]; cbn [Api.is_undefined orb];
        apply Hran.
Qed.

Lemma routes_reject_incomplete_requests_witness :
  snd (Api.post_cache (Api.body_key Api.KeyZero) (Api.JsPayload "v") TtlOmitted
         (fresh 4 2)) = fresh 4 2
  /\ snd (Api.put_cache_key "k" Api.JsUndefined TtlOmitted (fresh 4 2)) = fresh 4 2
  /\ exists k',
       Api.KeyString "k" = Api.KeyString k' /\ k' <> EmptyString
       /\ snd (Api.post_cache (Api.body_key (Api.KeyString "k")) Api.JsNull
                 TtlOmitted (fresh 4 2))
          = snd (LSMTree.put k' (Api.put_value Api.JsNull) TtlOmitted (fresh 4 2)).
Proof.
  destruct (routes_reject_incomplete_requests (fresh 4 2) Api.KeyZero "k"
              (Api.JsPayload "v") TtlOmitted) as ((_ & Hpost) & _ & Hsame & _).
  destruct (routes_reject_incomplete_requests (fresh 4 2) Api.KeyZero "k"
              Api.JsUndefined TtlOmitted) as (_ & (_ & Hput) & _ & Hsame' & _).
  destruct (routes_reject_incomplete_requests (fresh 4 2) (Api.KeyString "k") "k"
              Api.JsNull TtlOmitted) as (_ & _ & _ & _ & Hran).
  split; [|split].
  - apply Hsame. apply Hpost. left. reflexivity.
  - apply Hsame'. apply Hput. reflexivity.
  - apply Hran; [reflexivity | discriminate].
Defined.

(** X23.  Routes that cannot fail.  Whatever the state of the engine and
    whatever faults the disk has in store, [DELETE /api/cache/:key] answers
    [200], also for a key that was never stored; [GET /api/cache/:key]
    answers [200] or [404] and [GET /api/cache] answers [200]: none of them
    ever answers [500]. *)
Theorem read_and_delete_routes_never_fail s key :
  fst (Api.delete_cache_key key s)
  = Ok (Api.mkResponse 200 (Api.Message "Entry deleted successfully"))
  /\ (status_of (Api.get_cache_key key s) = Some 200
      \/ status_of (Api.get_cache_key key s) = Some 404)
  /\ status_of (Api.get_cache s) = Some 200.
Proof.
  destruct s as [t w]. split; [|split].
  - unfold Api.delete_cache_key, try_catch, bind. rewrite delete_unfold. reflexivity.
  - unfold Api.get_cache_key, try_catch, bind, status_of.
    destruct (get_total key t w) as (r & t' & w' & H). rewrite H.
    destruct r; cbn; auto.
  - unfold Api.get_cache, try_catch, bind, status_of.
    destruct (getAllEntries_total t w) as (r & t' & w' & H). rewrite H.
    reflexivity.
Qed.

(** X24.  A [POST] can answer [500] and still have stored the entry.  When
    the MemTable reports full and the segment cannot be written,
    [POST /api/cache] with a key and a value answers [500], and the
    MemTable binds the key to the new entry all the same. *)
Theorem post_answers_500_but_stores s k p ttl :
  Api.key_missing (Some k) = false ->
  reports_full k (LSMTree.memTable (tree s)) = true ->
  next_fault (segFaults (world s)) = true ->
  fst (Api.post_cache (Some k) (Api.JsPayload p) ttl s)
  = Ok (Api.mkResponse 500 (Api.FailureOf IoError))
  /\ JsMap.get k (MemTable.data (LSMTree.memTable
                    (tree (snd (Api.post_cache (Some k) (Api.JsPayload p) ttl s)))))
     = Some (stored_entry (Some p) (resolve_ttl ttl (tree s)) (world s)).
Proof.
  destruct s as [t w]. unfold tree, world. cbn [fst snd]. intros Hk Hfull Hf.
  unfold Api.post_cache. rewrite Hk. cbn [Api.is_undefined orb Api.put_value].
  unfold try_catch, bind. rewrite put_unfold. cbv zeta. rewrite Hfull.
  set (t1 := inserted k _ t).
  set (w2 := after_saveWAL t1 _).
  assert (Hsz : MemTable.size (LSMTree.memTable t1) <> O).
  { unfold t1, inserted, MemTable.size. projs. apply size_set_pos. }
  assert (Hf2 : next_fault (segFaults w2) = true).
  { unfold w2. destruct (after_saveWAL_spec t1 (after_insert k (Some p) (resolve_ttl ttl t) t w))
      as (_ & Hsf & _). rewrite Hsf.
    destruct (after_insert_time k (Some p) (resolve_ttl ttl t) t w) as [_ _ Hsf' _ _ _].
    now rewrite Hsf'. }
  destruct (flush_persist_fails t1 w2 Hsz Hf2) as (Hr & Ht & _).
  destruct (LSMTree.flush (t1, w2)) as [[u|e] [t' w']]; cbn [fst snd] in *;
    [discriminate|].
  destruct e. subst t'. unfold ret. cbn [fst snd]. split; [reflexivity|].
  unfold t1, inserted. projs. apply get_set_same.
Qed.

Lemma post_answers_500_but_stores_witness :
  fst (Api.post_cache (Some "k") (Api.JsPayload "v") TtlNull full_and_failing)
  = Ok (Api.mkResponse 500 (Api.FailureOf IoError))
  /\ JsMap.get "k" (MemTable.data (LSMTree.memTable
        (tree (snd (Api.post_cache (Some "k") (Api.JsPayload "v") TtlNull
                      full_and_failing)))))
     = Some (stored_entry (Some "v") (resolve_ttl TtlNull (tree full_and_failing))
               (world full_and_failing)).
Proof.
  apply (post_answers_500_but_stores full_and_failing "k" "v" TtlNull);
    reflexivity.
Defined.

(** X25.  What a client sees after a delete.  After
    [DELETE /api/cache/:key], a [GET] for the same key, at any later
    moment, is answered with [200] and an entry whose value is [null], not
    with [404]. *)
Theorem get_route_after_delete_route s key w' :
  exists e,
    fst (Api.get_cache_key key (tree (snd (Api.delete_cache_key key s)), w'))
    = Ok (Api.mkResponse 200 (Api.EntryOf key e))
    /\ value e = None.
Proof.
  destruct s as [t w]. rewrite delete_route_run, delete_unfold. cbn [fst snd tree].
  exists (stored_entry None None w).
  unfold Api.get_cache_key, try_catch, bind.
  rewrite (get_memTable_hit key (stored_entry None None w)).
  - split; reflexivity.
  - unfold inserted. projs. apply get_set_same.
  - reflexivity.
Qed.

(** *** MemTable and segment methods *)

(** X26.  [MemTable.delete] reports whether the key was bound, unbinds it,
    leaves every other key as it was, and touches nothing else. *)
Theorem MemTable_delete_unbinds mt w key :
  exists mt',
    MemTable.delete key (mt, w)
    = (Ok (match JsMap.get key (MemTable.data mt) with
           | Some _ => true
           | None => false
           end), (mt', w))
    /\ JsMap.get key (MemTable.data mt') = None
    /\ (forall k, k <> key ->
          JsMap.get k (MemTable.data mt') = JsMap.get k (MemTable.data mt))
    /\ MemTable.maxSize mt' = MemTable.maxSize mt.
Proof.
  unfold MemTable.delete, bind, this, set_this, ret. cbn [fst snd].
  eexists. split; [reflexivity|]. cbn [MemTable.data MemTable.maxSize].
  splits; auto using get_delete_same.
  intros k Hk. now apply get_delete_other.
Qed.

(** X27.  [MemTable.fromJSON] builds a table with distinct keys in which
    every key is bound to the last pair that the array holds for it; on the
    array that [toJSON] yields for a table with distinct keys it restores
    that table's entries, in order. *)
Theorem MemTable_fromJSON_last_pair_wins pairs mt w :
  exists mt',
    MemTable.fromJSON pairs (mt, w) = (Ok tt, (mt', w))
    /\ JsMap.wf (MemTable.data mt')
    /\ (forall k, JsMap.get k (MemTable.data mt') = JsMap.get k (rev pairs))
    /\ (forall src, pairs = MemTable.toJSON src -> JsMap.wf (MemTable.data src) ->
          MemTable.data mt' = MemTable.data src).
Proof.
  unfold MemTable.fromJSON, bind, this, set_this. cbn [fst snd].
  eexists. split; [reflexivity|]. cbn [MemTable.data].
  split; [|split].
  - unfold JsMap.of_pairs. apply wf_fold_set. constructor.
  - intros k. unfold JsMap.of_pairs. rewrite get_fold_set.
    destruct (JsMap.get k (rev pairs)); reflexivity.
  - intros src -> Hwf. unfold MemTable.toJSON, JsMap.entries.
    now apply of_pairs_copy.
Qed.

Lemma MemTable_fromJSON_last_pair_wins_witness :
  exists mt',
    MemTable.fromJSON (MemTable.toJSON (LSMTree.memTable (tree shadowed_in_memTable)))
      (MemTable.new 4, calm 0 [])
    = (Ok tt, (mt', calm 0 []))
    /\ MemTable.data mt' = MemTable.data (LSMTree.memTable (tree shadowed_in_memTable)).
Proof.
  destruct (MemTable_fromJSON_last_pair_wins
              (MemTable.toJSON (LSMTree.memTable (tree shadowed_in_memTable)))
              (MemTable.new 4) (calm 0 []))
    as (mt' & Hrun & _ & _ & Hback).
  exists mt'. split; [exact Hrun|].
  apply Hback; [reflexivity|]. apply distinct_keys_wf. reflexivity.
Defined.

(** X28.  [SSTable.get] reads the clock at most once and nothing else
    changes; it returns an entry exactly when the segment binds the key to
    it and the entry has not expired at that reading. *)
Theorem SSTable_get_returns_unexpired_binding key seg w :
  exists r w',
    SSTable.get key seg w = (Ok r, w')
    /\ time_passes w w'
    /\ (forall e, r = Some e <->
          JsMap.get key (SSTable.data seg) = Some e
          /\ expired_at (clock w') e = false).
Proof.
  rewrite SSTable_get_run.
  destruct (JsMap.get key (SSTable.data seg)) as [e|].
  - eexists. eexists. split; [reflexivity|].
    split; [apply read_if_expiring_time|].
    intros e'. destruct (expired_at (next_now w) e) eqn:Hx.
    + split; [discriminate|]. intros (Heq & Hlive). inversion Heq. subst.
      rewrite read_if_expiring_clock in Hlive. congruence.
    + split.
      * intros Heq. inversion Heq. subst. split; [reflexivity|].
        now rewrite read_if_expiring_clock.
      * intros (Heq & _). exact Heq.
  - exists None, w. split; [reflexivity|]. split; [apply time_passes_refl|].
    intros e. split; [discriminate|]. intros (Heq & _). discriminate.
Qed.

(** X29.  [deleteFromDisk] removes the file of its segment and no other.
    For a segment that was never saved, or whose file is not on disk, it
    returns without calling [unlink] and changes nothing.  Otherwise, when
    [unlink] succeeds the file is gone and every other file is as it was,
    and when [unlink] rejects it fails with [IoError] and no file has
    changed. *)
Theorem deleteFromDisk_removes_only_its_file seg w :
  (match SSTable.filePath seg with
   | None => True
   | Some p => file_exists p (segFiles w) = false
   end -> SSTable.deleteFromDisk seg w = (Ok tt, w))
  /\ (forall p, SSTable.filePath seg = Some p ->
        file_exists p (segFiles w) = true ->
        let w' := snd (SSTable.deleteFromDisk seg w) in
        if next_fault (unlinkFaults w)
        then fst (SSTable.deleteFromDisk seg w) = Throw IoError
             /\ segFiles w' = segFiles w
        else fst (SSTable.deleteFromDisk seg w) = Ok tt
             /\ file_exists p (segFiles w') = false
             /\ forall q, q <> p ->
                  read_file q (segFiles w') = read_file q (segFiles w)).
Proof.
  unfold SSTable.deleteFromDisk. split.
  - destruct (SSTable.filePath seg) as [p|]; [|reflexivity].
    intros Hno. unfold bind, existsSync. now rewrite Hno.
  - intros p Hp Hex. rewrite Hp. unfold bind, existsSync, unlink. rewrite Hex.
    cbv zeta. destruct (next_fault (unlinkFaults w)); cbn [fst snd segFiles].
    + auto.
    + splits; auto using file_exists_remove_same.
      intros q Hq. now apply read_file_remove_other.
Qed.

Lemma deleteFromDisk_removes_only_its_file_witness :
  SSTable.deleteFromDisk unsaved_segment (world two_segments)
  = (Ok tt, world two_segments)
  /\ fst (SSTable.deleteFromDisk newest_of_two (world two_segments)) = Ok tt.
Proof.
  destruct (deleteFromDisk_removes_only_its_file unsaved_segment (world two_segments))
    as (Hnone & _).
  destruct (deleteFromDisk_removes_only_its_file newest_of_two (world two_segments))
    as (_ & Hsome).
  split; [exact (Hnone I)|].
  specialize (Hsome _ eq_refl eq_refl). cbv zeta in Hsome.
  change (next_fault (unlinkFaults (world two_segments))) with false in Hsome.
  cbv iota in Hsome. apply Hsome.
Defined.

(** X30.  [SSTable.getAllEntries] changes nothing but the clock and
    returns entries of the segment, tombstones included: each entry it
    returns had not expired when it was called, and it returns every entry
    that has not expired by the time it ends. *)
Theorem SSTable_getAllEntries_returns_unexpired seg w :
  exists es w',
    SSTable.getAllEntries seg w = (Ok es, w')
    /\ time_passes w w'
    /\ (forall ke, In ke es ->
          In ke (SSTable.data seg) /\ expired_at (clock w) (snd ke) = false)
    /\ (forall ke, In ke (SSTable.data seg) ->
          expired_at (clock w') (snd ke) = false -> In ke es).
Proof.
  unfold SSTable.getAllEntries.
  destruct (SSTable_getAllEntries_loop_complete (JsMap.entries (SSTable.data seg)) [] w)
    as (kept & w' & Hrun & Htp & Hin & Hall).
  exists kept, w'. auto.
Qed.
